(** * esplay-audio-player: the playback engine, embedded and verified

    A shallow embedding of the parts of the firmware that the specification
    makes promises about.  The first half of the file holds the
    definitions, module by module:

    - [Keypad]   : [keypad_debounce]                          (keypad.c)
    - [Playlist] : [playlist_next], [playlist_prev],
                   [playlist_get_current]                     (playlist.c)
    - [Id3]      : [syncsafe], [syncsafe32], [read_text],
                   [parse_id3], [mp3_read_metadata]           (mp3_metadata.h)
    - [Player]   : [fops_determine_filetype], [choose_codec],
                   [make_playlist], [get_next_song_index],
                   [handle_cmd], [set_metadata], [play_song], [player_task],
                   [player_teardown_task], [free_playlist]    (audio_player.c)
    - [KeypadInput] : [i2c_keypad_read], [keypad_sample]      (keypad.c),
                   [lv_keypad_read]                           (main.c)
    - [Audio]    : [audio_volume_set], [audio_volume_get]     (audio.c),
                   [ui_increase_volume], [ui_decrease_volume],
                   the slider branch of [event_cb]            (ui_player.c)
    - [Loading]  : [list_files_on_sdcard]                     (sdcard.c),
                   [playlist_init],
                   [playlist_load_from_directory]             (playlist.c)
    - [Id3Tag]   : well-formed ID3v2 tags, the inputs of the parser
    - [Ownership], [Task] : the vocabulary of the heap and trace
                   properties of the player task
    - [Ui]       : [ui_player_set_metadata]                   (ui_player.c),
                   what [set_metadata] puts on the labels     (audio_player.c)

    The second half holds what is proved about them, in [KeypadFacts],
    [PlaylistFacts], [Id3Facts] and [PlayerFacts], and then in
    [KeypadInputFacts], [AudioFacts], [LoadingFacts], [Id3TagFacts],
    [OwnershipFacts], [TaskFacts] and [UiFacts].

    The target is the ESP32 (ILP32): [int], [long], [size_t] and [uint32_t]
    are 32 bits wide, [uint16_t] is 16 bits wide.  Machine integers are
    values of [Z]; every place where the C code narrows a value is written
    out with [CInt.to_int], [CInt.to_u32] or [CInt.to_u16].  What the C
    standard leaves undefined ends a run in [Mon.Fault] (or [None] in pure
    code); loops that the source does not bound run on fuel and end in
    [Mon.Timeout] when it is spent. *)

From Stdlib Require Import ZArith List Bool Lia String Ascii.
From Stdlib Require Import Strings.Byte.
From stdpp Require Import base option list strings gmap.
Import ListNotations.

Local Open Scope Z_scope.

(* ===================================================================== *)
(** ** C integers *)
(* ===================================================================== *)

Module CInt.

Definition INT_MAX : Z := 2 ^ 31 - 1.
Definition INT_MIN : Z := - 2 ^ 31.

(** Conversion to a 32-bit [int] / [long] (two's complement wrap). *)
Definition to_int (z : Z) : Z := (z + 2 ^ 31) mod 2 ^ 32 - 2 ^ 31.

(** Conversion to [uint32_t] / [size_t]. *)
Definition to_u32 (z : Z) : Z := z mod 2 ^ 32.

(** Conversion to [uint16_t]. *)
Definition to_u16 (z : Z) : Z := z mod 2 ^ 16.

(** The [%] operator on [int]: the remainder of the division that
    truncates toward zero.  Dividing by zero, and [INT_MIN % -1], are
    undefined: [None]. *)
Definition c_rem (a b : Z) : option Z :=
  if b =? 0 then None
  else if (a =? INT_MIN) && (b =? -1) then None
  else Some (Z.rem a b).

(** Addition and subtraction on [int]: signed overflow is undefined. *)
Definition c_add (a b : Z) : option Z :=
  let r := a + b in
  if (INT_MIN <=? r) && (r <=? INT_MAX) then Some r else None.

End CInt.

(* ===================================================================== *)
(** ** Keypad debounce filter (keypad.c) *)
(* ===================================================================== *)

Module Keypad.
Import CInt.

(** The three [static uint16_t] of [keypad_debounce]. *)
Record filter := mkFilter { state : Z; cnt0 : Z; cnt1 : Z }.

(** One call of [keypad_debounce].  The result pairs the statics after the
    call with the value stored through [changes] ([toggle]); the value the
    C function returns is the [state] of the new statics.  The operands of
    [^], [&], [|] and [~] are promoted to [int]; every assignment to a
    [uint16_t] narrows. *)
Definition keypad_debounce (k : filter) (sample : Z) : filter * Z :=
  let delta := to_u16 (Z.lxor sample (state k)) in
  let c1 := to_u16 (Z.land (Z.lxor (cnt1 k) (cnt0 k)) delta) in
  let c0 := to_u16 (Z.land (Z.lnot (cnt0 k)) delta) in
  let toggle := to_u16 (Z.land delta (Z.lnot (Z.lor c0 c1))) in
  (mkFilter (to_u16 (Z.lxor (state k) toggle)) c0 c1, toggle).

(** Successive calls on a list of raw samples: the statics after the last
    call, and for each call the pair (returned state, reported changes). *)
Fixpoint keypad_run (k : filter) (samples : list Z) : filter * list (Z * Z) :=
  match samples with
  | [] => (k, [])
  | s :: rest =>
      let '(k1, m) := keypad_debounce k s in
      let '(k2, outs) := keypad_run k1 rest in
      (k2, (state k1, m) :: outs)
  end.

(** What one call does at a single bit position: stored state bit [s],
    counter bits [c0] and [c1], raw bit [x].  The result is the new state
    bit, the new counter bits and the toggle bit. *)
Definition bit_step (s c0 c1 x : bool) : bool * bool * bool * bool :=
  let d := xorb x s in
  let c1' := xorb c1 c0 && d in
  let c0' := negb c0 && d in
  let t := d && negb (c0' || c1') in
  (xorb s t, c0', c1', t).

(** Bit [b] of the filter is settled: both counter bits are clear. *)
Definition settled (k : filter) (b : Z) : Prop :=
  Z.testbit (cnt0 k) b = false /\ Z.testbit (cnt1 k) b = false.

(** Bit [b] of every (returned state, changes) pair of a run. *)
Definition bits_at (b : Z) (outs : list (Z * Z)) : list (bool * bool) :=
  map (fun o => (Z.testbit (fst o) b, Z.testbit (snd o) b)) outs.

Definition zero : filter := mkFilter 0 0 0.

End Keypad.

(* ===================================================================== *)
(** ** Playlist manager (playlist.c) *)
(* ===================================================================== *)

Module Playlist.
Import CInt.

Definition MAX_PLAYLISTS : Z := 100.
Definition MAX_FILENAME_LENGTH : Z := 256.

(** [playlist_manager_t]: the rows of the path table
    ([char playlists[MAX_PLAYLISTS][MAX_FILENAME_LENGTH]], each row read as
    the C string it holds) and the two [int] fields. *)
Record playlist_manager_t := mkManager {
  playlists : list string;
  num_playlists : Z;
  current_index : Z
}.

(** A [const char *] returned by [playlist_get_current]: null, or the
    address of row [i] of the table. *)
Inductive path_ptr := NULL | Row (i : Z).

Definition playlist_get_current (pl : playlist_manager_t) : path_ptr :=
  if num_playlists pl =? 0 then NULL else Row (current_index pl).

(** The path a [path_ptr] points to; only a row inside the table can be
    read. *)
Definition deref (pl : playlist_manager_t) (p : path_ptr) : option string :=
  match p with
  | NULL => None
  | Row i =>
      if (0 <=? i) && (i <? MAX_PLAYLISTS) then playlists pl !! Z.to_nat i
      else None
  end.

Definition set_index (pl : playlist_manager_t) (i : Z) : playlist_manager_t :=
  mkManager (playlists pl) (num_playlists pl) i.

(** [None]: the [int] arithmetic of the call is undefined. *)
Definition playlist_next (pl : playlist_manager_t) : option playlist_manager_t :=
  if num_playlists pl =? 0 then Some pl
  else
    s ← c_add (current_index pl) 1;
    r ← c_rem s (num_playlists pl);
    Some (set_index pl r).

Definition playlist_prev (pl : playlist_manager_t) : option playlist_manager_t :=
  if num_playlists pl =? 0 then Some pl
  else
    d ← c_add (current_index pl) (-1);
    s ← c_add d (num_playlists pl);
    r ← c_rem s (num_playlists pl);
    Some (set_index pl r).

(** [current_index] addresses one of the [num_playlists] loaded rows. *)
Definition index_ok (pl : playlist_manager_t) : Prop :=
  0 <= current_index pl < num_playlists pl.

Definition three_paths : playlist_manager_t :=
  mkManager ["/sdcard/audio/a.mp3"; "/sdcard/audio/b.mp3"; "/sdcard/audio/c.mp3"]%string
            3 2.

End Playlist.

(* ===================================================================== *)
(** ** A state and error monad for the stateful code *)
(* ===================================================================== *)

Module Mon.

(** How a computation over a state [S] ends. *)
Inductive res (S A : Type) : Type :=
| Ret (a : A) (s : S)   (** it returned [a] *)
| Halt (s : S)          (** the running task was deleted: nothing after runs *)
| Fault                 (** undefined behaviour of the C program *)
| Timeout.              (** the fuel of a loop ran out *)

Arguments Ret {S A} a s.
Arguments Halt {S A} s.
Arguments Fault {S A}.
Arguments Timeout {S A}.

Definition M (S A : Type) : Type := S -> res S A.

Definition ret {S A} (a : A) : M S A := fun s => Ret a s.

Definition bind {S A B} (m : M S A) (k : A -> M S B) : M S B :=
  fun s =>
    match m s with
    | Ret a s' => k a s'
    | Halt s' => Halt s'
    | Fault => Fault
    | Timeout => Timeout
    end.

Definition modify {S} (f : S -> S) : M S unit := fun s => Ret tt (f s).
Definition fault {S A} : M S A := fun _ => Fault.
Definition timeout {S A} : M S A := fun _ => Timeout.
Definition halt {S A} : M S A := fun s => Halt s.

(** A C operation that is undefined where the option is [None]. *)
Definition defined {S A} (o : option A) : M S A :=
  match o with Some a => ret a | None => fault end.

(** Runs a computation over a component [T] of the state [S]. *)
Definition zoom {S T A} (proj : S -> T) (upd : T -> S -> S) (m : M T A) : M S A :=
  fun s =>
    match m (proj s) with
    | Ret a t => Ret a (upd t s)
    | Halt t => Halt (upd t s)
    | Fault => Fault
    | Timeout => Timeout
    end.

End Mon.

Declare Scope mon_scope.
Delimit Scope mon_scope with mon.
Notation "'let*' x ':=' m 'in' k" :=
  (Mon.bind m (fun x => k))
  (at level 10, x pattern, m at level 100, k at level 200,
   format "'[v' 'let*'  x  ':='  m  'in' '/' k ']'") : mon_scope.
Notation "m ';;' k" :=
  (Mon.bind m (fun _ => k))
  (at level 100, k at level 200, right associativity) : mon_scope.

(* ===================================================================== *)
(** ** ID3v2 metadata parser (mp3_metadata.h) *)
(* ===================================================================== *)

Module Id3.
Import CInt Mon.
Local Open Scope mon_scope.

Definition METADATA_TITLE_MAX : Z := 64.
Definition METADATA_ARTIST_MAX : Z := 64.
Definition METADATA_ALBUM_MAX : Z := 64.

(** *** Bytes *)

#[global] Instance byte_eq_decision : EqDecision byte := Byte.byte_eq_dec.

Definition byte_val (b : byte) : Z := Z.of_N (Byte.to_N b).

(** Conversion of an integer to [char] / [uint8_t]. *)
Definition byte_of (z : Z) : byte :=
  match Byte.of_N (Z.to_N (z mod 256)) with Some b => b | None => x00 end.

Definition bytes_of (l : list Z) : list byte := map byte_of l.

(** [b[i]] of an array that holds the bytes [b]. *)
Definition byte_at (b : list byte) (i : nat) : Z :=
  match b !! i with Some x => byte_val x | None => 0 end.

(** The code of ['?']. *)
Definition question_mark : byte := byte_of 63.

(** *** Streams *)

(** A [FILE *] opened for reading: the bytes of the file and the position
    indicator. *)
Record FILE := mkFILE { contents : list byte; pos : Z }.

(** [fread(buf, 1, n, f)]: the bytes delivered, at most [n] and no more
    than the file still has; the position advances past them. *)
Definition fread (n : Z) : M FILE (list byte) :=
  fun f =>
    let got := take (Z.to_nat n) (drop (Z.to_nat (pos f)) (contents f)) in
    Ret got (mkFILE (contents f) (pos f + Z.of_nat (length got))).

(** The array [buf] after [fread] delivered [got] into it: the bytes
    delivered come first, the rest of the array keeps what it held. *)
Definition filled (got buf : list byte) : list byte :=
  got ++ drop (length got) buf.

(** [fseek(f, off, SEEK_CUR)] with [off] a [long]: a target before the
    start of the file is refused and leaves the position as it was. *)
Definition fseek_cur (off : Z) : M FILE unit :=
  fun f =>
    let target := pos f + off in
    if target <? 0 then Ret tt f else Ret tt (mkFILE (contents f) target).

(** [fseek(f, 0, SEEK_SET)]. *)
Definition rewind : M FILE unit :=
  fun f => Ret tt (mkFILE (contents f) 0).

(** [out[i] = v] on the array [out]; a store outside the array is
    undefined. *)
Definition store (out : list byte) (i : Z) (v : byte) : M FILE (list byte) :=
  if (0 <=? i) && (i <? Z.of_nat (length out))
  then ret (<[Z.to_nat i := v]> out) else fault.

(** [fread(out, 1, n, f)] delivering into the array [out]. *)
Definition fread_into (out : list byte) (n : Z) : M FILE (list byte * Z) :=
  let* got := fread n in
  if (length got <=? length out)%nat
  then ret (filled got out, Z.of_nat (length got)) else fault.

(** *** Integers of the tag *)

Definition syncsafe (b : list byte) : Z :=
  to_u32 (Z.lor (Z.lor (Z.lor (Z.shiftl (byte_at b 0) 21)
                               (Z.shiftl (byte_at b 1) 14))
                        (Z.shiftl (byte_at b 2) 7))
                 (byte_at b 3)).

Definition syncsafe32 (b : list byte) : Z :=
  to_u32 (Z.lor (Z.lor (Z.lor (Z.shiftl (Z.land (byte_at b 0) 0x7F) 21)
                               (Z.shiftl (Z.land (byte_at b 1) 0x7F) 14))
                        (Z.shiftl (Z.land (byte_at b 2) 0x7F) 7))
                 (Z.land (byte_at b 3) 0x7F)).

(** [(b[0] << 24) | (b[1] << 16) | (b[2] << 8) | b[3]] stored in a
    [uint32_t]: the big-endian value of the four bytes.  (For [b[0]] of
    0x80 and more the shift leaves the range of [int]; the value is the
    one the target's compiler gives, which wraps.) *)
Definition be32 (b : list byte) : Z :=
  to_u32 (Z.lor (Z.lor (Z.lor (Z.shiftl (byte_at b 0) 24)
                               (Z.shiftl (byte_at b 1) 16))
                        (Z.shiftl (byte_at b 2) 8))
                 (byte_at b 3)).

(** The decoding the specification gives for the tag size: the low seven
    bits of each byte, most significant first. *)
Definition syncsafe_spec (b0 b1 b2 b3 : Z) : Z :=
  Z.lor (Z.lor (Z.lor (Z.shiftl (Z.land b0 0x7F) 21)
                      (Z.shiftl (Z.land b1 0x7F) 14))
               (Z.shiftl (Z.land b2 0x7F) 7))
        (Z.land b3 0x7F).

Section Parser.

(** The indeterminate bytes an uninitialised local array holds: position
    [i] of the array [c] declared in round [r] of the UTF-16 loop holds
    [junk r i], and position [i] of [hdr] holds [junk (-1) i]. *)
Variable junk : Z -> nat -> byte.

Definition uninit (r : Z) (n : nat) : list byte :=
  map (junk r) (seq 0 n).

(** *** [read_text] *)

(** The code unit the UTF-16 loop forms from the two bytes in [c]. *)
Definition code_unit (le : bool) (c : list byte) : Z :=
  to_u16 (if le then Z.lor (byte_at c 0) (Z.shiftl (byte_at c 1) 8)
          else Z.lor (byte_at c 1) (Z.shiftl (byte_at c 0) 8)).

(** [(ch < 128) ? ch : '?'] stored in a [char]. *)
Definition lossy (ch : Z) : byte :=
  if ch <? 128 then byte_of ch else question_mark.

(** The [while (size >= 2 && o < max - 1)] loop of the UTF-16 branch.
    Every round that does not leave the loop advances [o], so [fuel]
    rounds are enough when [fuel] exceeds [max]. *)
Fixpoint utf16_loop (fuel : nat) (le : bool) (max : Z)
    (size : Z) (out : list byte) (o : Z) : M FILE (list byte * Z) :=
  if (2 <=? size) && (o <? max - 1) then
    match fuel with
    | O => timeout
    | S fuel' =>
        let* got := fread 2 in
        let c := filled got (uninit o 2) in
        let size := to_u32 (size - 2) in
        let ch := code_unit le c in
        if ch =? 0 then ret (out, o)
        else
          let* out := store out o (lossy ch) in
          utf16_loop fuel' le max size out (o + 1)
    end
  else ret (out, o).

(** [read_text(f, size, out, max)]; the result is the array [out] after
    the call. *)
Definition read_text (size : Z) (out : list byte) (max : Z) : M FILE (list byte) :=
  if max <? 2 then store out 0 x00
  else
    let* encb := fread 1 in
    match encb with
    | [] => store out 0 x00
    | e :: _ =>
        let enc := byte_val e in
        let size := to_u32 (size - 1) in
        if size =? 0 then store out 0 x00
        else if (enc =? 0) || (enc =? 3) then
          let size := if to_u32 max <=? size then to_u32 (max - 1) else size in
          let* (out, read) := fread_into out size in
          store out read x00
        else if (enc =? 1) || (enc =? 2) then
          let* got := fread 2 in
          let bom := filled got [x00; x00] in
          let size := to_u32 (size - 2) in
          let le := negb ((byte_at bom 0 =? 0xFE) && (byte_at bom 1 =? 0xFF)) in
          let* (out, o) := utf16_loop (Z.to_nat max) le max size out 0 in
          store out o x00
        else store out 0 x00
    end.

(** *** [parse_id3] *)

Record mp3_metadata_t := mkMeta {
  title : list byte;
  artist : list byte;
  album : list byte
}.

(** [memset(meta, 0, sizeof( *meta))]. *)
Definition meta_zero : mp3_metadata_t :=
  mkMeta (replicate (Z.to_nat METADATA_TITLE_MAX) x00)
         (replicate (Z.to_nat METADATA_ARTIST_MAX) x00)
         (replicate (Z.to_nat METADATA_ALBUM_MAX) x00).

(** The C string an array holds: the bytes before the first NUL. *)
Fixpoint c_string (buf : list byte) : list byte :=
  match buf with
  | [] => []
  | b :: rest => if Byte.eqb b x00 then [] else b :: c_string rest
  end.

Definition TIT2 : list byte := bytes_of [0x54; 0x49; 0x54; 0x32].
Definition TPE1 : list byte := bytes_of [0x54; 0x50; 0x45; 0x31].
Definition TALB : list byte := bytes_of [0x54; 0x41; 0x4C; 0x42].
Definition ID3 : list byte := bytes_of [0x49; 0x44; 0x33].

(** [!strcmp(id, tag)] for the five-byte array [id] whose first four
    bytes were copied from the frame header and whose last is NUL, and a
    four-character [tag]. *)
Definition id_is (fh tag : list byte) : bool :=
  bool_decide (c_string (take 4 fh ++ [x00]) = tag).

(** The [while (read < tag_size)] loop. *)
Fixpoint frames_loop (fuel : nat) (ver tag_size : Z)
    (meta : mp3_metadata_t) (read : Z) : M FILE mp3_metadata_t :=
  if read <? tag_size then
    match fuel with
    | O => timeout
    | S fuel' =>
        let* fh := fread 10 in
        if negb (length fh =? 10)%nat then ret meta
        else if byte_at fh 0 =? 0 then ret meta
        else
          let sz := if ver =? 4 then syncsafe32 (drop 4 fh) else be32 (drop 4 fh) in
          let read := to_u32 (read + to_u32 (10 + sz)) in
          if sz =? 0 then ret meta
          else if id_is fh TIT2 then
            let* t := read_text sz (title meta) METADATA_TITLE_MAX in
            frames_loop fuel' ver tag_size (mkMeta t (artist meta) (album meta)) read
          else if id_is fh TPE1 then
            let* t := read_text sz (artist meta) METADATA_ARTIST_MAX in
            frames_loop fuel' ver tag_size (mkMeta (title meta) t (album meta)) read
          else if id_is fh TALB then
            let* t := read_text sz (album meta) METADATA_ALBUM_MAX in
            frames_loop fuel' ver tag_size (mkMeta (title meta) (artist meta) t) read
          else
            (* [fseek(f, sz, SEEK_CUR)]: [sz] converts to the 32-bit [long]
               offset, so a size of 2^31 and more seeks backwards *)
            fseek_cur (to_int sz);;
            frames_loop fuel' ver tag_size meta read
    end
  else ret meta.

Definition parse_id3 (fuel : nat) (meta : mp3_metadata_t) : M FILE mp3_metadata_t :=
  let* got := fread 10 in
  let hdr := filled got (uninit (-1) 10) in
  if negb (bool_decide (take 3 hdr = ID3)) then
    rewind;; ret meta
  else
    let ver := byte_at hdr 3 in
    let tag_size := syncsafe (drop 6 hdr) in
    frames_loop fuel ver tag_size meta 0.

(** *** [mp3_read_metadata] *)

(** [mp3_read_metadata(path, meta)] over the files [fopen] can open,
    [fs]: how the call ends, the value returned and the metadata left in
    [meta], and the stream as [fclose] found it (an empty stream when no
    file was opened). *)
Definition mp3_read_metadata (fuel : nat) (fs : gmap string (list byte)) (path : string)
  : res FILE (bool * mp3_metadata_t) :=
  let meta := meta_zero in
  match fs !! path with
  | None => Ret (false, meta) (mkFILE [] 0)
  | Some data =>
      (let* meta := parse_id3 fuel meta in ret (true, meta)) (mkFILE data 0)
  end.

(** *** The text the UTF-16 branch is specified to produce *)

(** The longest prefix whose elements satisfy [p]. *)
Fixpoint take_while {A} (p : A -> bool) (l : list A) : list A :=
  match l with
  | [] => []
  | x :: rest => if p x then x :: take_while p rest else []
  end.

Definition nonzero (ch : Z) : bool := negb (ch =? 0).

(** The next [n] code units of the stream, read two bytes at a time, the
    way round [o], [o + 1], ... of the loop reads them. *)
Fixpoint units (n : nat) (le : bool) (o : Z) (f : FILE) : list Z :=
  match n with
  | O => []
  | S n' =>
      match fread 2 f with
      | Ret got f' => code_unit le (filled got (uninit o 2)) :: units n' le (o + 1) f'
      | _ => []
      end
  end.

(** Lossy decoding of a frame payload that starts at the stream's
    position with the encoding selector: of the code units that follow the
    byte-order mark, at most as many as the frame holds and as fit the
    destination besides its terminator; they end at the first null unit;
    each is kept when below 128 and replaced by ['?'] otherwise. *)
Definition utf16_text (size max : Z) (f : FILE) : list byte :=
  match (fread 1;; fread 2) f with
  | Ret got f2 =>
      let bom := filled got [x00; x00] in
      let le := negb ((byte_at bom 0 =? 0xFE) && (byte_at bom 1 =? 0xFF)) in
      let room := Z.min (to_u32 (to_u32 (size - 1) - 2) / 2) (max - 1) in
      map lossy (take_while nonzero (units (Z.to_nat room) le 0 f2))
  | _ => []
  end.

(** The encoding selector [read_text] finds: the next byte of the stream. *)
Definition selector (f : FILE) : option Z :=
  byte_val <$> (drop (Z.to_nat (pos f)) (contents f)) !! 0%nat.

End Parser.

(** A tag of version 2.3 that announces 20 bytes of frames and holds one
    frame, of an id the parser skips, whose size field is 0xFFFFFFF6. *)
Definition looping_tag : list byte :=
  bytes_of [0x49; 0x44; 0x33; 0x03; 0x00; 0x00; 0x00; 0x00; 0x00; 0x14;
            0x58; 0x58; 0x58; 0x58; 0xFF; 0xFF; 0xFF; 0xF6; 0x00; 0x00].

(** *** Closed instances *)

Definition zero_junk : Z -> nat -> byte := fun _ _ => x00.

(** A UTF-16 title frame payload: selector 1, little-endian mark, the
    units 0x0041, 0x00E9 and 0x0042. *)
Definition utf16_payload : FILE :=
  mkFILE (bytes_of [0x01; 0xFF; 0xFE; 0x41; 0x00; 0xE9; 0x00; 0x42; 0x00]) 0.

End Id3.

(* ===================================================================== *)
(** ** Audio player (audio_player.c, audio_player.h) *)
(* ===================================================================== *)

Module Player.
Import CInt Mon.
Local Open Scope mon_scope.

Definition MAX_SONGS : Z := 1024.
Definition AUDIO_FILE_PATH : string := "/sdcard/audio".

(** *** Types of audio_player.h *)

Record Entry := mkEntry {
  name : string;
  size : Z;
  mode : Z;
  mtime : Z
}.

Inductive FileType :=
| FileTypeNone | FileTypeFolder
| FileTypeMP3 | FileTypeOGG | FileTypeMOD | FileTypeWAV | FileTypeFLAC | FileTypeGME
| FileTypeJPEG | FileTypePNG | FileTypeGIF | FileTypeBMP
| FileTypeNES | FileTypeGB | FileTypeGBC | FileTypeSMS | FileTypeCOL | FileTypeGG.

(** Modelled from the spec: the [AudioCodec] enumeration is declared in
    acodecs.h, which is not among the sources; its tags are the ones
    [choose_codec] returns, which are the codec tags of the specification
    (MP3, OGG, MOD, WAV, FLAC, Unknown) and GME. *)
Inductive AudioCodec :=
| AudioCodecUnknown
| AudioCodecMP3 | AudioCodecOGG | AudioCodecMOD | AudioCodecWAV | AudioCodecFLAC
| AudioCodecGME.

Record AudioPlayerParam := mkParam {
  entries : list Entry;
  n_entries : Z;
  index : Z;
  cwd : string;
  play_all : bool
}.

(** A [char *] into the heap: the block it addresses and the C string the
    block holds. *)
Record cstr := mkCstr { blk : nat; text : string }.

Record Song := mkSong {
  filename : cstr;
  filepath : cstr;
  codec : AudioCodec
}.

Inductive PlayerCmd :=
| PlayerCmdNone | PlayerCmdTerminate | PlayerCmdPause | PlayerCmdNext
| PlayerCmdPrev | PlayerCmdReinitAudio | PlayerCmdToggleLoopMode.

Inductive PlayingMode :=
| PlayingModeNormal | PlayingModeRepeatSong | PlayingModeRepeatPlaylist.

(** [PlayerState].  [playlist] is the pointer (0 is NULL); [songs] are the
    elements of the array it addresses that have been written. *)
Record PlayerState := mkState {
  playing : bool;
  playlist : nat;
  songs : list Song;
  playlist_length : Z;
  playlist_index : Z;
  playing_mode : PlayingMode
}.

Inductive PlayerResult :=
| PlayerResultNone | PlayerResultError
| PlayerResultDone | PlayerResultNextSong | PlayerResultPrevSong | PlayerResultStop.

(** Modelled from the spec: [AudioInfo] is declared in acodecs.h, which is
    not among the sources; the specification gives its fields as sample
    rate, channel count and decode buffer size. *)
Record AudioInfo := mkInfo { sample_rate : Z; channels : Z; buf_size : Z }.

(** *** Codec selection *)

Definition choose_codec (ftype : FileType) : AudioCodec :=
  match ftype with
  | FileTypeMOD => AudioCodecMOD
  | FileTypeMP3 => AudioCodecMP3
  | FileTypeOGG => AudioCodecOGG
  | FileTypeFLAC => AudioCodecFLAC
  | FileTypeWAV => AudioCodecWAV
  | FileTypeGME => AudioCodecGME
  | _ => AudioCodecUnknown
  end.

(** The characters of a C string. *)
Definition chars (s : string) : list ascii := list_ascii_of_string s.

Definition strlen (s : string) : Z := Z.of_nat (length (chars s)).

(** [tolower] in the C locale. *)
Definition tolower (c : ascii) : ascii :=
  let n := nat_of_ascii c in
  if (65 <=? n)%nat && (n <=? 90)%nat then ascii_of_nat (n + 32) else c.

(** [strncasecmp(s1, s2, n) == 0]. *)
Fixpoint strncasecmp (s1 s2 : list ascii) (n : nat) : bool :=
  match n with
  | O => true
  | S n' =>
      match s1, s2 with
      | [], [] => true
      | a :: s1', b :: s2' =>
          if Ascii.eqb (tolower a) (tolower b) then strncasecmp s1' s2' n'
          else false
      | _, _ => false
      end
  end.

(** [matches_extension]; [exts] pairs each extension with its entry of
    [ext_lens]. *)
Fixpoint matches_extension (filename : list ascii) (len : Z)
    (exts : list (string * Z)) : bool :=
  match exts with
  | [] => false
  | (ext, ext_len) :: rest =>
      if (to_u32 ext_len <=? len)
         && strncasecmp (chars ext) (drop (Z.to_nat (len - ext_len)) filename)
                        (Z.to_nat ext_len)
      then true
      else matches_extension filename len rest
  end.

Definition fops_determine_filetype (entry : Entry) : FileType :=
  let filename := chars (name entry) in
  let len := strlen (name entry) in
  if len <? 4 then FileTypeNone
  else if matches_extension filename len [("mp3", 3)] then FileTypeMP3
  else if matches_extension filename len [("ogg", 3)] then FileTypeOGG
  else if matches_extension filename len [("xm", 2); ("mod", 3); ("s3m", 3); ("it", 2)]
       then FileTypeMOD
  else if matches_extension filename len [("wav", 3)] then FileTypeWAV
  else if matches_extension filename len [("flac", 4)] then FileTypeFLAC
  else FileTypeNone.

(** The codec the playlist builder resolves for an entry. *)
Definition entry_codec (entry : Entry) : AudioCodec :=
  choose_codec (fops_determine_filetype entry).

Definition is_unknown (c : AudioCodec) : bool :=
  match c with AudioCodecUnknown => true | _ => false end.

(** The file name ends, case-insensitively, with the characters of [ext]. *)
Definition ends_with_ci (ext filename : string) : Prop :=
  exists stem tail : list ascii,
    chars filename = stem ++ tail /\ map tolower tail = chars ext.

(** The extension of a file name: the characters after its last dot, if
    it has a dot. *)
Fixpoint extension_of (cs : list ascii) : option (list ascii) :=
  match cs with
  | [] => None
  | c :: rest =>
      match extension_of rest with
      | Some e => Some e
      | None => if Ascii.eqb c "."%char then Some rest else None
      end
  end.

(** *** Index resolution *)

Definition is_repeat_song (m : PlayingMode) : bool :=
  match m with PlayingModeRepeatSong => true | _ => false end.

(** [get_next_song_index]; [None] where the [int] arithmetic is
    undefined. *)
Definition get_next_song_index (state : PlayerState) (res : PlayerResult)
    (current_index : Z) : option Z :=
  let len := to_int (playlist_length state) in
  match res with
  | PlayerResultDone =>
      if negb (is_repeat_song (playing_mode state)) then
        s ← c_add current_index 1; c_rem s len
      else Some current_index
  | PlayerResultNextSong =>
      s ← c_add current_index 1; c_rem s len
  | PlayerResultPrevSong =>
      c ← c_add current_index (-1);
      if c <? 0 then c_add len (-1) else Some c
  | PlayerResultError =>
      s ← c_add current_index 1; c_rem s len
  | _ => Some current_index
  end.

(** Successive index resolutions, each under the loop mode in force when
    its song ended. *)
Fixpoint resolve_all (state : PlayerState) (steps : list (PlayingMode * PlayerResult))
    (current_index : Z) : option Z :=
  match steps with
  | [] => Some current_index
  | (m, r) :: rest =>
      let st := mkState (playing state) (playlist state) (songs state)
                        (playlist_length state) current_index m in
      i ← get_next_song_index st r current_index;
      resolve_all state rest i
  end.

(** *** The heap *)

(** What [malloc] and [free] have done: the number of requests made, the
    blocks handed out and not yet freed, and the blocks freed, latest
    first.  Block 0 is the null pointer. *)
Record heap := mkHeap {
  requests : nat;
  live : list nat;
  released : list nat
}.

Definition empty_heap : heap := mkHeap 0 [] [].

Section Platform.

(** Whether the allocator grants its [n]-th request, of [sz] bytes. *)
Variable grant : nat -> Z -> bool.
(** [sizeof(Song)] and [PATH_MAX] of the platform. *)
Variable sizeof_Song : Z.
Variable PATH_MAX : Z.

Definition malloc (sz : Z) : M heap nat :=
  fun h =>
    let p := S (requests h) in
    if grant (requests h) sz
    then Ret p (mkHeap (S (requests h)) (p :: live h) (released h))
    else Ret 0%nat (mkHeap (S (requests h)) (live h) (released h)).

(** [free(p)]: nothing for the null pointer; undefined for a block that is
    not live. *)
Definition free (p : nat) : M heap unit :=
  fun h =>
    if (p =? 0)%nat then Ret tt h
    else if bool_decide (p ∈ live h)
    then Ret tt (mkHeap (requests h) (filter (fun q => q <> p) (live h)) (p :: released h))
    else Fault.

(** [create_song_from_entry]: [None] for NULL, else the block of the
    [Song] and what it holds. *)
Definition create_song_from_entry (entry : Entry) (cwd : string)
  : M heap (option (nat * Song)) :=
  let* song := malloc sizeof_Song in
  if (song =? 0)%nat then ret None
  else
    let codec := entry_codec entry in
    let path := chars cwd ++ chars "/" ++ chars (name entry) in
    let pathbuf := take (Z.to_nat (PATH_MAX - 1)) path in
    let printed := Z.of_nat (length path) in
    let* fname := malloc (to_u32 (strlen (name entry) + 1)) in
    if (fname =? 0)%nat then free song;; ret None
    else
      let* fpath := malloc (to_u32 (printed + 1)) in
      if (fpath =? 0)%nat then free fname;; free song;; ret None
      else
        ret (Some (song, mkSong (mkCstr fname (name entry))
                                (mkCstr fpath (string_of_list_ascii pathbuf))
                                codec)).

(** The first loop of the play-all branch, [k] rounds from entry [i] on:
    the starting song, the number of songs and the indices collected.
    [song_indices] lists the elements of the array written so far, so
    [song_indices[j++] = i] appends at [j].  [None] where an array is
    accessed outside its bounds. *)
Fixpoint scan_entries (k : nat) (params : AudioPlayerParam)
    (i j start_song n_songs : Z) (song_indices : list Z)
  : option (Z * Z * list Z) :=
  match k with
  | O => Some (start_song, n_songs, song_indices)
  | S k' =>
      match entries params !! Z.to_nat i with
      | None => None
      | Some entry =>
          if negb (is_unknown (entry_codec entry)) then
            let start_song := if to_u32 (index params) =? i then j else start_song in
            if j <? MAX_SONGS then
              scan_entries k' params (i + 1) (j + 1) start_song (n_songs + 1)
                           (song_indices ++ [i])
            else None
          else scan_entries k' params (i + 1) j start_song n_songs song_indices
      end
  end.

Definition set_playlist (st : PlayerState) (p : nat) (ss : list Song) : PlayerState :=
  mkState (playing st) p ss (playlist_length st) (playlist_index st) (playing_mode st).

Definition set_length (st : PlayerState) (n : Z) : PlayerState :=
  mkState (playing st) (playlist st) (songs st) n (playlist_index st) (playing_mode st).

Definition set_index (st : PlayerState) (i : Z) : PlayerState :=
  mkState (playing st) (playlist st) (songs st) (playlist_length st) i (playing_mode st).

Definition set_playing (st : PlayerState) (b : bool) : PlayerState :=
  mkState b (playlist st) (songs st) (playlist_length st) (playlist_index st) (playing_mode st).

Definition set_mode (st : PlayerState) (m : PlayingMode) : PlayerState :=
  mkState (playing st) (playlist st) (songs st) (playlist_length st) (playlist_index st) m.

(** The second loop of the play-all branch over the indices collected:
    [false] when a song could not be created. *)
Fixpoint fill_playlist (params : AudioPlayerParam) (indices : list Z)
    (st : PlayerState) : M heap (bool * PlayerState) :=
  match indices with
  | [] => ret (true, st)
  | i :: rest =>
      let* entry := defined (entries params !! Z.to_nat i) in
      let* created := create_song_from_entry entry (cwd params) in
      match created with
      | None => ret (false, st)
      | Some (p, song) =>
          free p;;
          fill_playlist params rest (set_playlist st (playlist st) (songs st ++ [song]))
      end
  end.

(** [make_playlist]: the value returned (0 or -1) and the state it
    leaves. *)
Definition make_playlist (state : PlayerState) (params : AudioPlayerParam)
  : M heap (Z * PlayerState) :=
  if play_all params then
    let* (start_song, n_songs, song_indices) :=
      defined (scan_entries (Z.to_nat (to_u32 (n_entries params))) params 0 0 0 0 []) in
    let* p := malloc (to_u32 (n_songs * sizeof_Song)) in
    let state := set_playlist state p [] in
    if (p =? 0)%nat then ret (-1, state)
    else
      let state := set_length state n_songs in
      let* (ok, state) := fill_playlist params song_indices state in
      if ok then ret (0, set_index state (to_int start_song))
      else ret (-1, state)
  else
    let* entry :=
      defined (if index params <? 0 then None
               else entries params !! Z.to_nat (index params)) in
    if is_unknown (entry_codec entry) then ret (-1, state)
    else
      let* p := malloc (to_u32 (1 * sizeof_Song)) in
      let state := set_playlist state p [] in
      if (p =? 0)%nat then ret (-1, state)
      else
        let* created := create_song_from_entry entry (cwd params) in
        match created with
        | None => free p;; ret (-1, state)
        | Some (sp, song) =>
            free sp;;
            ret (0, set_length (set_playlist state p [song]) 1)
        end.

(** [free_playlist]. *)
Fixpoint free_songs (ss : list Song) : M heap unit :=
  match ss with
  | [] => ret tt
  | s :: rest => free (blk (filepath s));; free (blk (filename s));; free_songs rest
  end.

Definition free_playlist (state : PlayerState) : M heap unit :=
  if playlist_length state <? 1 then ret tt
  else
    (if Z.of_nat (length (songs state)) <? playlist_length state
     then fault else ret tt);;
    free_songs (songs state);;
    free (playlist state).

(** [memset(&player_state, 0, sizeof(PlayerState))]. *)
Definition zero_state : PlayerState :=
  mkState false 0 [] 0 0 PlayingModeNormal.

(** *** The player task *)

(** Calls the task makes into the display, audio, decoder, watchdog and
    scheduler interfaces.  [EvSetMetadata] is a call of
    [ui_player_set_metadata], with the C strings its two arguments
    address. *)
Inductive event :=
| EvSetMetadata (title artist : list byte)
| EvAudioInit (rate : Z)
| EvAudioTerminate
| EvAudioSubmit (n_frames : Z)
| EvDecoderOpen (path : string)
| EvDecoderClose
| EvDecode
| EvCmdAck
| EvWdtReset
| EvWdtDelete
| EvSleep
| EvTaskDelay
| EvTaskDelete.

(** What the task works on: the heap, the global [player_state], the flag
    [player_task_running], what the coming polls of the command queue
    deliver (PlayerCmdNone for an empty queue), what the coming calls of
    the decoder's [decode] return, and the interface calls made so far,
    latest first. *)
Record world := mkWorld {
  the_heap : heap;
  player_state : PlayerState;
  player_task_running : bool;
  polls : list PlayerCmd;
  frames : list Z;
  trace : list event
}.

(** Which codecs [acodec_get_decoder] knows, which files the decoder
    opens, and the stream information it reports. *)
Variable has_decoder : AudioCodec -> bool.
Variable decoder_open : string -> bool.
Variable decoder_info : string -> option AudioInfo.
(** What [fopen] finds on the card, path by path, and the bytes the
    uninitialised arrays of the metadata parser hold ([Id3.uninit]). *)
Variable fs : gmap string (list byte).
Variable junk : Z -> nat -> byte.
(** What [fops_list_dir] finds in [AUDIO_FILE_PATH]: the sorted entries,
    or nothing when it returns -1. *)
Variable listing : option (list Entry).

Definition emit (e : event) : M world unit :=
  modify (fun w => mkWorld (the_heap w) (player_state w) (player_task_running w)
                           (polls w) (frames w) (e :: trace w)).

Definition get_state : M world PlayerState :=
  fun w => Ret (player_state w) w.

Definition put_state (st : PlayerState) : M world unit :=
  modify (fun w => mkWorld (the_heap w) st (player_task_running w)
                           (polls w) (frames w) (trace w)).

Definition set_running (b : bool) : M world unit :=
  modify (fun w => mkWorld (the_heap w) (player_state w) b
                           (polls w) (frames w) (trace w)).

(** Heap operations, run on the heap of the world. *)
Definition on_heap {A} (m : M heap A) : M world A :=
  zoom the_heap
       (fun h w => mkWorld h (player_state w) (player_task_running w)
                           (polls w) (frames w) (trace w))
       m.

(** [player_poll_cmd]: a receive that does not block. *)
Definition player_poll_cmd : M world PlayerCmd :=
  fun w =>
    match polls w with
    | [] => Ret PlayerCmdNone w
    | c :: rest =>
        Ret c (mkWorld (the_heap w) (player_state w) (player_task_running w)
                       rest (frames w) (trace w))
    end.

Definition player_cmd_ack : M world unit := emit EvCmdAck.

(** [decoder->decode]: the frame count; a decoder that has nothing more to
    say reports the end of the stream. *)
Definition decode : M world Z :=
  fun w =>
    match frames w with
    | [] =>
        Ret 0 (mkWorld (the_heap w) (player_state w) (player_task_running w)
                       (polls w) [] (EvDecode :: trace w))
    | n :: rest =>
        Ret n (mkWorld (the_heap w) (player_state w) (player_task_running w)
                       (polls w) rest (EvDecode :: trace w))
    end.

(** [vTaskDelete(NULL)]: FreeRTOS deletes the calling task; the call does
    not return. *)
Definition vTaskDelete_self : M world unit :=
  emit EvTaskDelete;; halt.

Definition player_teardown_task : M world unit :=
  emit EvWdtDelete;;
  vTaskDelete_self;;
  let* st := get_state in
  on_heap (free_playlist st).

Definition next_mode (m : PlayingMode) : PlayingMode :=
  match m with
  | PlayingModeNormal => PlayingModeRepeatSong
  | PlayingModeRepeatSong => PlayingModeRepeatPlaylist
  | PlayingModeRepeatPlaylist => PlayingModeNormal
  end.

Definition handle_cmd (info : AudioInfo) (received_cmd : PlayerCmd)
  : M world PlayerResult :=
  match received_cmd with
  | PlayerCmdNone => ret PlayerResultDone
  | _ =>
      let* res :=
        match received_cmd with
        | PlayerCmdPause =>
            let* st := get_state in
            put_state (set_playing st (negb (playing st)));;
            (if negb (playing st) then emit (EvAudioInit (to_int (sample_rate info)))
             else emit EvAudioTerminate);;
            ret PlayerResultDone
        | PlayerCmdReinitAudio =>
            let* st := get_state in
            (if playing st then emit EvAudioTerminate else ret tt);;
            emit (EvAudioInit (to_int (sample_rate info)));;
            ret PlayerResultDone
        | PlayerCmdToggleLoopMode =>
            let* st := get_state in
            put_state (set_mode st (next_mode (playing_mode st)));;
            ret PlayerResultDone
        | PlayerCmdTerminate => ret PlayerResultStop
        | PlayerCmdNext => ret PlayerResultNextSong
        | PlayerCmdPrev => ret PlayerResultPrevSong
        | PlayerCmdNone => ret PlayerResultDone
        end in
      player_cmd_ack;;
      ret res
  end.

Definition is_done (r : PlayerResult) : bool :=
  match r with PlayerResultDone => true | _ => false end.

Definition is_stop (r : PlayerResult) : bool :=
  match r with PlayerResultStop => true | _ => false end.

(** The [do ... while (n_frames > 0)] loop of [play_song]. *)
Fixpoint decode_loop (fuel : nat) (info : AudioInfo) (n_frames : Z)
  : M world PlayerResult :=
  match fuel with
  | O => timeout
  | S fuel' =>
      emit EvWdtReset;;
      let* cmd := player_poll_cmd in
      let* result := handle_cmd info cmd in
      if negb (is_done result) then ret result
      else
        let* st := get_state in
        let* n_frames :=
          (if playing st then
             let* n := decode in
             emit (EvAudioSubmit n);; ret n
           else emit EvSleep;; ret n_frames) in
        if 0 <? n_frames then decode_loop fuel' info n_frames
        else ret result
  end.

(** A C string as its bytes. *)
Definition c_bytes (s : string) : list byte := String.list_byte_of_string s.

(** [set_metadata].  For an MP3 song [mp3_read_metadata] fills the local
    [meta] (the value it returns is not looked at) and the display is given
    [meta.title] and [meta.artist]; for a song of another codec it is given
    the file name and "Unknown Artist".  The call ends as
    [mp3_read_metadata] does: while the parser runs, [play_song] does not
    go on. *)
Definition set_metadata (fuel : nat) (song : Song) : M world unit :=
  match codec song with
  | AudioCodecMP3 =>
      fun w =>
        match Id3.mp3_read_metadata junk fuel fs (text (filepath song)) with
        | Ret (_, meta) _ =>
            emit (EvSetMetadata (Id3.c_string (Id3.title meta))
                                (Id3.c_string (Id3.artist meta))) w
        | Halt _ => Halt w
        | Fault => Fault
        | Timeout => Timeout
        end
  | _ =>
      emit (EvSetMetadata (c_bytes (text (filename song))) (c_bytes "Unknown Artist"))
  end.

Definition play_song (fuel : nat) (song : Song) : M world PlayerResult :=
  set_metadata fuel song;;
  if negb (has_decoder (codec song)) then ret PlayerResultError
  else
    emit (EvDecoderOpen (text (filepath song)));;
    if negb (decoder_open (text (filepath song))) then ret PlayerResultError
    else
      match decoder_info (text (filepath song)) with
      | None => emit EvDecoderClose;; ret PlayerResultError
      | Some info =>
          emit (EvAudioInit (to_int (sample_rate info)));;
          let* st := get_state in
          put_state (set_playing st true);;
          let* result := decode_loop fuel info 0 in
          emit EvDecoderClose;;
          let* st := get_state in
          (if playing st then emit EvAudioTerminate else ret tt);;
          ret result
      end.

(** The [for (;;)] loop of [player_task]. *)
Fixpoint song_loop (fuel : nat) : M world unit :=
  match fuel with
  | O => timeout
  | S fuel' =>
      let* st := get_state in
      let song_index := playlist_index st in
      let* song :=
        defined (if (0 <=? song_index) && (song_index <? playlist_length st)
                 then songs st !! Z.to_nat song_index else None) in
      let* res := play_song fuel song in
      if is_stop res then ret tt
      else
        let* st := get_state in
        let* i := defined (get_next_song_index st res song_index) in
        put_state (set_index st i);;
        emit EvTaskDelay;;
        song_loop fuel'
  end.

Definition player_task (fuel : nat) : M world unit :=
  set_running true;;
  put_state zero_state;;
  match listing with
  | None => ret tt
  | Some new_entries =>
      let params := mkParam new_entries (Z.of_nat (length new_entries)) 0
                            AUDIO_FILE_PATH true in
      let* st := get_state in
      let* (rc, st) := on_heap (make_playlist st params) in
      put_state st;;
      if negb (rc =? 0) then ret tt
      else
        let* audio_buf := on_heap (malloc (16384 * 2)) in
        if (audio_buf =? 0)%nat then ret tt
        else
          song_loop fuel;;
          on_heap (free audio_buf);;
          set_running false;;
          player_teardown_task
  end.

(** The world a freshly created task starts in. *)
Definition initial_world (cmds : list PlayerCmd) (decoded : list Z) : world :=
  mkWorld empty_heap zero_state false cmds decoded [].

End Platform.

(** *** Auxiliary definitions and sample inputs *)

(** The test [matches_extension] makes for one extension. *)
Definition ends_ci (ext : string) (filename : string) : bool :=
  (to_u32 (strlen ext) <=? strlen filename)
  && strncasecmp (chars ext)
       (drop (Z.to_nat (strlen filename - strlen ext)) (chars filename))
       (Z.to_nat (strlen ext)).

(** An extension of the tables of [fops_determine_filetype]: short and in
    lower case. *)
Definition table_ext (ext : string) : Prop :=
  strlen ext < 2 ^ 32 /\ map tolower (chars ext) = chars ext.

(** The state of the scenario of the specification: three songs, index 1. *)
Definition three_songs (m : PlayingMode) : PlayerState :=
  mkState true 1 [] 3 1 m.

(** *** Closed instances *)

(** An allocator that grants every request, and the sizes of the ESP32
    build. *)
Definition grant_all : nat -> Z -> bool := fun _ _ => true.
Definition sizeof_Song_esp32 : Z := 12.
Definition PATH_MAX_esp32 : Z := 1024.

Definition three_entries : list Entry :=
  [mkEntry "1.mp3" 0 0 0; mkEntry "cover.jpg" 0 0 0; mkEntry "2.ogg" 0 0 0].


(** The parameters [player_task] builds for a listing. *)
Definition task_params (listing : list Entry) : AudioPlayerParam :=
  mkParam listing (Z.of_nat (length listing)) 0 AUDIO_FILE_PATH true.

(** The decimal digit [d]. *)
Definition digit (d : nat) : ascii := ascii_of_nat (48 + d mod 10).

(** The MP3 file number [n] of a directory: "0000.mp3", "0001.mp3", ... *)
Definition numbered (n : nat) : Entry :=
  mkEntry (String (digit (n / 1000)) (String (digit (n / 100))
            (String (digit (n / 10)) (String (digit n) ".mp3"))))
          0 0 0.

(** A directory of [n] MP3 files, as [fops_list_dir] sorts them. *)
Definition numbered_files (n : nat) : list Entry := map numbered (seq 0 n).

Definition built_state : PlayerState :=
  match make_playlist grant_all sizeof_Song_esp32 PATH_MAX_esp32 zero_state
                      (mkParam three_entries 3 2 AUDIO_FILE_PATH true) empty_heap with
  | Ret (_, st) _ => st
  | _ => zero_state
  end.

Definition decoder_any : AudioCodec -> bool := fun _ => true.
Definition open_any : string -> bool := fun _ => true.
Definition info_cd : string -> option AudioInfo :=
  fun _ => Some (mkInfo 44100 2 1024).

(** A card whose "1.mp3" holds MPEG audio frames from its first byte on,
    and no ID3 tag. *)
Definition card : gmap string (list byte) :=
  {[ "/sdcard/audio/1.mp3"%string := Id3.bytes_of [0xFF; 0xFB; 0x90; 0x00] ]}.

(** The world [player_task] ends in on a directory holding "1.mp3", when
    the second poll of the command queue delivers Terminate. *)
Definition terminated_world : world :=
  match player_task grant_all sizeof_Song_esp32 PATH_MAX_esp32
                    decoder_any open_any info_cd card Id3.zero_junk
                    (Some [mkEntry "1.mp3" 0 0 0]) 8
                    (initial_world [PlayerCmdNone; PlayerCmdTerminate] [512; 512; 512]) with
  | Halt w => w
  | _ => initial_world [] []
  end.

End Player.

(* ===================================================================== *)
(** ** Keypad sampling and the LVGL read callback (keypad.c, main.c) *)
(* ===================================================================== *)

Module KeypadInput.
Import CInt Keypad.

(** The button masks of keypad.h. *)
Definition KEYPAD_START : Z := 1.
Definition KEYPAD_SELECT : Z := 2.
Definition KEYPAD_UP : Z := 4.
Definition KEYPAD_DOWN : Z := 8.
Definition KEYPAD_LEFT : Z := 16.
Definition KEYPAD_RIGHT : Z := 32.
Definition KEYPAD_A : Z := 64.
Definition KEYPAD_B : Z := 128.
Definition KEYPAD_MENU : Z := 256.
Definition KEYPAD_L : Z := 512.
Definition KEYPAD_R : Z := 1024.

(** What a poll of the hardware finds: the byte [i2c_master_receive]
    stored, [None] when it did not return ESP_OK, and the levels
    [gpio_get_level] reports for the three GPIO buttons. *)
Record lines := mkLines {
  received : option byte;
  level_menu : Z;
  level_l : Z;
  level_r : Z
}.

(** [i2c_keypad_read]: the byte received, 0xFF when the transfer failed. *)
Definition i2c_keypad_read (received : option byte) : Z :=
  match received with
  | Some data => Id3.byte_val data
  | None => 0xFF
  end.

(** [if (cond) sample |= mask;] on the [uint16_t sample]. *)
Definition or_if (cond : bool) (mask sample : Z) : Z :=
  if cond then to_u16 (Z.lor sample mask) else sample.

(** [!(i2c_data & (1 << n))]. *)
Definition low (i2c_data n : Z) : bool :=
  Z.land i2c_data (Z.shiftl 1 n) =? 0.

Definition keypad_sample (io : lines) : Z :=
  let sample := 0 in
  let i2c_data := i2c_keypad_read (received io) in
  let sample := or_if (low i2c_data 0) KEYPAD_START sample in
  let sample := or_if (low i2c_data 1) KEYPAD_SELECT sample in
  let sample := or_if (low i2c_data 2) KEYPAD_UP sample in
  let sample := or_if (low i2c_data 3) KEYPAD_DOWN sample in
  let sample := or_if (low i2c_data 4) KEYPAD_LEFT sample in
  let sample := or_if (low i2c_data 5) KEYPAD_RIGHT sample in
  let sample := or_if (low i2c_data 6) KEYPAD_A sample in
  let sample := or_if (low i2c_data 7) KEYPAD_B sample in
  let sample := or_if (level_menu io =? 0) KEYPAD_MENU sample in
  let sample := or_if (level_l io =? 0) KEYPAD_L sample in
  let sample := or_if (level_r io =? 0) KEYPAD_R sample in
  sample.

Inductive lv_indev_state_t := LV_INDEV_STATE_RELEASED | LV_INDEV_STATE_PRESSED.

Inductive lv_key_t :=
| LV_KEY_UP | LV_KEY_DOWN | LV_KEY_LEFT | LV_KEY_RIGHT | LV_KEY_ESC | LV_KEY_ENTER.

(** The function [lv_keypad_read] calls besides filling [data]. *)
Inductive action := no_action | app_shutdown | ui_decrease_volume | ui_increase_volume.

(** What [lv_keypad_read] leaves: [data->state], the key it stored in
    [data->key] ([None] when it did not touch the field) and the function
    it called. *)
Record report := mkReport {
  data_state : lv_indev_state_t;
  data_key : option lv_key_t;
  called : action
}.

Definition pressed (key : lv_key_t) : report :=
  mkReport LV_INDEV_STATE_PRESSED (Some key) no_action.

Definition released (a : action) : report :=
  mkReport LV_INDEV_STATE_RELEASED None a.

(** The chain of comparisons of [lv_keypad_read] on the debounced state. *)
Definition dispatch (gamepad_state : Z) : report :=
  if gamepad_state =? KEYPAD_UP then pressed LV_KEY_UP
  else if gamepad_state =? KEYPAD_DOWN then pressed LV_KEY_DOWN
  else if gamepad_state =? KEYPAD_LEFT then pressed LV_KEY_LEFT
  else if gamepad_state =? KEYPAD_RIGHT then pressed LV_KEY_RIGHT
  else if gamepad_state =? KEYPAD_B then pressed LV_KEY_ESC
  else if gamepad_state =? KEYPAD_A then pressed LV_KEY_ENTER
  else if gamepad_state =? KEYPAD_MENU then released app_shutdown
  else if gamepad_state =? KEYPAD_L then released ui_decrease_volume
  else if gamepad_state =? KEYPAD_R then released ui_increase_volume
  else released no_action.

(** [lv_keypad_read]: the statics of the filter after the call, the value
    stored in [app_ctx.keypad_changes] and the report. *)
Definition lv_keypad_read (k : filter) (io : lines) : filter * Z * report :=
  let '(k', changes) := keypad_debounce k (keypad_sample io) in
  (k', changes, dispatch (state k')).

(** Successive calls of [lv_keypad_read], one per poll. *)
Fixpoint lv_polls (k : filter) (ios : list lines) : list report :=
  match ios with
  | [] => []
  | io :: rest =>
      let '(k', _, r) := lv_keypad_read k io in
      r :: lv_polls k' rest
  end.

(** The buttons wired to GPIO lines that are held: a line reads 0 while
    its button is down. *)
Definition gpio_buttons (io : lines) : Z :=
  (if level_menu io =? 0 then KEYPAD_MENU else 0)
  + (if level_l io =? 0 then KEYPAD_L else 0)
  + (if level_r io =? 0 then KEYPAD_R else 0).

(** Every value of a [uint8_t]. *)
Definition all_bytes : list byte :=
  map (fun n => Id3.byte_of (Z.of_nat n)) (seq 0 256).

(** UP and DOWN held together, everything else idle. *)
Definition up_and_down : lines := mkLines (Some xf3) 1 1 1.

End KeypadInput.

(* ===================================================================== *)
(** ** Volume control (audio.c, ui_player.c) *)
(* ===================================================================== *)

Module Audio.
Import CInt.

Definition AUDIO_VOLUME_DEFAULT : Z := 20.

(** The two statics of audio.c that hold the volume.  [audio_volume_f] is
    a [float]; the only value it is ever assigned is [(float)v / 100.0f]
    for an [int] [v], and its initialiser 0.2f is that value for [v] = 20:
    the model keeps the [v] it was computed from. *)
Record statics := mkStatics { audio_volume : Z; audio_volume_f : Z }.

Definition initial : statics := mkStatics AUDIO_VOLUME_DEFAULT 20.

(** [audio_volume_set]: the statics it leaves and the value returned.  The
    two stores are made between [xSemaphoreTake] and [xSemaphoreGive] on
    [volume_mutex]. *)
Definition audio_volume_set (volume_percent : Z) (a : statics) : statics * Z :=
  let volume_percent :=
    if 100 <? volume_percent then 100
    else if volume_percent <? 0 then 0
    else volume_percent in
  let a := mkStatics volume_percent volume_percent in
  (a, audio_volume a).

Definition audio_volume_get (a : statics) : Z := audio_volume a.

(** What the volume widgets of ui_player.c were last given: the number
    printed on the label [vol_value] and the value handed to the slider
    [vol]. *)
Record widgets := mkWidgets { vol_value : Z; vol : Z }.

(** [ui_increase_volume] and [ui_decrease_volume]; [None] where the [int]
    arithmetic is undefined. *)
Definition ui_increase_volume (a : statics) : option (statics * widgets) :=
  volume ← c_add (audio_volume_get a) 1;
  Some (fst (audio_volume_set volume a), mkWidgets volume volume).

Definition ui_decrease_volume (a : statics) : option (statics * widgets) :=
  volume ← c_add (audio_volume_get a) (-1);
  Some (fst (audio_volume_set volume a), mkWidgets volume volume).

(** The LV_EVENT_VALUE_CHANGED branch of [event_cb], for a slider that
    reports [value]: the slider itself is not written. *)
Definition slider_changed (value : Z) (a : statics) (w : widgets) : statics * widgets :=
  (fst (audio_volume_set value a), mkWidgets value (vol w)).

(** The calls that change the volume. *)
Inductive volume_call :=
| IncreaseVolume
| DecreaseVolume
| SliderChanged (value : Z)
| VolumeSet (volume_percent : Z).

Definition volume_step (c : volume_call) (s : statics * widgets)
  : option (statics * widgets) :=
  match c with
  | IncreaseVolume => ui_increase_volume (fst s)
  | DecreaseVolume => ui_decrease_volume (fst s)
  | SliderChanged value => Some (slider_changed value (fst s) (snd s))
  | VolumeSet v => Some (fst (audio_volume_set v (fst s)), snd s)
  end.

Fixpoint volume_run (calls : list volume_call) (s : statics * widgets)
  : option (statics * widgets) :=
  match calls with
  | [] => Some s
  | c :: rest => s' ← volume_step c s; volume_run rest s'
  end.

(** The statics at start-up and the widgets as [ui_player_create] leaves
    them. *)
Definition at_start : statics * widgets :=
  (initial, mkWidgets (audio_volume_get initial) AUDIO_VOLUME_DEFAULT).

End Audio.

(* ===================================================================== *)
(** ** Loading the path table (sdcard.c, playlist.c) *)
(* ===================================================================== *)

Module Loading.
Import CInt Playlist.

(** A [struct dirent] as [list_files_on_sdcard] reads it: whether
    [d_type] is DT_DIR, and [d_name]. *)
Record dirent := mkDirent { d_is_dir : bool; d_name : string }.

(** [strcasecmp]: zero when the strings are equal up to the case of
    letters, else the difference of the first two characters that differ
    once lowered. *)
Fixpoint strcasecmp (s1 s2 : list ascii) : Z :=
  match s1, s2 with
  | [], [] => 0
  | [], b :: _ => - Z.of_nat (nat_of_ascii (Player.tolower b))
  | a :: _, [] => Z.of_nat (nat_of_ascii (Player.tolower a))
  | a :: s1', b :: s2' =>
      let d := Z.of_nat (nat_of_ascii (Player.tolower a))
               - Z.of_nat (nat_of_ascii (Player.tolower b)) in
      if d =? 0 then strcasecmp s1' s2' else d
  end.

(** [strlen(d_name) > 4 && strcasecmp(d_name + strlen(d_name) - 4, ".mp3") == 0]. *)
Definition has_mp3_suffix (d_name : string) : bool :=
  (4 <? Player.strlen d_name)
  && (strcasecmp (drop (Z.to_nat (Player.strlen d_name - 4)) (Player.chars d_name))
                 (Player.chars ".mp3") =? 0).

(** The string [strcpy] and the two [strcat] build in [entry_path]. *)
Definition entry_path (dir_path : string) (entry : dirent) : string :=
  (dir_path ++ "/" ++ d_name entry)%string.

(** The [while ((entry = readdir(dir)) != NULL && index < max_list)] loop
    over the entries [readdir] still has to deliver.  [table] is the array
    [list] of rows, each read as the C string it holds.  [None]: a copy runs
    past the 256 bytes of [entry_path] or of a row, or a row outside the
    table is written. *)
Fixpoint readdir_loop (dir_path : string) (max_list : Z) (pending : list dirent)
    (table : list string) (index : Z) : option (list string * Z) :=
  match pending with
  | [] => Some (table, index)
  | entry :: rest =>
      if index <? max_list then
        if d_is_dir entry then readdir_loop dir_path max_list rest table index
        else if has_mp3_suffix (d_name entry) then
          let dir_len := to_u32 (Player.strlen dir_path) in
          let name_len := to_u32 (Player.strlen (d_name entry)) in
          if (to_u32 (dir_len + 1 + name_len + 1) <=? MAX_FILENAME_LENGTH)
             && (index <? max_list) then
            if (Player.strlen (entry_path dir_path entry) + 1 <=? MAX_FILENAME_LENGTH)
               && (0 <=? index) && (index <? Z.of_nat (length table)) then
              next ← c_add index 1;
              readdir_loop dir_path max_list rest
                           (<[Z.to_nat index := entry_path dir_path entry]> table) next
            else None
          else readdir_loop dir_path max_list rest table index
        else readdir_loop dir_path max_list rest table index
      else Some (table, index)
  end.

(** [list_files_on_sdcard]: the table it leaves and the count returned.
    [dir] is what [opendir] finds: [None] when the directory does not
    open, else the entries [readdir] delivers, in order. *)
Definition list_files_on_sdcard (dir_path : string) (dir : option (list dirent))
    (table : list string) (max_list : Z) : option (list string * Z) :=
  match dir with
  | None => Some (table, 0)
  | Some entries => readdir_loop dir_path max_list entries table 0
  end.

(** [playlist_init]: every byte of the manager is zero. *)
Definition playlist_init : playlist_manager_t :=
  mkManager (replicate (Z.to_nat MAX_PLAYLISTS) ""%string) 0 0.

(** [playlist_load_from_directory]: the manager it leaves and the value
    returned. *)
Definition playlist_load_from_directory (pl : playlist_manager_t)
    (dir_path : string) (dir : option (list dirent))
  : option (playlist_manager_t * bool) :=
  r ← list_files_on_sdcard dir_path dir (playlists pl) MAX_PLAYLISTS;
  let pl := mkManager (fst r) (snd r) (current_index pl) in
  let pl := set_index pl 0 in
  Some (pl, 0 <? num_playlists pl).

Definition playlist_get_count (pl : playlist_manager_t) : Z := num_playlists pl.
Definition playlist_get_current_index (pl : playlist_manager_t) : Z := current_index pl.

(** The entries the listing keeps: files whose name ends in ".mp3" and
    whose path fits a row together with its terminator. *)
Definition kept (dir_path : string) (entry : dirent) : bool :=
  negb (d_is_dir entry) && has_mp3_suffix (d_name entry)
  && (Player.strlen dir_path + 1 + Player.strlen (d_name entry) + 1
      <=? MAX_FILENAME_LENGTH).

(** The paths of the first [max_list] entries kept. *)
Definition listed (dir_path : string) (entries : list dirent) (max_list : Z)
  : list string :=
  map (entry_path dir_path)
      (take (Z.to_nat max_list) (List.filter (kept dir_path) entries)).

(** The strings lie in a 32-bit address space. *)
Definition addressable (dir_path : string) (entries : list dirent) : Prop :=
  Forall (fun e => Player.strlen dir_path + Player.strlen (d_name e) + 2 < 2 ^ 32)
         entries.

Definition sample_dir : list dirent :=
  [mkDirent true "covers"; mkDirent false "a.MP3"; mkDirent false "notes.txt";
   mkDirent false ".mp3"; mkDirent false "b.mp3"].

End Loading.

(* ===================================================================== *)
(** ** Well-formed ID3v2 tags, as inputs of the parser *)
(* ===================================================================== *)

Module Id3Tag.
Import CInt Id3.

(** The syncsafe form of a size below 2^28, as the ID3v2 format writes
    it: four bytes of seven bits each, most significant first. *)
Definition syncsafe_bytes (n : Z) : list byte :=
  bytes_of [n / 2 ^ 21 mod 128; n / 2 ^ 14 mod 128; n / 2 ^ 7 mod 128; n mod 128].

(** The three text fields the parser knows. *)
Inductive field := Title | Artist | Album.

Definition frame_id (fd : field) : list byte :=
  match fd with Title => TIT2 | Artist => TPE1 | Album => TALB end.

(** The header of a text frame: the frame id, the four size bytes (the
    selector and the text; below 128, so the same bytes in ID3v2.3 and in
    ID3v2.4) and two flag bytes. *)
Definition frame_header (fd : field) (text : list byte) : list byte :=
  frame_id fd ++ bytes_of [0; 0; 0; Z.of_nat (length text) + 1] ++ [x00; x00].

(** A text frame in ISO-8859-1: the header, the encoding selector 0 and
    the text. *)
Definition text_frame (fd : field) (text : list byte) : list byte :=
  frame_header fd text ++ [x00] ++ text.

Definition frames_bytes (frames : list (field * list byte)) : list byte :=
  concat (map (fun fr => text_frame (fst fr) (snd fr)) frames).

(** A tag: the signature, the version byte, a revision and a flag byte,
    the syncsafe size of what follows, the frames and the padding. *)
Definition tag (ver : Z) (frames : list (field * list byte)) (padding : nat)
  : list byte :=
  ID3 ++ bytes_of [ver; 0; 0]
  ++ syncsafe_bytes (Z.of_nat (length (frames_bytes frames)) + Z.of_nat padding)
  ++ frames_bytes frames ++ replicate padding x00.

(** What a stream still has to deliver. *)
Definition remaining (f : FILE) : list byte :=
  drop (Z.to_nat (pos f)) (contents f).

(** A text the 64-byte fields hold in full. *)
Definition text_ok (text : list byte) : Prop :=
  (length text <= 63)%nat /\ Forall (fun b => b <> x00) text.

(** The texts a sequence of frames leaves: for each field the text of the
    last frame for it, and the empty text when there is none. *)
Record texts := mkTexts {
  title_text : list byte;
  artist_text : list byte;
  album_text : list byte
}.

Definition put (fd : field) (text : list byte) (ts : texts) : texts :=
  match fd with
  | Title => mkTexts text (artist_text ts) (album_text ts)
  | Artist => mkTexts (title_text ts) text (album_text ts)
  | Album => mkTexts (title_text ts) (artist_text ts) text
  end.

Definition texts_of (frames : list (field * list byte)) : texts :=
  fold_left (fun ts fr => put (fst fr) (snd fr) ts) frames (mkTexts [] [] []).

(** The texts the fields of a metadata record hold as C strings. *)
Definition texts_in (meta : mp3_metadata_t) : texts :=
  mkTexts (c_string (title meta)) (c_string (artist meta)) (c_string (album meta)).

Definition get_field (fd : field) (meta : mp3_metadata_t) : list byte :=
  match fd with Title => title meta | Artist => artist meta | Album => album meta end.

Definition set_field (fd : field) (v : list byte) (meta : mp3_metadata_t)
  : mp3_metadata_t :=
  match fd with
  | Title => mkMeta v (artist meta) (album meta)
  | Artist => mkMeta (title meta) v (album meta)
  | Album => mkMeta (title meta) (artist meta) v
  end.

(** Every field has the 64 bytes of its array. *)
Definition fields_sized (meta : mp3_metadata_t) : Prop :=
  forall fd, length (get_field fd meta) = 64%nat.

(** Every field holds a NUL: it is a terminated C string. *)
Definition fields_terminated (meta : mp3_metadata_t) : Prop :=
  forall fd, x00 ∈ get_field fd meta.

(** A tag of version 2.3 with a title and an artist frame and twelve
    bytes of padding, and a file system that holds it. *)
Definition sample_frames : list (field * list byte) :=
  [(Title, bytes_of [0x48; 0x69]); (Artist, bytes_of [0x4D; 0x65])].

Definition sample_fs : gmap string (list byte) :=
  {[ "/sdcard/audio/hi.mp3"%string := tag 3 sample_frames 12 ]}.

End Id3Tag.

(* ===================================================================== *)
(** ** Who owns which block of the heap (audio_player.c) *)
(* ===================================================================== *)

Module Ownership.
Import CInt Mon Player.
Local Open Scope mon_scope.

(** A heap as [malloc] and [free] keep it: no block is live twice, and
    every live block is one that was handed out. *)
Definition heap_ok (h : heap) : Prop :=
  NoDup (live h) /\ Forall (fun p => (0 < p <= requests h)%nat) (live h).

(** The two strings a song owns, in the order [free_playlist] releases
    them. *)
Definition owned (s : Song) : list nat := [blk (filepath s); blk (filename s)].

(** The path [snprintf] leaves in [pathbuf]: "cwd/name", cut to the
    [PATH_MAX - 1] characters the buffer has room for. *)
Definition song_path (PATH_MAX : Z) (cwd : string) (entry : Entry) : string :=
  string_of_list_ascii
    (take (Z.to_nat (PATH_MAX - 1)) (chars cwd ++ chars "/" ++ chars (name entry))).

(** The song made from an entry, whatever blocks hold its strings. *)
Definition song_of (PATH_MAX : Z) (cwd : string) (entry : Entry) (s : Song) : Prop :=
  text (filename s) = name entry /\
  text (filepath s) = song_path PATH_MAX cwd entry /\
  codec s = entry_codec entry.

(** An entry the playlist takes: its name resolves to a codec. *)
Definition playable (entry : Entry) : bool := negb (is_unknown (entry_codec entry)).

(** The positions, counted from [i], of the playable entries of a list. *)
Fixpoint playable_indices (i : Z) (es : list Entry) : list Z :=
  match es with
  | [] => []
  | e :: rest =>
      if playable e then i :: playable_indices (i + 1) rest
      else playable_indices (i + 1) rest
  end.

End Ownership.

(* ===================================================================== *)
(** ** What a run of the player task shows (audio_player.c) *)
(* ===================================================================== *)

Module Task.
Import CInt Mon Player.
Local Open Scope mon_scope.

(** The result [handle_cmd] gives for a command. *)
Definition result_of (cmd : PlayerCmd) : PlayerResult :=
  match cmd with
  | PlayerCmdTerminate => PlayerResultStop
  | PlayerCmdNext => PlayerResultNextSong
  | PlayerCmdPrev => PlayerResultPrevSong
  | _ => PlayerResultDone
  end.

Definition is_ack (e : event) : bool :=
  match e with EvCmdAck => true | _ => false end.

(** The acknowledgements sent in a trace. *)
Definition acks (tr : list event) : nat := length (List.filter is_ack tr).

Definition is_command (cmd : PlayerCmd) : bool :=
  match cmd with PlayerCmdNone => false | _ => true end.

(** The commands among what a sequence of polls delivered. *)
Definition commands (cmds : list PlayerCmd) : nat :=
  length (List.filter is_command cmds).

Definition is_reinit (cmd : PlayerCmd) : bool :=
  match cmd with PlayerCmdReinitAudio => true | _ => false end.

(** A command that ends the song being played. *)
Definition ends_song (cmd : PlayerCmd) : bool :=
  match cmd with
  | PlayerCmdTerminate | PlayerCmdNext | PlayerCmdPrev => true
  | _ => false
  end.

(** Whether the audio output is initialised after the calls of a trace
    (latest first) made on an output that was not: [None] when
    [audio_init] is called on an initialised output, or [audio_terminate]
    on one that is not. *)
Fixpoint audio_after (tr : list event) : option bool :=
  match tr with
  | [] => Some false
  | e :: older =>
      on ← audio_after older;
      match e with
      | EvAudioInit _ => if on : bool then None else Some true
      | EvAudioTerminate => if on : bool then Some false else None
      | _ => Some on
      end
  end.

(** The rounds of a paused decode loop: a watchdog reset and a sleep
    each, latest first. *)
Fixpoint idle_rounds (k : nat) (tr : list event) : list event :=
  match k with
  | O => tr
  | S k' => idle_rounds k' (EvSleep :: EvWdtReset :: tr)
  end.

(** A song [play_song] gives up on before its decode loop: its codec has
    no decoder, its file does not open, or its stream information cannot
    be read. *)
Definition unplayable (has_decoder : AudioCodec -> bool)
    (decoder_open : string -> bool) (decoder_info : string -> option AudioInfo)
    (s : Song) : Prop :=
  has_decoder (codec s) = false \/
  decoder_open (text (filepath s)) = false \/
  decoder_info (text (filepath s)) = None.

(** A decoder table that knows no codec, and a built playlist of one
    song. *)
Definition no_decoder : AudioCodec -> bool := fun _ => false.

Definition one_song_world (cmds : list PlayerCmd) : world :=
  mkWorld empty_heap
          (mkState false 1
                   [mkSong (mkCstr 2 "1.mp3") (mkCstr 3 "/sdcard/audio/1.mp3")
                           AudioCodecMP3]
                   1 0 PlayingModeNormal)
          true cmds [] [].

(** A world in which a song is being played, as [play_song] enters its
    decode loop. *)
Definition playing_world (cmds : list PlayerCmd) (decoded : list Z) : world :=
  mkWorld empty_heap (mkState true 1 [] 1 0 PlayingModeNormal) true cmds decoded [].

End Task.

(* ===================================================================== *)
(** ** The texts put on the display (ui_player.c, audio_player.c) *)
(* ===================================================================== *)

Module Ui.
Import Mon Id3 Player.

(** A C string as its bytes. *)
Definition bytes (s : string) : list byte := String.list_byte_of_string s.

(** [(s && *s) ? s : fallback] for a [const char *] that addresses the
    string [s], [None] for NULL. *)
Definition or_else (s : option (list byte)) (fallback : string) : list byte :=
  match s with
  | Some (c :: rest) => c :: rest
  | _ => bytes fallback
  end.

(** [ui_player_set_metadata]: the texts it gives [label_title] and
    [label_artist].  The two calls are made with [lvgl_mutex] taken. *)
Definition ui_player_set_metadata (title artist : option (list byte))
  : list byte * list byte :=
  (or_else title "Unknown Title", or_else artist "Unknown Artist").

(** [set_metadata] of audio_player.c as a function of the files, with
    what the labels show after its call of [ui_player_set_metadata]
    ([Player.set_metadata] is the call as the task makes it): for an MP3 song
    the title and artist [mp3_read_metadata] leaves in [meta] (the value
    it returns is not looked at), for any other song the file name and
    "Unknown Artist".  The run ends as the call of [mp3_read_metadata]
    does, with the stream that call leaves; for a song of another codec no
    file is opened and the state is the empty stream. *)
Definition set_metadata (junk : Z -> nat -> byte) (fuel : nat)
    (fs : gmap string (list byte)) (song : Song)
  : res FILE (list byte * list byte) :=
  match codec song with
  | AudioCodecMP3 =>
      match mp3_read_metadata junk fuel fs (text (filepath song)) with
      | Ret (_, meta) f =>
          Ret (ui_player_set_metadata (Some (c_string (title meta)))
                                      (Some (c_string (artist meta)))) f
      | Halt f => Halt f
      | Fault => Fault
      | Timeout => Timeout
      end
  | _ =>
      Ret (ui_player_set_metadata (Some (bytes (text (filename song))))
                                  (Some (bytes "Unknown Artist")))
          (mkFILE [] 0)
  end.



End Ui.

(* ===================================================================== *)
(** ** Facts about the C integers *)
(* ===================================================================== *)

Module CIntFacts.
Import CInt.

Lemma to_int_id z : INT_MIN <= z <= INT_MAX -> to_int z = z.
Proof.
  unfold to_int, INT_MIN, INT_MAX. intros H.
  rewrite Z.mod_small; lia.
Qed.

Lemma to_int_range z : INT_MIN <= to_int z <= INT_MAX.
Proof.
  unfold to_int, INT_MIN, INT_MAX.
  pose proof (Z.mod_pos_bound (z + 2 ^ 31) (2 ^ 32) ltac:(lia)). lia.
Qed.

Lemma to_u32_id z : 0 <= z < 2 ^ 32 -> to_u32 z = z.
Proof. intros H. unfold to_u32. apply Z.mod_small. exact H. Qed.

Lemma to_u32_range z : 0 <= to_u32 z < 2 ^ 32.
Proof. unfold to_u32. apply Z.mod_pos_bound. lia. Qed.

Lemma c_rem_nonneg a b :
  0 <= a -> 0 < b -> c_rem a b = Some (a mod b).
Proof.
  intros Ha Hb. unfold c_rem.
  destruct (Z.eqb_spec b 0) as [->|_]; [lia|].
  destruct (Z.eqb_spec b (-1)) as [->|_]; [lia|].
  rewrite andb_false_r. f_equal. apply Z.rem_mod_nonneg; lia.
Qed.

Lemma c_add_in_range a b :
  INT_MIN <= a + b <= INT_MAX -> c_add a b = Some (a + b).
Proof.
  intros H. unfold c_add. cbv zeta.
  destruct (Z.leb_spec INT_MIN (a + b)); [|lia].
  destruct (Z.leb_spec (a + b) INT_MAX); [|lia]. reflexivity.
Qed.

Lemma to_u16_testbit z b :
  0 <= b < 16 -> Z.testbit (to_u16 z) b = Z.testbit z b.
Proof. intros H. unfold to_u16. apply Z.mod_pow2_bits_low. lia. Qed.

End CIntFacts.

(* ===================================================================== *)
(** ** The debounce filter, bit by bit *)
(* ===================================================================== *)

Module KeypadFacts.
Import CInt CIntFacts Keypad.

Lemma keypad_debounce_bit k sample b :
  0 <= b < 16 ->
  let k' := fst (keypad_debounce k sample) in
  let m := snd (keypad_debounce k sample) in
  (Z.testbit (state k') b, Z.testbit (cnt0 k') b, Z.testbit (cnt1 k') b,
   Z.testbit m b)
  = bit_step (Z.testbit (state k) b) (Z.testbit (cnt0 k) b)
             (Z.testbit (cnt1 k) b) (Z.testbit sample b).
Proof.
  intros Hb. unfold keypad_debounce, bit_step. cbn [fst snd state cnt0 cnt1].
  assert (Hnn : 0 <= b) by lia.
  repeat (rewrite ?to_u16_testbit, ?Z.lxor_spec, ?Z.land_spec, ?Z.lor_spec,
                  ?Z.lnot_spec by assumption).
  reflexivity.
Qed.

(** A run of one more sample, seen at bit [b]. *)
Lemma keypad_run_cons_bit k s rest b :
  0 <= b < 16 ->
  exists k1,
    Z.testbit (state k1) b
      = fst (fst (fst (bit_step (Z.testbit (state k) b) (Z.testbit (cnt0 k) b)
                                (Z.testbit (cnt1 k) b) (Z.testbit s b)))) /\
    Z.testbit (cnt0 k1) b
      = snd (fst (fst (bit_step (Z.testbit (state k) b) (Z.testbit (cnt0 k) b)
                                (Z.testbit (cnt1 k) b) (Z.testbit s b)))) /\
    Z.testbit (cnt1 k1) b
      = snd (fst (bit_step (Z.testbit (state k) b) (Z.testbit (cnt0 k) b)
                           (Z.testbit (cnt1 k) b) (Z.testbit s b))) /\
    fst (keypad_run k (s :: rest)) = fst (keypad_run k1 rest) /\
    bits_at b (snd (keypad_run k (s :: rest)))
      = (Z.testbit (state k1) b,
         snd (bit_step (Z.testbit (state k) b) (Z.testbit (cnt0 k) b)
                       (Z.testbit (cnt1 k) b) (Z.testbit s b)))
        :: bits_at b (snd (keypad_run k1 rest)).
Proof.
  intros Hb. pose proof (keypad_debounce_bit k s b Hb) as H. cbv zeta in H.
  exists (fst (keypad_debounce k s)).
  rewrite <- H. cbn [fst snd keypad_run].
  destruct (keypad_debounce k s) as [k1 m]. cbn [fst snd].
  destruct (keypad_run k1 rest) as [k2 outs]. cbn [fst snd bits_at map].
  repeat split; reflexivity.
Qed.

(** Unfolds a run sample by sample at bit [b], naming each intermediate
    filter and recording its bits. *)
Ltac step_bit b Hb :=
  match goal with
  | |- context [keypad_run ?k (?s :: ?rest)] =>
      let k1 := fresh "k" in
      let Hs := fresh "Hs" in let H0 := fresh "Hc0" in let H1 := fresh "Hc1" in
      let Hf := fresh "Hf" in let Ho := fresh "Ho" in
      destruct (keypad_run_cons_bit k s rest b Hb) as (k1 & Hs & H0 & H1 & Hf & Ho);
      rewrite ?Hf, ?Ho; clear Hf Ho
  end.

(** C4, as the code has it.  From a bit that is settled, a raw value that
    differs from the stored state for one, two or three consecutive calls
    and then reverts is never reported and never changes the returned
    state; a raw value that differs for four consecutive calls is reported
    exactly once, by the fourth call, which is also the first call whose
    returned state carries the new value. *)
Theorem keypad_debounce_four_samples (k : filter) (b : Z) (s1 s2 s3 s4 : Z) :
  0 <= b < 16 ->
  settled k b ->
  let old := Z.testbit (state k) b in
  (Z.testbit s1 b = negb old -> Z.testbit s2 b = old ->
   bits_at b (snd (keypad_run k [s1; s2])) = [(old, false); (old, false)] /\
   settled (fst (keypad_run k [s1; s2])) b)
  /\
  (Z.testbit s1 b = negb old -> Z.testbit s2 b = negb old ->
   Z.testbit s3 b = old ->
   bits_at b (snd (keypad_run k [s1; s2; s3]))
     = [(old, false); (old, false); (old, false)])
  /\
  (Z.testbit s1 b = negb old -> Z.testbit s2 b = negb old ->
   Z.testbit s3 b = negb old -> Z.testbit s4 b = old ->
   bits_at b (snd (keypad_run k [s1; s2; s3; s4]))
     = [(old, false); (old, false); (old, false); (old, false)])
  /\
  (Z.testbit s1 b = negb old -> Z.testbit s2 b = negb old ->
   Z.testbit s3 b = negb old -> Z.testbit s4 b = negb old ->
   bits_at b (snd (keypad_run k [s1; s2; s3; s4]))
     = [(old, false); (old, false); (old, false); (negb old, true)] /\
   settled (fst (keypad_run k [s1; s2; s3; s4])) b).
Proof.
  intros Hb [Hz0 Hz1] old. subst old. unfold settled.
  repeat split; intros;
    repeat step_bit b Hb; cbn [keypad_run fst snd bits_at map];
    repeat match goal with
           | H : Z.testbit _ b = _ |- _ => rewrite H in *; clear H
           end;
    destruct (Z.testbit (state k) b); reflexivity.
Qed.

(** The theorem at the filter's initial statics, bit 0 (KEYPAD_START). *)
Lemma keypad_debounce_four_samples_witness :
  bits_at 0 (snd (keypad_run zero [1; 1; 1; 1]))
  = [(false, false); (false, false); (false, false); (true, true)].
Proof.
  refine (proj1 (proj2 (proj2 (proj2
    (keypad_debounce_four_samples zero 0 1 1 1 1 _ _))) _ _ _ _)).
  - lia.
  - split; reflexivity.
  - reflexivity.
  - reflexivity.
  - reflexivity.
  - reflexivity.
Defined.

(** C4, as the specification words it, fails: bit 0 is settled, the raw
    bit differs from the stored state in two consecutive calls, and
    neither call reports it or changes the returned state. *)
Lemma keypad_debounce_two_samples_counterexample :
  settled zero 0 /\
  Z.testbit 1 0 <> Z.testbit (state zero) 0 /\
  snd (keypad_run zero [1; 1]) = [(0, 0); (0, 0)].
Proof.
  split; [split; reflexivity|]. split; [discriminate|]. reflexivity.
Qed.

End KeypadFacts.

(* ===================================================================== *)
(** ** The playlist manager keeps its index in range *)
(* ===================================================================== *)

Module PlaylistFacts.
Import CInt CIntFacts Playlist.

Lemma playlist_next_nonempty pl :
  0 < num_playlists pl <= MAX_PLAYLISTS -> index_ok pl ->
  playlist_next pl
  = Some (set_index pl ((current_index pl + 1) mod num_playlists pl)).
Proof.
  unfold index_ok, MAX_PLAYLISTS, playlist_next. intros Hn Hi.
  destruct (Z.eqb_spec (num_playlists pl) 0) as [E|_]; [lia|].
  rewrite c_add_in_range by (unfold INT_MIN, INT_MAX; lia). cbn [mbind option_bind].
  rewrite c_rem_nonneg by lia. reflexivity.
Qed.

Lemma playlist_prev_nonempty pl :
  0 < num_playlists pl <= MAX_PLAYLISTS -> index_ok pl ->
  playlist_prev pl
  = Some (set_index pl ((current_index pl - 1 + num_playlists pl)
                        mod num_playlists pl)).
Proof.
  unfold index_ok, MAX_PLAYLISTS, playlist_prev. intros Hn Hi.
  destruct (Z.eqb_spec (num_playlists pl) 0) as [E|_]; [lia|].
  rewrite c_add_in_range by (unfold INT_MIN, INT_MAX; lia). cbn [mbind option_bind].
  rewrite c_add_in_range by (unfold INT_MIN, INT_MAX; lia). cbn [mbind option_bind].
  rewrite c_rem_nonneg by lia. reflexivity.
Qed.

(** C10.  With no path loaded, [playlist_next] and [playlist_prev] leave
    the manager as it is and [playlist_get_current] returns NULL.  With
    [num_playlists] between 1 and the table's [MAX_PLAYLISTS] rows and
    [current_index] addressing a loaded row, both moves are defined, change
    nothing but the index, wrap at the ends, keep the index on a loaded row,
    and [playlist_get_current] returns the address of a row of the table. *)
Theorem playlist_manager_index_invariant (pl : playlist_manager_t) :
  (num_playlists pl = 0 ->
   playlist_next pl = Some pl /\ playlist_prev pl = Some pl /\
   playlist_get_current pl = NULL)
  /\
  (0 < num_playlists pl <= MAX_PLAYLISTS -> index_ok pl ->
   exists nx pv,
     playlist_next pl = Some nx /\ playlist_prev pl = Some pv /\
     nx = set_index pl (if current_index pl =? num_playlists pl - 1 then 0
                        else current_index pl + 1) /\
     pv = set_index pl (if current_index pl =? 0 then num_playlists pl - 1
                        else current_index pl - 1) /\
     index_ok nx /\ index_ok pv /\
     playlist_get_current pl = Row (current_index pl) /\
     playlist_get_current pl <> NULL /\
     0 <= current_index pl < MAX_PLAYLISTS /\
     deref pl (playlist_get_current pl) = playlists pl !! Z.to_nat (current_index pl)).
Proof.
  split.
  - intros H0. unfold playlist_next, playlist_prev, playlist_get_current.
    rewrite H0. cbn. auto.
  - intros Hn Hi.
    eexists _, _. split; [apply playlist_next_nonempty; assumption|].
    split; [apply playlist_prev_nonempty; assumption|].
    unfold index_ok in *.
    assert (Hnx : (current_index pl + 1) mod num_playlists pl
                  = if current_index pl =? num_playlists pl - 1 then 0
                    else current_index pl + 1).
    { destruct (Z.eqb_spec (current_index pl) (num_playlists pl - 1)) as [E|E].
      - rewrite E. replace (num_playlists pl - 1 + 1) with (num_playlists pl) by lia.
        apply Z_mod_same_full.
      - apply Z.mod_small. lia. }
    assert (Hpv : (current_index pl - 1 + num_playlists pl) mod num_playlists pl
                  = if current_index pl =? 0 then num_playlists pl - 1
                    else current_index pl - 1).
    { destruct (Z.eqb_spec (current_index pl) 0) as [E|E].
      - rewrite E. replace (0 - 1 + num_playlists pl) with (num_playlists pl - 1) by lia.
        apply Z.mod_small. lia.
      - replace (current_index pl - 1 + num_playlists pl)
          with (current_index pl - 1 + 1 * num_playlists pl) by lia.
        rewrite Z_mod_plus_full. apply Z.mod_small. lia. }
    rewrite Hnx, Hpv.
    split; [reflexivity|]. split; [reflexivity|].
    unfold playlist_get_current, deref, MAX_PLAYLISTS in *.
    destruct (Z.eqb_spec (num_playlists pl) 0) as [E|_]; [lia|].
    cbn [current_index num_playlists set_index].
    repeat split; try discriminate;
      try (destruct (Z.eqb_spec (current_index pl) (num_playlists pl - 1)); lia);
      try (destruct (Z.eqb_spec (current_index pl) 0); lia).
    destruct (Z.leb_spec 0 (current_index pl)); [|lia].
    destruct (Z.ltb_spec (current_index pl) 100); [|lia]. reflexivity.
Qed.

(** The theorem at a manager holding three paths, positioned on the last. *)
Lemma playlist_manager_index_invariant_witness :
  exists nx pv,
    playlist_next three_paths = Some nx /\ playlist_prev three_paths = Some pv /\
    nx = set_index three_paths 0 /\ pv = set_index three_paths 1 /\
    index_ok nx /\ index_ok pv /\
    playlist_get_current three_paths = Row 2 /\
    playlist_get_current three_paths <> NULL /\
    0 <= 2 < MAX_PLAYLISTS /\
    deref three_paths (playlist_get_current three_paths)
    = Some "/sdcard/audio/c.mp3"%string.
Proof.
  refine (proj2 (playlist_manager_index_invariant three_paths) _ _).
  - unfold MAX_PLAYLISTS. cbn. lia.
  - unfold index_ok. cbn. lia.
Defined.

End PlaylistFacts.

(* ===================================================================== *)
(** ** The ID3v2 parser *)
(* ===================================================================== *)

Module Id3Facts.
Import CInt CIntFacts Mon Id3.
Local Open Scope mon_scope.

Section ParserFacts.

Variable junk : Z -> nat -> byte.

Lemma byte_val_range b : 0 <= byte_val b < 256.
Proof.
  unfold byte_val. pose proof (Byte.to_N_bounded b). lia.
Qed.

Lemma byte_val_of z : byte_val (byte_of z) = z mod 256.
Proof.
  unfold byte_val, byte_of.
  pose proof (Z.mod_pos_bound z 256 ltac:(lia)) as Hm.
  destruct (Byte.of_N (Z.to_N (z mod 256))) as [b|] eqn:E.
  - apply Byte.to_of_N in E. rewrite E. lia.
  - apply Byte.of_N_None_iff in E. lia.
Qed.

Lemma lossy_not_nul ch : 0 <= ch -> ch <> 0 -> lossy ch <> x00.
Proof.
  intros H0 Hn Heq. unfold lossy in Heq.
  destruct (Z.ltb_spec ch 128) as [Hlt|_].
  - pose proof (byte_val_of ch) as Hv. rewrite Heq in Hv.
    rewrite Z.mod_small in Hv by lia. cbn in Hv. lia.
  - discriminate Heq.
Qed.

Lemma lossy_placeholder ch : 128 <= ch -> lossy ch = question_mark.
Proof.
  intros H. unfold lossy. destruct (Z.ltb_spec ch 128); [lia|reflexivity].
Qed.

Lemma code_unit_range le c : 0 <= code_unit le c < 2 ^ 16.
Proof. unfold code_unit, to_u16. apply Z.mod_pos_bound. lia. Qed.

Lemma c_string_app_nul (body rest : list byte) :
  Forall (fun b => b <> x00) body -> c_string (body ++ x00 :: rest) = body.
Proof.
  induction 1 as [|b body Hb _ IH]; cbn [c_string app].
  - reflexivity.
  - destruct (Byte.eqb b x00) eqn:E.
    + apply Byte.byte_dec_bl in E. contradiction.
    + f_equal. exact IH.
Qed.

Lemma take_while_Forall {A} (p : A -> bool) l :
  Forall (fun x => p x = true) (take_while p l).
Proof.
  induction l as [|x l IH]; cbn; [constructor|].
  destruct (p x) eqn:E; constructor; assumption.
Qed.

Lemma units_Forall n le o f : Forall (fun ch => 0 <= ch) (units junk n le o f).
Proof.
  revert o f. induction n as [|n IH]; intros o f; cbn; [constructor|].
  constructor; [apply code_unit_range | apply IH].
Qed.

Lemma Forall_take_while {A} (P : A -> Prop) (p : A -> bool) l :
  Forall P l -> Forall P (take_while p l).
Proof.
  induction 1 as [|x l Hx _ IH]; cbn; [constructor|].
  destruct (p x); constructor; assumption.
Qed.

(** Storing just past a written prefix. *)
Lemma store_after_prefix (w out : list byte) (v : byte) (f : FILE) :
  (length w < length out)%nat ->
  store (w ++ drop (length w) out) (Z.of_nat (length w)) v f
  = Ret ((w ++ [v]) ++ drop (length w + 1) out) f.
Proof.
  intros Hlt. unfold store.
  rewrite length_app, length_drop.
  destruct (Z.leb_spec 0 (Z.of_nat (length w))); [|lia].
  destruct (Z.ltb_spec (Z.of_nat (length w))
                       (Z.of_nat (length w + (length out - length w)))); [|lia].
  cbn [andb]. unfold ret. f_equal.
  rewrite Nat2Z.id, insert_app_r_alt by lia.
  rewrite Nat.sub_diag, <- app_assoc. f_equal.
  destruct (lookup_lt_is_Some_2 out (length w) Hlt) as [y Hy].
  rewrite (drop_S _ _ _ Hy). cbn. rewrite Nat.add_1_r. reflexivity.
Qed.

Lemma store_first (out : list byte) (v : byte) (f : FILE) :
  (0 < length out)%nat ->
  store out 0 v f = Ret (([] ++ [v]) ++ drop (0 + 1) out) f.
Proof.
  intros H. pose proof (store_after_prefix [] out v f H) as E.
  cbn [length app] in E. rewrite drop_0 in E. exact E.
Qed.

Lemma utf16_loop_exit_eq (out : list byte) (o : Z) :
  (take (Z.to_nat o) out ++ [] ++ drop (Z.to_nat o + 0) out, o + Z.of_nat 0)
  = (out, o).
Proof.
  f_equal; [|lia]. cbn [app].
  replace (Z.to_nat o + 0)%nat with (Z.to_nat o) by lia. apply take_drop.
Qed.

(** The UTF-16 loop writes, from index [o] on, the lossy image of the code
    units it meets before a null unit, the end of the frame or the end of
    the room; it never runs out of fuel and never stores outside [out]. *)
Lemma utf16_loop_spec fuel le max :
  forall size out o f,
    0 <= size < 2 ^ 32 -> 0 <= o ->
    max <= Z.of_nat (length out) ->
    max - 1 - o < Z.of_nat fuel ->
    let room := Z.to_nat (Z.min (size / 2) (max - 1 - o)) in
    let txt := map lossy (take_while nonzero (units junk room le o f)) in
    exists f',
      utf16_loop junk fuel le max size out o f
      = Ret (take (Z.to_nat o) out ++ txt ++ drop (Z.to_nat o + length txt) out,
             o + Z.of_nat (length txt)) f'.
Proof.
  induction fuel as [|fuel IH]; intros size out o f Hsize Ho Hmax Hfuel room txt.
  - (* no fuel: the loop condition is false *)
    subst txt room. cbn [utf16_loop].
    destruct (Z.ltb_spec o (max - 1)) as [Hlt|Hge]; [lia|].
    rewrite andb_false_r.
    replace (Z.to_nat (Z.min (size / 2) (max - 1 - o))) with 0%nat by lia.
    cbn [units take_while map length]. exists f. unfold ret.
      f_equal. symmetry. apply utf16_loop_exit_eq.
  - subst txt room. cbn [utf16_loop].
    destruct (Z.leb_spec 2 size) as [H2|H2]; cycle 1.
    { cbn [andb].
      replace (Z.to_nat (Z.min (size / 2) (max - 1 - o))) with 0%nat
        by (assert (size / 2 = 0) by (apply Z.div_small; lia); lia).
      cbn [units take_while map length]. exists f. unfold ret.
      f_equal. symmetry. apply utf16_loop_exit_eq. }
    destruct (Z.ltb_spec o (max - 1)) as [Hlt|Hge]; cycle 1.
    { cbn [andb].
      replace (Z.to_nat (Z.min (size / 2) (max - 1 - o))) with 0%nat by lia.
      cbn [units take_while map length]. exists f. unfold ret.
      f_equal. symmetry. apply utf16_loop_exit_eq. }
    cbn [andb].
    assert (Hdiv : (size - 2) / 2 = size / 2 - 1).
    { replace size with (size - 2 + 1 * 2) at 2 by lia.
      rewrite Z.div_add by lia. lia. }
    assert (Hroom : Z.to_nat (Z.min (size / 2) (max - 1 - o))
                    = S (Z.to_nat (Z.min ((size - 2) / 2) (max - 1 - (o + 1))))).
    { rewrite Hdiv.
      assert (1 <= size / 2) by (apply Z.div_le_lower_bound; lia). lia. }
    rewrite Hroom. cbn [units].
    unfold bind at 1.
    destruct (fread 2 f) as [got f1| | |] eqn:Hread;
      try (unfold fread in Hread; discriminate Hread).
    assert (Hsz : to_u32 (size - 2) = size - 2) by (apply to_u32_id; lia).
    rewrite Hsz.
    set (ch := code_unit le (filled got (uninit junk o 2))).
    cbn [take_while].
    assert (Hnz : nonzero ch = negb (ch =? 0)) by reflexivity.
    destruct (Z.eqb_spec ch 0) as [Hch|Hch]; cbn [negb] in Hnz; rewrite !Hnz.
    + cbn [map length]. exists f1. unfold ret.
      f_equal. symmetry. apply utf16_loop_exit_eq.
    + unfold bind at 1. unfold store.
      destruct (Z.leb_spec 0 o); [|lia].
      destruct (Z.ltb_spec o (Z.of_nat (length out))); [|lia].
      cbn [andb]. unfold ret at 1.
      destruct (IH (size - 2) (<[Z.to_nat o:=lossy ch]> out) (o + 1) f1) as [f' Hrec];
        try rewrite length_insert; try lia.
      exists f'. rewrite Hrec. f_equal. f_equal.
      * cbn [map length app].
        set (txt := map lossy (take_while nonzero _)).
        replace (Z.to_nat (o + 1)) with (S (Z.to_nat o)) by lia.
        assert (Hlk : <[Z.to_nat o:=lossy ch]> out !! Z.to_nat o = Some (lossy ch))
          by (apply list_lookup_insert_eq; lia).
        rewrite (take_S_r _ _ _ Hlk), take_insert_ge by lia.
        rewrite drop_insert_lt by lia.
        rewrite <- app_assoc. cbn [app]. do 4 f_equal. lia.
      * cbn [map length]. lia.
Qed.

Lemma fread_selector f :
  exists got f1, fread 1 f = Ret got f1 /\ selector f = byte_val <$> head got.
Proof.
  unfold fread, selector. eexists _, _. split; [reflexivity|].
  destruct (drop (Z.to_nat (pos f)) (contents f)) as [|e rest]; reflexivity.
Qed.

Lemma fread_length n f got f1 :
  fread n f = Ret got f1 -> Z.of_nat (length got) <= Z.max 0 n.
Proof.
  unfold fread. intros [= <- _]. rewrite length_take. lia.
Qed.

Lemma written_prefix (w out : list byte) (n : nat) :
  (length w <= n <= length out)%nat ->
  length (w ++ drop (length w) out) = length out /\
  drop n (w ++ drop (length w) out) = drop n out.
Proof.
  intros H. split.
  - rewrite length_app, length_drop. lia.
  - rewrite drop_app_ge by lia. rewrite drop_drop. f_equal. lia.
Qed.

Lemma units_length n le o g : (length (units junk n le o g) <= n)%nat.
Proof.
  revert o g. induction n as [|n IH]; intros o g; cbn [units length]; [lia|].
  unfold fread. cbn [length]. specialize (IH (o + 1)). 
  match goal with |- (S (length (units junk n le (o + 1) ?g')) <= S n)%nat =>
    specialize (IH g') end. lia.
Qed.

Lemma take_while_length {A} (p : A -> bool) (l : list A) :
  (length (take_while p l) <= length l)%nat.
Proof.
  induction l as [|x l IH]; cbn [take_while length]; [lia|].
  destruct (p x); cbn [length]; lia.
Qed.

Lemma utf16_text_no_nul n le o g :
  Forall (fun b => b <> x00) (map lossy (take_while nonzero (units junk n le o g))).
Proof.
  apply Forall_map.
  pose proof (take_while_Forall nonzero (units junk n le o g)) as Hnzs.
  pose proof (Forall_take_while (fun ch => 0 <= ch) nonzero _
                (units_Forall n le o g)) as Hpos.
  assert (Hboth : Forall (fun ch => nonzero ch = true /\ 0 <= ch)
                         (take_while nonzero (units junk n le o g)))
    by (apply Forall_and; split; assumption).
  eapply Forall_impl; [exact Hboth|].
  intros ch [Hnz Hp]. cbn beta. apply lossy_not_nul; [exact Hp|].
  unfold nonzero in Hnz. apply negb_true_iff, Z.eqb_neq in Hnz. exact Hnz.
Qed.

(** C6.  Whatever the frame size, the stream and the bytes an
    uninitialised buffer holds, [read_text] on a destination of at least
    [max >= 1] bytes returns without a store outside the destination: it
    writes a run [body] of fewer than [max] bytes and a NUL right after it,
    and leaves every byte from index [max] on as it was.  A selector other
    than 0, 1, 2 or 3 gives the empty string.  With selector 1 or 2 the
    string written is the lossy UTF-16 decoding [utf16_text]: code units of
    128 and above become ['?'], and decoding stops at a null code unit, at
    the end of the frame or when the destination is full. *)
Theorem read_text_bounded (f : FILE) (size : Z) (out : list byte) (max : Z) :
  1 <= max -> max <= Z.of_nat (length out) ->
  exists body f',
    let out' := (body ++ [x00]) ++ drop (length body + 1) out in
    read_text junk size out max f = Ret out' f' /\
    Z.of_nat (length body) + 1 <= max /\
    length out' = length out /\
    drop (Z.to_nat max) out' = drop (Z.to_nat max) out /\
    out' !! length body = Some x00 /\
    (forall e, selector f = Some e -> e <> 0 -> e <> 1 -> e <> 2 -> e <> 3 ->
               c_string out' = []) /\
    (forall e, selector f = Some e -> e = 1 \/ e = 2 ->
               2 <= max -> to_u32 (size - 1) <> 0 ->
               body = utf16_text junk size max f /\ c_string out' = body).
Proof.
  intros Hmax Hlen.
  assert (Hprops : forall body : list byte,
            Z.of_nat (length body) + 1 <= max ->
            let out' := (body ++ [x00]) ++ drop (length body + 1) out in
            length out' = length out /\
            drop (Z.to_nat max) out' = drop (Z.to_nat max) out /\
            out' !! length body = Some x00).
  { intros body Hb out'. subst out'.
    destruct (written_prefix (body ++ [x00]) out (Z.to_nat max)) as [H1 H2].
    { rewrite length_app. cbn [length]. lia. }
    assert (Hl : length (body ++ [x00]) = (length body + 1)%nat)
      by (rewrite length_app; reflexivity).
    rewrite Hl in H1, H2.
    split; [exact H1|]. split; [exact H2|].
    rewrite <- app_assoc. cbn [app]. apply list_lookup_middle. reflexivity. }
  assert (Hempty : forall f',
            store out 0 x00 f' = Ret (([] ++ [x00]) ++ drop (0 + 1) out) f')
    by (intros f'; apply store_first; lia).
  (* the outcome when the string written is empty and the selector, if any,
     does not select UTF-16 with a payload *)
  assert (Hnil : forall f',
            read_text junk size out max f = Ret (([] ++ [x00]) ++ drop (0 + 1) out) f' ->
            (forall e, selector f = Some e -> e = 1 \/ e = 2 ->
                       2 <= max -> to_u32 (size - 1) <> 0 -> False) ->
            exists body f',
              let out' := (body ++ [x00]) ++ drop (length body + 1) out in
              read_text junk size out max f = Ret out' f' /\
              Z.of_nat (length body) + 1 <= max /\
              length out' = length out /\
              drop (Z.to_nat max) out' = drop (Z.to_nat max) out /\
              out' !! length body = Some x00 /\
              (forall e, selector f = Some e ->
                         e <> 0 -> e <> 1 -> e <> 2 -> e <> 3 -> c_string out' = []) /\
              (forall e, selector f = Some e -> e = 1 \/ e = 2 ->
                         2 <= max -> to_u32 (size - 1) <> 0 ->
                         body = utf16_text junk size max f /\ c_string out' = body)).
  { intros f' Hrun Hno. exists [], f'. cbv zeta.
    split; [exact Hrun|]. split; [cbn [length]; lia|].
    destruct (Hprops [] ltac:(cbn [length]; lia)) as (P1 & P2 & P3).
    split; [exact P1|]. split; [exact P2|]. split; [exact P3|].
    split; [intros; reflexivity|].
    intros e He H12 H2 Hs. destruct (Hno e He H12 H2 Hs). }
  destruct (fread_selector f) as (encb & f1 & Hread & Hsel).
  destruct (max <? 2) eqn:Hm2.
  { apply Z.ltb_lt in Hm2 as Hm. apply (Hnil f).
    - unfold read_text. rewrite Hm2. apply Hempty.
    - intros; lia. }
  apply Z.ltb_ge in Hm2 as Hm.
  destruct encb as [|e encrest].
  { apply (Hnil f1).
    - unfold read_text. rewrite Hm2. unfold bind at 1. rewrite Hread. apply Hempty.
    - intros e' He'. rewrite Hsel in He'. discriminate He'. }
  cbn [head fmap option_fmap option_map] in Hsel.
  destruct (to_u32 (size - 1) =? 0) eqn:Hs0.
  { apply Z.eqb_eq in Hs0 as Hs. apply (Hnil f1).
    - unfold read_text. rewrite Hm2. unfold bind at 1. rewrite Hread, Hs0.
      apply Hempty.
    - intros; contradiction. }
  apply Z.eqb_neq in Hs0 as Hs.
  pose proof (to_u32_range (size - 1)) as Hsr.
  destruct ((byte_val e =? 0) || (byte_val e =? 3)) eqn:E03.
  { (* single-byte text *)
    unfold read_text. rewrite Hm2. unfold bind at 1. rewrite Hread, Hs0, E03.
    set (n := if to_u32 max <=? to_u32 (size - 1) then to_u32 (max - 1)
              else to_u32 (size - 1)).
    assert (Hn : 0 <= n <= max - 1).
    { subst n. pose proof (to_u32_range (max - 1)). pose proof (to_u32_range max).
      destruct (Z.leb_spec (to_u32 max) (to_u32 (size - 1))) as [Hle|Hgt].
      - split; [lia|]. unfold to_u32. apply Z.mod_le; lia.
      - split; [lia|]. assert (to_u32 max <= max) by (unfold to_u32; apply Z.mod_le; lia).
        lia. }
    unfold bind at 1. unfold fread_into. unfold bind at 1.
    destruct (fread n f1) as [got f2| | |] eqn:Hgot;
      try (unfold fread in Hgot; discriminate Hgot).
    pose proof (fread_length _ _ _ _ Hgot) as Hgl.
    destruct (Nat.leb_spec (length got) (length out)) as [Hfit|Hfit]; [|lia].
    unfold ret at 1. unfold filled.
    rewrite store_after_prefix by lia.
    exists got, f2. cbv zeta.
    split; [reflexivity|]. split; [lia|].
    destruct (Hprops got ltac:(lia)) as (P1 & P2 & P3).
    split; [exact P1|]. split; [exact P2|]. split; [exact P3|].
    rewrite Hsel.
    split; intros e' [= <-] **.
    - apply orb_true_iff in E03 as [E|E]; apply Z.eqb_eq in E; contradiction.
    - apply orb_true_iff in E03 as [E|E]; apply Z.eqb_eq in E; lia. }
  destruct ((byte_val e =? 1) || (byte_val e =? 2)) eqn:E12.
  { (* UTF-16 *)
    unfold read_text. rewrite Hm2. unfold bind at 1. rewrite Hread, Hs0, E03, E12.
    unfold bind at 1.
    destruct (fread 2 f1) as [got f2| | |] eqn:Hbom;
      try (unfold fread in Hbom; discriminate Hbom).
    set (le := negb ((byte_at (filled got [x00; x00]) 0 =? 254) &&
                     (byte_at (filled got [x00; x00]) 1 =? 255))).
    set (sz := to_u32 (to_u32 (size - 1) - 2)).
    destruct (utf16_loop_spec (Z.to_nat max) le max sz out 0 f2) as [f3 Hloop];
      try lia.
    { subst sz. apply to_u32_range. }
    cbv zeta in Hloop. rewrite Z.sub_0_r in Hloop.
    set (txt := map lossy (take_while nonzero
                  (units junk (Z.to_nat ((sz / 2) `min` (max - 1))) le 0 f2))) in *.
    assert (Htl : Z.of_nat (length txt) <= max - 1).
    { subst txt. rewrite length_map.
      pose proof (units_length (Z.to_nat ((sz / 2) `min` (max - 1))) le 0 f2).
      pose proof (take_while_length nonzero
                    (units junk (Z.to_nat ((sz / 2) `min` (max - 1))) le 0 f2)).
      lia. }
    unfold bind at 1. rewrite Hloop.
    change (Z.to_nat 0) with 0%nat. rewrite take_0, Z.add_0_l. cbn [app Nat.add].
    rewrite store_after_prefix by lia.
    exists txt, f3. cbv zeta.
    split; [reflexivity|]. split; [lia|].
    destruct (Hprops txt ltac:(lia)) as (P1 & P2 & P3).
    split; [exact P1|]. split; [exact P2|]. split; [exact P3|].
    rewrite Hsel.
    split; intros e' [= <-] **.
    - apply orb_true_iff in E12 as [E|E]; apply Z.eqb_eq in E; contradiction.
    - assert (Htxt : txt = utf16_text junk size max f).
      { unfold utf16_text. unfold bind. rewrite Hread, Hbom. reflexivity. }
      split; [exact Htxt|].
      rewrite <- app_assoc. cbn [app]. apply c_string_app_nul.
      subst txt. apply utf16_text_no_nul. }
  (* unknown selector *)
  apply (Hnil f1).
  - unfold read_text. rewrite Hm2. unfold bind at 1. rewrite Hread, Hs0, E03, E12.
    apply Hempty.
  - intros e' He' H12 _ _. rewrite Hsel in He'. injection He' as <-.
    apply orb_false_iff in E12 as [E1 E2].
    apply Z.eqb_neq in E1, E2. lia.
Qed.




(** A return value of [false] can only come from a file that did not
    open. *)
Lemma mp3_read_metadata_false fuel (fs : gmap string (list byte)) path meta f :
  mp3_read_metadata junk fuel fs path = Ret (false, meta) f -> fs !! path = None.
Proof.
  unfold mp3_read_metadata. destruct (fs !! path) as [data|]; [|reflexivity].
  unfold bind. destruct (parse_id3 junk fuel meta_zero (mkFILE data 0)); discriminate.
Qed.

Lemma frames_loop_looping_tag fuel :
  frames_loop junk fuel 3 20 meta_zero 0 (mkFILE looping_tag 10) = Timeout.
Proof.
  induction fuel as [|fuel IH]; [reflexivity|].
  change (frames_loop junk (S fuel) 3 20 meta_zero 0 (mkFILE looping_tag 10))
    with (frames_loop junk fuel 3 20 meta_zero 0 (mkFILE looping_tag 10)).
  exact IH.
Qed.

End ParserFacts.

(** The theorem on [utf16_payload] and a destination of four bytes: the
    string written is "A?B". *)
Lemma read_text_bounded_witness :
  exists body f',
    let out' := (body ++ [x00]) ++ drop (length body + 1) (bytes_of [1; 2; 3; 4; 5]) in
    read_text zero_junk 9 (bytes_of [1; 2; 3; 4; 5]) 4 utf16_payload = Ret out' f' /\
    Z.of_nat (length body) + 1 <= 4 /\
    length out' = 5%nat /\
    drop (Z.to_nat 4) out' = bytes_of [5] /\
    out' !! length body = Some x00 /\
    (forall e, selector utf16_payload = Some e ->
               e <> 0 -> e <> 1 -> e <> 2 -> e <> 3 -> c_string out' = []) /\
    (forall e, selector utf16_payload = Some e -> e = 1 \/ e = 2 ->
               2 <= 4 -> to_u32 (9 - 1) <> 0 ->
               body = utf16_text zero_junk 9 4 utf16_payload /\ c_string out' = body).
Proof.
  apply (read_text_bounded zero_junk utf16_payload 9 (bytes_of [1; 2; 3; 4; 5]) 4).
  - lia.
  - cbn. lia.
Defined.

Example read_text_utf16_example :
  match read_text zero_junk 9 (bytes_of [1; 2; 3; 4; 5]) 4 utf16_payload with
  | Ret out' _ => out' = bytes_of [0x41; 0x3F; 0x42; 0; 5]
  | _ => False
  end.
Proof. vm_compute. reflexivity. Qed.

(** C5, at the sample headers of the specification: both decode as the
    specification says. *)
Example syncsafe_examples :
  syncsafe (bytes_of [0x00; 0x00; 0x00; 0x20]) = 32 /\
  syncsafe (bytes_of [0x7F; 0x7F; 0x7F; 0x7F]) = 0x0FFFFFFF.
Proof. split; reflexivity. Qed.

(** On size bytes below 0x80, which is all a well-formed tag holds,
    [syncsafe] and [syncsafe32] decode alike. *)
Lemma syncsafe_clean_bytes (b : list byte) :
  (forall i, (i < 4)%nat -> byte_at b i < 128) ->
  syncsafe b = syncsafe32 b.
Proof.
  intros H. unfold syncsafe, syncsafe32.
  assert (Hland : forall i, (i < 4)%nat -> Z.land (byte_at b i) 0x7F = byte_at b i).
  { intros i Hi. change 0x7F with (Z.ones 7). rewrite Z.land_ones by lia.
    apply Z.mod_small. split; [|exact (H i Hi)].
    unfold byte_at. destruct (b !! i); [apply byte_val_range|lia]. }
  rewrite !Hland by lia. reflexivity.
Qed.

(** C5 on a size field with a high bit set.  [parse_id3] takes the tag
    size from [syncsafe], which shifts the whole byte: the size bytes
    00 00 00 80 give 128, where the low seven bits of each byte give 0. *)
Theorem syncsafe_keeps_high_bit :
  syncsafe (bytes_of [0x00; 0x00; 0x00; 0x80]) = 128 /\
  syncsafe_spec 0x00 0x00 0x00 0x80 = 0 /\
  syncsafe32 (bytes_of [0x00; 0x00; 0x00; 0x80]) = 0.
Proof. repeat split; reflexivity. Qed.

(** C9 on [looping_tag].  The skipped frame's size, 0xFFFFFFF6, makes
    [read += 10 + sz] wrap back to the value [read] had, and
    [fseek(f, sz, SEEK_CUR)], whose offset is a 32-bit [long], moves the
    stream ten bytes back, onto the frame header just read: the frame loop
    meets the same header in the same state for ever, so
    [mp3_read_metadata] does not return, whatever fuel it is given. *)
Theorem mp3_read_metadata_never_returns (junk : Z -> nat -> byte) (fuel : nat) :
  mp3_read_metadata junk fuel {[ "/sdcard/audio/loop.mp3"%string := looping_tag ]}
                    "/sdcard/audio/loop.mp3"
  = Timeout.
Proof.
  unfold mp3_read_metadata. rewrite lookup_singleton_eq.
  unfold bind, parse_id3, bind.
  change (fread 10 (mkFILE looping_tag 0))
    with (Ret (take 10 looping_tag) (mkFILE looping_tag 10)).
  cbv iota beta.
  change (filled (take 10 looping_tag) (uninit junk (-1) 10))
    with (take 10 looping_tag).
  change (negb (bool_decide (take 3 (take 10 looping_tag) = ID3))) with false.
  cbv iota.
  change (byte_at (take 10 looping_tag) 3) with 3.
  change (syncsafe (drop 6 (take 10 looping_tag))) with 20.
  rewrite frames_loop_looping_tag. reflexivity.
Qed.

End Id3Facts.

(* ===================================================================== *)
(** ** The audio player *)
(* ===================================================================== *)

Module PlayerFacts.
Import CInt CIntFacts Mon Player.
Local Open Scope mon_scope.

(** *** Facts about codec selection *)

Lemma strncasecmp_spec n : forall s1 s2 : list ascii,
  length s1 = n -> length s2 = n ->
  strncasecmp s1 s2 n = true <-> map tolower s1 = map tolower s2.
Proof.
  induction n as [|n IH]; intros s1 s2 H1 H2.
  - destruct s1, s2; try discriminate. cbn. tauto.
  - destruct s1 as [|a s1], s2 as [|b s2]; try discriminate.
    cbn [strncasecmp map].
    injection H1 as H1. injection H2 as H2.
    destruct (Ascii.eqb_spec (tolower a) (tolower b)) as [E|E].
    + rewrite (IH s1 s2 H1 H2). rewrite E. split; [intros ->; reflexivity|].
      intros [= ->]. reflexivity.
    + split; [discriminate|]. intros [= Hab _]. contradiction.
Qed.

Lemma ends_ci_iff ext filename :
  table_ext ext -> ends_ci ext filename = true <-> ends_with_ci ext filename.
Proof.
  intros [Hk Hlow]. unfold ends_ci, ends_with_ci, strlen in *.
  set (fn := chars filename). set (e := chars ext) in *.
  rewrite to_u32_id by lia. rewrite Nat2Z.id.
  replace (Z.to_nat (Z.of_nat (length fn) - Z.of_nat (length e)))
    with (length fn - length e)%nat by lia.
  rewrite andb_true_iff, Z.leb_le. split.
  - intros [Hle Hcmp].
    apply strncasecmp_spec in Hcmp; [|reflexivity|rewrite length_drop; lia].
    exists (take (length fn - length e) fn), (drop (length fn - length e) fn).
    split; [symmetry; apply take_drop|]. rewrite <- Hcmp. exact Hlow.
  - intros (stem & tail & Hfn & Htail).
    assert (Hlen : length tail = length e)
      by (rewrite <- Htail; symmetry; apply length_map).
    rewrite Hfn, length_app, Hlen.
    split; [lia|].
    replace (length stem + length e - length e)%nat with (length stem) by lia.
    rewrite drop_app_length.
    apply strncasecmp_spec; [reflexivity|exact Hlen|].
    rewrite Htail. exact Hlow.
Qed.

Lemma ends_with_ci_last ext filename :
  ends_with_ci ext filename -> chars ext <> [] ->
  last (map tolower (chars filename)) = last (chars ext).
Proof.
  intros (stem & tail & Hfn & Htail) Hne.
  rewrite Hfn, map_app, Htail, last_app.
  destruct (last (chars ext)) eqn:E; [reflexivity|].
  apply last_None in E. contradiction.
Qed.

(** Two extensions whose last characters differ cannot both end a name. *)
Lemma ends_with_ci_exclusive a b filename :
  ends_with_ci a filename -> ends_with_ci b filename ->
  chars a <> [] -> chars b <> [] -> last (chars a) = last (chars b).
Proof.
  intros Ha Hb Hna Hnb.
  rewrite <- (ends_with_ci_last a filename Ha Hna).
  apply ends_with_ci_last; assumption.
Qed.

Lemma fops_determine_filetype_unfold entry :
  fops_determine_filetype entry =
  let n := name entry in
  if strlen n <? 4 then FileTypeNone
  else if ends_ci "mp3" n then FileTypeMP3
  else if ends_ci "ogg" n then FileTypeOGG
  else if ends_ci "xm" n || ends_ci "mod" n || ends_ci "s3m" n || ends_ci "it" n
       then FileTypeMOD
  else if ends_ci "wav" n then FileTypeWAV
  else if ends_ci "flac" n then FileTypeFLAC
  else FileTypeNone.
Proof.
  unfold fops_determine_filetype, matches_extension, ends_ci. cbv zeta.
  change (strlen "mp3") with 3. change (strlen "ogg") with 3.
  change (strlen "xm") with 2. change (strlen "mod") with 3.
  change (strlen "s3m") with 3. change (strlen "it") with 2.
  change (strlen "wav") with 3. change (strlen "flac") with 4.
  destruct (strlen (name entry) <? 4); [reflexivity|].
  repeat match goal with
         | |- context [if ?b && ?c then true else false] =>
             replace (if b && c then true else false) with (b && c)
               by (destruct (b && c); reflexivity)
         | |- context [if ?b && ?c then true else ?d] =>
             replace (if b && c then true else d) with ((b && c) || d)
               by (destruct (b && c); reflexivity)
         end.
  rewrite ?orb_assoc. reflexivity.
Qed.

Lemma extension_of_split cs ext :
  extension_of cs = Some ext -> exists stem, cs = stem ++ "."%char :: ext.
Proof.
  revert ext. induction cs as [|c rest IH]; intros ext H; [discriminate|].
  cbn [extension_of] in H.
  destruct (extension_of rest) as [e|] eqn:E.
  - injection H as <-. destruct (IH e eq_refl) as [stem ->].
    exists (c :: stem). reflexivity.
  - destruct (Ascii.eqb_spec c "."%char) as [->|]; [|discriminate].
    injection H as <-. exists []. reflexivity.
Qed.

Lemma extension_ends_with_ci ext filename e :
  extension_of (chars filename) = Some e -> map tolower e = chars ext ->
  ends_with_ci ext filename.
Proof.
  intros Hext Hlow. destruct (extension_of_split _ _ Hext) as [stem Hs].
  exists (stem ++ ["."%char]), e. split; [|exact Hlow].
  rewrite Hs, <- app_assoc. reflexivity.
Qed.

Ltac table_ext_tac := split; [vm_compute; reflexivity | reflexivity].

(** Decides the tests of [fops_determine_filetype] from suffix facts in
    the context. *)
Ltac decide_ends :=
  repeat match goal with
         | H : ends_with_ci ?e ?n |- context [ends_ci ?e ?n] =>
             rewrite (proj2 (ends_ci_iff e n ltac:(table_ext_tac)) H)
         | H : ~ ends_with_ci ?e ?n |- context [ends_ci ?e ?n] =>
             let E := fresh in
             destruct (ends_ci e n) eqn:E;
             [apply (ends_ci_iff e n ltac:(table_ext_tac)) in E; contradiction|]
         | H : ends_with_ci ?a ?n |- context [ends_ci ?b ?n] =>
             let E := fresh in
             destruct (ends_ci b n) eqn:E;
             [apply (ends_ci_iff b n ltac:(table_ext_tac)) in E;
              pose proof (ends_with_ci_exclusive a b n H E
                            ltac:(discriminate) ltac:(discriminate));
              discriminate|]
         end.

(** What the classification goes by.  The codec follows from the length
    of the file name and from its last characters, compared without regard
    to case.  A name of fewer than 4 characters is
    Unknown.  A name of 4 characters or more is MP3 when it ends in mp3,
    OGG when it ends in ogg, MOD when it ends in xm, mod, s3m or it, WAV
    when it ends in wav, FLAC when it ends in flac, and Unknown when it
    ends in none of these; so a name of 4 characters or more whose
    extension is one of these has the codec of its extension. *)
Theorem entry_codec_by_suffix (entry : Entry) :
  let n := name entry in
  let c := entry_codec entry in
  (strlen n < 4 -> c = AudioCodecUnknown) /\
  (4 <= strlen n ->
   (ends_with_ci "mp3" n -> c = AudioCodecMP3) /\
   (ends_with_ci "ogg" n -> c = AudioCodecOGG) /\
   (ends_with_ci "xm" n \/ ends_with_ci "mod" n \/
    ends_with_ci "s3m" n \/ ends_with_ci "it" n -> c = AudioCodecMOD) /\
   (ends_with_ci "wav" n -> c = AudioCodecWAV) /\
   (ends_with_ci "flac" n -> c = AudioCodecFLAC) /\
   (~ ends_with_ci "mp3" n -> ~ ends_with_ci "ogg" n ->
    ~ ends_with_ci "xm" n -> ~ ends_with_ci "mod" n ->
    ~ ends_with_ci "s3m" n -> ~ ends_with_ci "it" n ->
    ~ ends_with_ci "wav" n -> ~ ends_with_ci "flac" n ->
    c = AudioCodecUnknown) /\
   (forall ext e, extension_of (chars n) = Some e -> map tolower e = chars ext ->
      (ext = "mp3"%string -> c = AudioCodecMP3) /\
      (ext = "ogg"%string -> c = AudioCodecOGG) /\
      (ext = "xm"%string \/ ext = "mod"%string \/
       ext = "s3m"%string \/ ext = "it"%string -> c = AudioCodecMOD) /\
      (ext = "wav"%string -> c = AudioCodecWAV) /\
      (ext = "flac"%string -> c = AudioCodecFLAC))).
Proof.
  intros n c. subst c. unfold entry_codec.
  rewrite fops_determine_filetype_unfold. cbv zeta. fold n.
  split.
  { intros Hs. destruct (Z.ltb_spec (strlen n) 4); [reflexivity|lia]. }
  intros Hl. destruct (Z.ltb_spec (strlen n) 4) as [|_]; [lia|].
  assert (Hmp3 : ends_with_ci "mp3" n ->
            choose_codec (if ends_ci "mp3" n then FileTypeMP3
              else if ends_ci "ogg" n then FileTypeOGG
              else if ends_ci "xm" n || ends_ci "mod" n || ends_ci "s3m" n || ends_ci "it" n
                   then FileTypeMOD
              else if ends_ci "wav" n then FileTypeWAV
              else if ends_ci "flac" n then FileTypeFLAC else FileTypeNone)
            = AudioCodecMP3).
  { intros H. decide_ends. reflexivity. }
  assert (Hogg : ends_with_ci "ogg" n ->
            choose_codec (if ends_ci "mp3" n then FileTypeMP3
              else if ends_ci "ogg" n then FileTypeOGG
              else if ends_ci "xm" n || ends_ci "mod" n || ends_ci "s3m" n || ends_ci "it" n
                   then FileTypeMOD
              else if ends_ci "wav" n then FileTypeWAV
              else if ends_ci "flac" n then FileTypeFLAC else FileTypeNone)
            = AudioCodecOGG).
  { intros H. decide_ends. reflexivity. }
  assert (Hmod : ends_with_ci "xm" n \/ ends_with_ci "mod" n \/
                 ends_with_ci "s3m" n \/ ends_with_ci "it" n ->
            choose_codec (if ends_ci "mp3" n then FileTypeMP3
              else if ends_ci "ogg" n then FileTypeOGG
              else if ends_ci "xm" n || ends_ci "mod" n || ends_ci "s3m" n || ends_ci "it" n
                   then FileTypeMOD
              else if ends_ci "wav" n then FileTypeWAV
              else if ends_ci "flac" n then FileTypeFLAC else FileTypeNone)
            = AudioCodecMOD).
  { intros [H|[H|[H|H]]]; decide_ends; rewrite ?orb_true_r; reflexivity. }
  assert (Hwav : ends_with_ci "wav" n ->
            choose_codec (if ends_ci "mp3" n then FileTypeMP3
              else if ends_ci "ogg" n then FileTypeOGG
              else if ends_ci "xm" n || ends_ci "mod" n || ends_ci "s3m" n || ends_ci "it" n
                   then FileTypeMOD
              else if ends_ci "wav" n then FileTypeWAV
              else if ends_ci "flac" n then FileTypeFLAC else FileTypeNone)
            = AudioCodecWAV).
  { intros H. decide_ends. reflexivity. }
  assert (Hflac : ends_with_ci "flac" n ->
            choose_codec (if ends_ci "mp3" n then FileTypeMP3
              else if ends_ci "ogg" n then FileTypeOGG
              else if ends_ci "xm" n || ends_ci "mod" n || ends_ci "s3m" n || ends_ci "it" n
                   then FileTypeMOD
              else if ends_ci "wav" n then FileTypeWAV
              else if ends_ci "flac" n then FileTypeFLAC else FileTypeNone)
            = AudioCodecFLAC).
  { intros H. decide_ends. reflexivity. }
  split; [exact Hmp3|]. split; [exact Hogg|]. split; [exact Hmod|].
  split; [exact Hwav|]. split; [exact Hflac|]. split.
  { intros. decide_ends. reflexivity. }
  intros ext e Hext Hlow.
  pose proof (extension_ends_with_ci ext n e Hext Hlow) as Hends.
  split; [intros ->; auto|]. split; [intros ->; auto|].
  split; [intros [-> | [-> | [-> | ->]]]; auto|].
  split; intros ->; auto.
Qed.

(** The theorem at "Track.MP3". *)
Lemma entry_codec_by_suffix_witness :
  entry_codec (mkEntry "Track.MP3" 0 0 0) = AudioCodecMP3.
Proof.
  refine (proj1 (proj2 (entry_codec_by_suffix (mkEntry "Track.MP3" 0 0 0)) _) _).
  - vm_compute. discriminate.
  - exists (chars "Track."), (chars "MP3"). split; reflexivity.
Defined.

(** C8 fails on names that end in the letters of an extension without
    being of that extension: [matches_extension] compares the tail of the
    name with "mp3", "it", ... and never looks for the dot before it.
    "summit" and "nomp3" have no extension and the extension of "demo.exit"
    is exit, yet they are classified MOD, MP3 and MOD where the claim, and
    the comments of both functions, say Unknown.  [list_files_on_sdcard],
    which compares with ".mp3", does not take "nomp3" for an MP3 file. *)
Theorem entry_codec_ignores_dot :
  extension_of (chars "summit") = None /\
  entry_codec (mkEntry "summit" 0 0 0) = AudioCodecMOD /\
  extension_of (chars "demo.exit") = Some (chars "exit") /\
  entry_codec (mkEntry "demo.exit" 0 0 0) = AudioCodecMOD /\
  extension_of (chars "nomp3") = None /\
  entry_codec (mkEntry "nomp3" 0 0 0) = AudioCodecMP3 /\
  Loading.has_mp3_suffix "nomp3" = false.
Proof. repeat split; vm_compute; reflexivity. Qed.

(** *** Facts about index resolution *)

Lemma advance_index (L i : Z) :
  0 < L <= INT_MAX -> 0 <= i < L ->
  (s ← c_add i 1; c_rem s (to_int L)) = Some ((i + 1) mod L).
Proof.
  intros HL Hi. unfold INT_MAX in HL.
  rewrite c_add_in_range by (unfold INT_MIN, INT_MAX; lia).
  cbn [mbind option_bind].
  rewrite to_int_id by (unfold INT_MIN, INT_MAX; lia).
  apply c_rem_nonneg; lia.
Qed.

Lemma retreat_index (L i : Z) :
  0 < L <= INT_MAX -> 0 <= i < L ->
  (c ← c_add i (-1); if c <? 0 then c_add (to_int L) (-1) else Some c)
  = Some ((i - 1 + L) mod L).
Proof.
  intros HL Hi. unfold INT_MAX in HL.
  rewrite (c_add_in_range i (-1)) by (unfold INT_MIN, INT_MAX; lia).
  cbn [mbind option_bind].
  rewrite to_int_id by (unfold INT_MIN, INT_MAX; lia).
  destruct (Z.ltb_spec (i + -1) 0) as [Hneg|Hpos].
  - rewrite c_add_in_range by (unfold INT_MIN, INT_MAX; lia).
    f_equal. assert (i = 0) by lia. subst i.
    replace (0 - 1 + L) with (L + -1) by lia.
    symmetry. apply Z.mod_small. lia.
  - f_equal. replace (i - 1 + L) with (i + -1 + 1 * L) by lia.
    rewrite Z_mod_plus_full. symmetry. apply Z.mod_small. lia.
Qed.

Lemma get_next_song_index_in_range (state : PlayerState) (res : PlayerResult) (i : Z) :
  0 < playlist_length state <= INT_MAX -> 0 <= i < playlist_length state ->
  exists i', get_next_song_index state res i = Some i' /\
             0 <= i' < playlist_length state.
Proof.
  intros HL Hi. unfold get_next_song_index. cbv zeta.
  pose proof (Z.mod_pos_bound (i + 1) (playlist_length state) ltac:(lia)).
  pose proof (Z.mod_pos_bound (i - 1 + playlist_length state)
                              (playlist_length state) ltac:(lia)).
  destruct res; try (exists i; split; [reflexivity|lia]).
  - rewrite advance_index by assumption. eauto.
  - destruct (is_repeat_song (playing_mode state)); cbn [negb].
    + exists i. split; [reflexivity|lia].
    + rewrite advance_index by assumption. eauto.
  - rewrite advance_index by assumption. eauto.
  - rewrite retreat_index by assumption. eauto.
Qed.

(** C1.  For a playlist of [L] songs, [0 < L] (and [L] an [int]), and an
    index [i] with [0 <= i < L]: a song that ends by itself keeps [i] in
    RepeatSong mode and moves to [(i + 1) mod L] in the other modes; Next
    and a decode error move to [(i + 1) mod L] whatever the mode; Prev
    moves to [(i - 1 + L) mod L].  Next from [L - 1] gives 0 and Prev from
    0 gives [L - 1]. *)
Theorem get_next_song_index_spec (state : PlayerState) (i : Z) :
  let L := playlist_length state in
  0 < L <= INT_MAX -> 0 <= i < L ->
  get_next_song_index state PlayerResultDone i
  = Some (if is_repeat_song (playing_mode state) then i else (i + 1) mod L) /\
  get_next_song_index state PlayerResultNextSong i = Some ((i + 1) mod L) /\
  get_next_song_index state PlayerResultError i = Some ((i + 1) mod L) /\
  get_next_song_index state PlayerResultPrevSong i = Some ((i - 1 + L) mod L) /\
  get_next_song_index state PlayerResultNextSong (L - 1) = Some 0 /\
  get_next_song_index state PlayerResultPrevSong 0 = Some (L - 1).
Proof.
  intros L HL Hi. subst L. unfold get_next_song_index. cbv zeta.
  rewrite !advance_index by lia. rewrite !retreat_index by lia.
  split. { destruct (is_repeat_song (playing_mode state)); reflexivity. }
  split; [reflexivity|]. split; [reflexivity|]. split; [reflexivity|].
  split.
  - f_equal. replace (playlist_length state - 1 + 1) with (playlist_length state) by lia.
    apply Z_mod_same_full.
  - f_equal. replace (0 - 1 + playlist_length state) with (playlist_length state - 1) by lia.
    apply Z.mod_small. lia.
Qed.

(** The theorem at three songs, index 1, RepeatSong mode. *)
Lemma get_next_song_index_spec_witness :
  get_next_song_index (three_songs PlayingModeRepeatSong) PlayerResultDone 1 = Some 1 /\
  get_next_song_index (three_songs PlayingModeRepeatSong) PlayerResultNextSong 1 = Some 2 /\
  get_next_song_index (three_songs PlayingModeRepeatSong) PlayerResultError 1 = Some 2 /\
  get_next_song_index (three_songs PlayingModeRepeatSong) PlayerResultPrevSong 1 = Some 0 /\
  get_next_song_index (three_songs PlayingModeRepeatSong) PlayerResultNextSong 2 = Some 0 /\
  get_next_song_index (three_songs PlayingModeRepeatSong) PlayerResultPrevSong 0 = Some 2.
Proof.
  refine (get_next_song_index_spec (three_songs PlayingModeRepeatSong) 1 _ _).
  - unfold INT_MAX. cbn. lia.
  - cbn. lia.
Defined.

(** *** Facts about [make_playlist] *)

Section BuildInvariant.

Variable grant : nat -> Z -> bool.
Variable sizeof_Song : Z.
Variable PATH_MAX : Z.

(** Splits a monadic run found in hypothesis [H] at its first bind. *)
Ltac run_bind H :=
  let a := fresh "a" in let s := fresh "h" in let E := fresh "E" in
  unfold bind at 1 in H;
  match type of H with
  | match ?m ?h with _ => _ end = _ =>
      destruct (m h) as [a s|s| |] eqn:E; try discriminate H
  end.

Lemma scan_entries_invariant k params :
  forall i j start_song n_songs song_indices start' n' indices',
    scan_entries k params i j start_song n_songs song_indices
    = Some (start', n', indices') ->
    0 <= start_song -> (start_song = 0 \/ start_song < j) -> j = n_songs ->
    0 <= n_songs <= MAX_SONGS ->
    0 <= start' /\ (start' = 0 \/ start' < n') /\ 0 <= n' <= MAX_SONGS.
Proof.
  induction k as [|k IH]; intros i j start n idxs start' n' idxs' H H0 Hs Hj Hn.
  - cbn in H. injection H as <- <- <-. subst j. auto.
  - cbn [scan_entries] in H.
    destruct (entries params !! Z.to_nat i) as [entry|]; [|discriminate].
    destruct (is_unknown (entry_codec entry)); cbn [negb] in H.
    + eapply IH; eauto.
    + destruct (Z.ltb_spec j MAX_SONGS) as [Hlt|]; [|discriminate].
      eapply IH; [exact H| | | |].
      * destruct (to_u32 (index params) =? i); lia.
      * destruct (to_u32 (index params) =? i); lia.
      * lia.
      * lia.
Qed.

Lemma fill_playlist_fields params indices :
  forall st h ok st' h',
    fill_playlist grant sizeof_Song PATH_MAX params indices st h = Ret (ok, st') h' ->
    playlist_length st' = playlist_length st /\
    playlist_index st' = playlist_index st.
Proof.
  induction indices as [|i rest IH]; intros st h ok st' h' H.
  - cbn in H. injection H as <- <- <-. auto.
  - cbn [fill_playlist] in H.
    run_bind H. run_bind H.
    destruct a0 as [[p song]|].
    + run_bind H. apply IH in H. cbn in H. exact H.
    + injection H as <- <- <-. auto.
Qed.

(** A playlist that [make_playlist] reports as built, starting from the
    state [player_task] prepares, holds at most [MAX_SONGS] songs and has
    its index on one of them. *)
Lemma make_playlist_index params h st h' :
  make_playlist grant sizeof_Song PATH_MAX zero_state params h = Ret (0, st) h' ->
  0 <= playlist_length st <= MAX_SONGS /\
  (0 < playlist_length st -> 0 <= playlist_index st < playlist_length st).
Proof.
  unfold make_playlist. intros H.
  destruct (play_all params).
  - run_bind H. destruct a as [[start_song n_songs] song_indices].
    unfold defined in E.
    destruct (scan_entries _ params 0 0 0 0 []) as [[[s n] idxs]|] eqn:Escan;
      [|discriminate E].
    injection E as -> -> -> <-.
    apply scan_entries_invariant in Escan; [|lia|lia|reflexivity|unfold MAX_SONGS; lia].
    destruct Escan as (Hs0 & Hs & Hn).
    run_bind H.
    destruct (a =? 0)%nat; [discriminate H|].
    run_bind H. destruct a0 as [ok st1].
    apply fill_playlist_fields in E0. cbn in E0. destruct E0 as [HL HI].
    destruct ok; [|discriminate H]. injection H as <- <-.
    cbn [playlist_length playlist_index set_index]. rewrite HL.
    split; [exact Hn|]. intros Hpos.
    rewrite to_int_id by (unfold INT_MIN, INT_MAX, MAX_SONGS in *; lia). lia.
  - run_bind H.
    destruct (is_unknown (entry_codec a)); [discriminate H|].
    run_bind H.
    destruct (a0 =? 0)%nat; [discriminate H|].
    run_bind H.
    destruct a1 as [[sp song]|].
    + run_bind H. injection H as <- <-. cbn. unfold MAX_SONGS. lia.
    + run_bind H; discriminate H.
Qed.

Lemma resolve_all_in_range (st : PlayerState) steps :
  forall i,
    0 < playlist_length st <= INT_MAX -> 0 <= i < playlist_length st ->
    exists i', resolve_all st steps i = Some i' /\ 0 <= i' < playlist_length st.
Proof.
  induction steps as [|[m r] rest IH]; intros i HL Hi.
  - exists i. split; [reflexivity|exact Hi].
  - cbn [resolve_all].
    destruct (get_next_song_index_in_range
                (mkState (playing st) (playlist st) (songs st)
                         (playlist_length st) i m) r i HL Hi) as (i1 & E & H1).
    rewrite E. cbn [mbind option_bind]. apply IH; assumption.
Qed.

End BuildInvariant.

(** Where [make_playlist] reports a playlist as built, on the state
    [player_task] prepares, the index invariant
    [0 <= playlist_index < playlist_length] of a non-empty playlist holds;
    it is preserved by [get_next_song_index] for every result, loop mode
    and index on a song, and so holds after any number of index
    resolutions. *)
Theorem playlist_index_invariant :
  (forall grant sizeof_Song PATH_MAX params h st h',
      make_playlist grant sizeof_Song PATH_MAX zero_state params h = Ret (0, st) h' ->
      0 < playlist_length st ->
      0 <= playlist_index st < playlist_length st /\
      forall steps, exists i,
        resolve_all st steps (playlist_index st) = Some i /\
        0 <= i < playlist_length st)
  /\
  (forall state res i,
      0 < playlist_length state <= INT_MAX -> 0 <= i < playlist_length state ->
      exists i', get_next_song_index state res i = Some i' /\
                 0 <= i' < playlist_length state).
Proof.
  split.
  - intros grant sizeof_Song PATH_MAX params h st h' H Hpos.
    destruct (make_playlist_index _ _ _ _ _ _ _ H) as [HL HI].
    specialize (HI Hpos). split; [exact HI|].
    intros steps. apply resolve_all_in_range; [|exact HI].
    unfold MAX_SONGS, INT_MAX in *. lia.
  - exact get_next_song_index_in_range.
Qed.

(** The theorem at the playlist built from [three_entries] with the
    third entry selected: two songs, starting on the second. *)
Lemma playlist_index_invariant_witness :
  (0 <= playlist_index built_state < playlist_length built_state /\
   forall steps, exists i,
     resolve_all built_state steps (playlist_index built_state) = Some i /\
     0 <= i < playlist_length built_state) /\
  playlist_index built_state = 1 /\ playlist_length built_state = 2.
Proof.
  split.
  - refine (proj1 playlist_index_invariant grant_all sizeof_Song_esp32 PATH_MAX_esp32
              (mkParam three_entries 3 2 AUDIO_FILE_PATH true) empty_heap
              built_state _ _ _).
    + vm_compute. reflexivity.
    + vm_compute. reflexivity.
  - split; reflexivity.
Defined.

Section BuildFacts.

Variable grant : nat -> Z -> bool.
Variable sizeof_Song : Z.
Variable PATH_MAX : Z.

Lemma scan_entries_all_unknown params k :
  forall i s n idxs,
    Forall (fun e => entry_codec e = AudioCodecUnknown) (entries params) ->
    0 <= i -> (Z.to_nat i + k = length (entries params))%nat ->
    scan_entries k params i 0 s n idxs = Some (s, n, idxs).
Proof.
  induction k as [|k IH]; intros i s n idxs Hall Hi Hlen; [reflexivity|].
  cbn [scan_entries].
  destruct (lookup_lt_is_Some_2 (entries params) (Z.to_nat i) ltac:(lia)) as [e He].
  rewrite He.
  rewrite (proj1 (Forall_lookup _ _) Hall _ _ He). cbn [is_unknown negb].
  apply IH; [assumption|lia|lia].
Qed.

(** In play-all mode over entries none of which has a codec, whether
    [make_playlist] reports a failure is what [malloc] answers to a request
    of zero bytes. *)
Lemma make_playlist_empty_listing (st : PlayerState) params h :
  play_all params = true ->
  n_entries params = Z.of_nat (length (entries params)) ->
  n_entries params < 2 ^ 32 ->
  Forall (fun e => entry_codec e = AudioCodecUnknown) (entries params) ->
  exists st' h',
    make_playlist grant sizeof_Song PATH_MAX st params h
    = Ret (if grant (requests h) 0 then 0 else -1, st') h' /\
    (grant (requests h) 0 = true -> playlist_length st' = 0).
Proof.
  intros Hall Hn Hlt Hunk. unfold make_playlist. rewrite Hall.
  rewrite Hn, to_u32_id, Nat2Z.id by lia.
  rewrite (scan_entries_all_unknown params _ 0 0 0 [] Hunk) by lia.
  unfold defined, bind, ret, malloc. rewrite Z.mul_0_l.
  change (to_u32 0) with 0.
  destruct (grant (requests h) 0); cbn.
  - eexists _, _. split; [reflexivity|]. reflexivity.
  - eexists _, _. split; [reflexivity|]. discriminate.
Qed.

(** Single mode on an entry without a codec fails, and changes nothing. *)
Lemma make_playlist_single_unknown (st : PlayerState) params h entry :
  play_all params = false -> 0 <= index params ->
  entries params !! Z.to_nat (index params) = Some entry ->
  entry_codec entry = AudioCodecUnknown ->
  make_playlist grant sizeof_Song PATH_MAX st params h = Ret (-1, st) h.
Proof.
  intros Hall Hi He Hc. unfold make_playlist. rewrite Hall.
  destruct (Z.ltb_spec (index params) 0); [lia|].
  rewrite He. unfold defined, bind, ret. rewrite Hc. reflexivity.
Qed.

(** When the playlist array cannot be allocated, [make_playlist] fails. *)
Lemma make_playlist_no_storage (st : PlayerState) params h rc st' h' :
  (forall sz, grant (requests h) sz = false) ->
  make_playlist grant sizeof_Song PATH_MAX st params h = Ret (rc, st') h' ->
  rc = -1.
Proof.
  intros Hno. unfold make_playlist.
  destruct (play_all params).
  - unfold bind at 1.
    destruct (defined _ h) as [[[s n] idxs] h1| | |] eqn:E; try discriminate.
    assert (h1 = h).
    { unfold defined in E. destruct (scan_entries _ _ _ _ _ _ _); [|discriminate E].
      injection E as _ <-. reflexivity. }
    subst h1. unfold bind, malloc. rewrite Hno. cbn. intros [= <- _ _]. reflexivity.
  - unfold bind at 1.
    destruct (defined _ h) as [entry h1| | |] eqn:E; try discriminate.
    assert (h1 = h).
    { unfold defined in E.
      destruct (if index params <? 0 then None else _); [|discriminate E].
      injection E as _ <-. reflexivity. }
    subst h1.
    destruct (is_unknown (entry_codec entry)); [intros [= <- _ _]; reflexivity|].
    unfold bind, malloc. rewrite Hno. cbn. intros [= <- _ _]. reflexivity.
Qed.

End BuildFacts.

(** *** A directory of more than [MAX_SONGS] playable files *)

(** The first loop of the play-all branch stores an index in
    [song_indices] for every playable entry and never compares [j] with
    [MAX_SONGS]: when the entries still to be scanned hold more playable
    ones than the array has room left, a store lands outside it. *)
Lemma scan_entries_overflow k params :
  forall i j start_song n_songs song_indices,
    0 <= i -> 0 <= j <= MAX_SONGS ->
    (Z.to_nat i + k <= length (entries params))%nat ->
    MAX_SONGS - j
    < Z.of_nat (length (List.filter Ownership.playable
                          (take k (drop (Z.to_nat i) (entries params))))) ->
    scan_entries k params i j start_song n_songs song_indices = None.
Proof.
  induction k as [|k IH]; intros i j start n idxs Hi Hj Hlen Hmany.
  - rewrite take_0 in Hmany. cbn in Hmany. lia.
  - cbn [scan_entries].
    destruct (entries params !! Z.to_nat i) as [entry|] eqn:E.
    2:{ apply lookup_ge_None in E. lia. }
    rewrite (drop_S _ _ _ E) in Hmany. cbn [take List.filter] in Hmany.
    assert (Hnext : Z.to_nat (i + 1) = S (Z.to_nat i)) by lia.
    unfold Ownership.playable in Hmany at 1.
    destruct (is_unknown (entry_codec entry)); cbn [negb] in Hmany |- *.
    + apply IH; [lia|lia|lia|]. rewrite Hnext. exact Hmany.
    + cbn [length] in Hmany.
      destruct (Z.ltb_spec j MAX_SONGS) as [Hlt|Hge]; [|reflexivity].
      apply IH; [lia|lia|lia|]. rewrite Hnext. lia.
Qed.

(** C7 fails on a directory of more than [MAX_SONGS] playable files, the
    listing of which [fops_list_dir] hands over whole.  For every listing
    with more than 1024 playable entries, whatever the allocator, the
    state and the heap, the call [player_task] makes of [make_playlist]
    writes past the end of [song_indices]: the behaviour is undefined, no
    playlist is established and so no index within one, and [player_task]
    has no defined behaviour after the call either. *)
Theorem make_playlist_overflows_song_indices (listing : list Entry) :
  Z.of_nat (length listing) <= INT_MAX ->
  MAX_SONGS < Z.of_nat (length (List.filter Ownership.playable listing)) ->
  (forall grant sizeof_Song PATH_MAX st h,
      make_playlist grant sizeof_Song PATH_MAX st (task_params listing) h = Fault) /\
  (forall grant sizeof_Song PATH_MAX has_decoder decoder_open decoder_info fs junk
          fuel w,
      player_task grant sizeof_Song PATH_MAX has_decoder decoder_open decoder_info
                  fs junk (Some listing) fuel w = Fault).
Proof.
  intros Hint Hmany.
  assert (Hscan : scan_entries (Z.to_nat (to_u32 (n_entries (task_params listing))))
                               (task_params listing) 0 0 0 0 [] = None).
  { cbn [task_params n_entries].
    rewrite to_u32_id by (unfold INT_MAX in Hint; lia).
    rewrite Nat2Z.id.
    apply scan_entries_overflow; cbn [task_params entries];
      [lia|unfold MAX_SONGS; lia|cbn; lia|].
    change (Z.to_nat 0) with 0%nat. rewrite drop_0, take_ge by lia. lia. }
  assert (Hmake : forall grant sizeof_Song PATH_MAX st h,
             make_playlist grant sizeof_Song PATH_MAX st (task_params listing) h = Fault).
  { intros grant sizeof_Song PATH_MAX st h. unfold make_playlist.
    cbn [task_params play_all]. unfold bind at 1.
    change (n_entries (task_params listing)) with (Z.of_nat (length listing)) in Hscan.
    cbn [task_params n_entries] in Hscan |- *.
    fold (task_params listing). rewrite Hscan. reflexivity. }
  split; [exact Hmake|].
  intros grant sizeof_Song PATH_MAX has_decoder decoder_open decoder_info fs junk fuel w.
  unfold player_task, bind, set_running, put_state, modify, get_state, on_heap, zoom.
  cbn [the_heap player_state].
  fold (task_params listing). rewrite Hmake. reflexivity.
Qed.

(** The theorem at a directory of 1025 MP3 files, "0000.mp3" to
    "1024.mp3". *)
Lemma make_playlist_overflows_song_indices_witness :
  make_playlist grant_all sizeof_Song_esp32 PATH_MAX_esp32 zero_state
                (task_params (numbered_files 1025)) empty_heap = Fault.
Proof.
  refine (proj1 (make_playlist_overflows_song_indices (numbered_files 1025) _ _)
                grant_all sizeof_Song_esp32 PATH_MAX_esp32 zero_state empty_heap).
  - vm_compute. discriminate.
  - vm_compute. reflexivity.
Defined.

(** *** Facts about the player task *)

(** A Terminate command ends the decode loop at the poll that receives
    it: the command is acknowledged and nothing is decoded after it. *)
Lemma decode_loop_terminate fuel info n_frames (w : world) rest :
  polls w = PlayerCmdTerminate :: rest ->
  decode_loop (S fuel) info n_frames w
  = Ret PlayerResultStop
        (mkWorld (the_heap w) (player_state w) (player_task_running w) rest
                 (frames w) (EvCmdAck :: EvWdtReset :: trace w)).
Proof.
  intros Hp. cbn [decode_loop]. unfold bind, emit, modify, player_poll_cmd.
  cbn. rewrite Hp. reflexivity.
Qed.

(** [player_teardown_task] ends at [vTaskDelete(NULL)]: the call of
    [free_playlist] that follows it is never reached, and the heap is as
    it was. *)
Lemma player_teardown_task_halts (w : world) :
  player_teardown_task w
  = Halt (mkWorld (the_heap w) (player_state w) (player_task_running w)
                  (polls w) (frames w) (EvTaskDelete :: EvWdtDelete :: trace w)).
Proof. reflexivity. Qed.


(** C3 on the run that ends in [terminated_world]: a directory holding
    "1.mp3" (a file without a tag, so that the display is handed two empty
    strings), Terminate delivered by the second poll.  The decode loop
    leaves at the poll that delivers Terminate: one chunk was decoded
    before it and none after.  The task
    ends inside [player_teardown_task], at [vTaskDelete(NULL)], with the
    playlist array (block 1) and the song's two strings (blocks 3 and 4)
    still allocated: the only blocks ever freed are the temporary [Song]
    (block 2) and the audio buffer (block 5).  [free_playlist] is never
    reached, in this run or any other. *)
Theorem player_task_terminate_leaks_playlist :
  player_task grant_all sizeof_Song_esp32 PATH_MAX_esp32
              decoder_any open_any info_cd card Id3.zero_junk
              (Some [mkEntry "1.mp3" 0 0 0]) 8
              (initial_world [PlayerCmdNone; PlayerCmdTerminate] [512; 512; 512])
  = Halt terminated_world /\
  trace terminated_world
  = [EvTaskDelete; EvWdtDelete; EvAudioTerminate; EvDecoderClose;
     EvCmdAck; EvWdtReset; EvAudioSubmit 512; EvDecode; EvWdtReset;
     EvAudioInit 44100; EvDecoderOpen "/sdcard/audio/1.mp3"; EvSetMetadata [] []] /\
  playlist (player_state terminated_world) = 1%nat /\
  map (fun s => (blk (filename s), blk (filepath s))) (songs (player_state terminated_world))
  = [(3%nat, 4%nat)] /\
  live (the_heap terminated_world) = [4%nat; 3%nat; 1%nat] /\
  released (the_heap terminated_world) = [5%nat; 2%nat] /\
  (forall w, exists w',
      player_teardown_task w = Halt w' /\ the_heap w' = the_heap w).
Proof.
  split; [vm_compute; reflexivity|].
  split; [vm_compute; reflexivity|].
  split; [vm_compute; reflexivity|].
  split; [vm_compute; reflexivity|].
  split; [vm_compute; reflexivity|].
  split; [vm_compute; reflexivity|].
  intros w. eexists. split; [apply player_teardown_task_halts|reflexivity].
Qed.

End PlayerFacts.

(* ===================================================================== *)
(** ** The debounce filter as a whole, sampling and the read callback *)
(* ===================================================================== *)

Module KeypadInputFacts.
Import CInt CIntFacts Keypad KeypadFacts KeypadInput.

Lemma to_u16_high z b : 16 <= b -> Z.testbit (to_u16 z) b = false.
Proof. intros H. unfold to_u16. apply Z.mod_pow2_bits_high. lia. Qed.

(** Two 16-bit values that agree on their sixteen bits are equal. *)
Lemma to_u16_ext x y :
  (forall b, 0 <= b < 16 -> Z.testbit x b = Z.testbit y b) ->
  to_u16 x = to_u16 y.
Proof.
  intros H. apply Z.bits_inj'. intros b Hb.
  destruct (Z.lt_ge_cases b 16) as [Hlt|Hge].
  - rewrite !to_u16_testbit by lia. apply H. lia.
  - rewrite !to_u16_high by lia. reflexivity.
Qed.

Lemma to_u16_idem z : to_u16 (to_u16 z) = to_u16 z.
Proof. unfold to_u16. apply Z.mod_mod. lia. Qed.

(** What a call leaves in the statics is 16 bits wide. *)
Lemma keypad_debounce_narrow k s :
  let k' := fst (keypad_debounce k s) in
  to_u16 (state k') = state k' /\ to_u16 (cnt0 k') = cnt0 k' /\
  to_u16 (cnt1 k') = cnt1 k' /\
  to_u16 (snd (keypad_debounce k s)) = snd (keypad_debounce k s).
Proof.
  unfold keypad_debounce. cbn [fst snd state cnt0 cnt1].
  repeat split; apply to_u16_idem.
Qed.

Lemma keypad_run_fst_cons k s rest :
  fst (keypad_run k (s :: rest)) = fst (keypad_run (fst (keypad_debounce k s)) rest).
Proof.
  cbn [keypad_run]. destruct (keypad_debounce k s) as [k1 m]. cbn [fst].
  destruct (keypad_run k1 rest). reflexivity.
Qed.

(** The three bits of the statics at position [b] after a call. *)
Lemma keypad_debounce_bits k s b :
  0 <= b < 16 ->
  let k' := fst (keypad_debounce k s) in
  (Z.testbit (state k') b, Z.testbit (cnt0 k') b, Z.testbit (cnt1 k') b)
  = fst (bit_step (Z.testbit (state k) b) (Z.testbit (cnt0 k) b)
                  (Z.testbit (cnt1 k) b) (Z.testbit s b)).
Proof.
  intros Hb. pose proof (keypad_debounce_bit k s b Hb) as H. cbv zeta in H |- *.
  destruct (bit_step (Z.testbit (state k) b) (Z.testbit (cnt0 k) b)
                     (Z.testbit (cnt1 k) b) (Z.testbit s b)) as [[[a1 a2] a3] a4].
  cbn [fst]. congruence.
Qed.

(** The filter after four calls with the same sample. *)
Lemma keypad_debounce_fourth (k : filter) (s : Z) :
  fst (keypad_debounce (fst (keypad_debounce (fst (keypad_debounce
    (fst (keypad_debounce k s)) s)) s)) s)
  = mkFilter (to_u16 s) 0 0.
Proof.
  set (k1 := fst (keypad_debounce k s)).
  set (k2 := fst (keypad_debounce k1 s)).
  set (k3 := fst (keypad_debounce k2 s)).
  set (k4 := fst (keypad_debounce k3 s)).
  assert (Hbits : forall b, 0 <= b < 16 ->
            (Z.testbit (state k4) b, Z.testbit (cnt0 k4) b, Z.testbit (cnt1 k4) b)
            = (Z.testbit s b, false, false)).
  { intros b Hb.
    pose proof (keypad_debounce_bits k s b Hb) as H1.
    pose proof (keypad_debounce_bits k1 s b Hb) as H2.
    pose proof (keypad_debounce_bits k2 s b Hb) as H3.
    pose proof (keypad_debounce_bits k3 s b Hb) as H4.
    cbv zeta in H1, H2, H3, H4. fold k1 in H1. fold k2 in H2. fold k3 in H3.
    fold k4 in H4. clearbody k1 k2 k3 k4.
    destruct (Z.testbit (state k) b), (Z.testbit (cnt0 k) b),
             (Z.testbit (cnt1 k) b), (Z.testbit s b);
      cbn in H1; injection H1 as E1 E2 E3; rewrite E1, E2, E3 in H2;
      cbn in H2; injection H2 as E4 E5 E6; rewrite E4, E5, E6 in H3;
      cbn in H3; injection H3 as E7 E8 E9; rewrite E7, E8, E9 in H4;
      exact H4. }
  destruct (keypad_debounce_narrow k3 s) as (Hs & H0 & H1 & _).
  fold k4 in Hs, H0, H1.
  destruct k4 as [st c0 c1]. cbn [state cnt0 cnt1] in *.
  f_equal.
  - rewrite <- Hs. apply to_u16_ext. intros b Hb.
    specialize (Hbits b Hb). congruence.
  - rewrite <- H0. change (to_u16 c0 = to_u16 0). apply to_u16_ext. intros b Hb.
    specialize (Hbits b Hb). rewrite Z.bits_0. congruence.
  - rewrite <- H1. change (to_u16 c1 = to_u16 0). apply to_u16_ext. intros b Hb.
    specialize (Hbits b Hb). rewrite Z.bits_0. congruence.
Qed.

(** A filter at rest on a sample stays there. *)
Lemma keypad_debounce_at_rest (s : Z) :
  keypad_debounce (mkFilter (to_u16 s) 0 0) s = (mkFilter (to_u16 s) 0 0, 0).
Proof.
  unfold keypad_debounce. cbn [state cnt0 cnt1].
  assert (Hd : to_u16 (Z.lxor s (to_u16 s)) = 0).
  { change 0 with (to_u16 0). apply to_u16_ext. intros b Hb.
    rewrite Z.lxor_spec, to_u16_testbit, Z.bits_0 by lia. apply xorb_nilpotent. }
  rewrite Hd. rewrite !Z.land_0_r. change (to_u16 0) with 0.
  cbn [Z.lor]. rewrite Z.land_0_l. change (to_u16 0) with 0.
  rewrite Z.lxor_0_r, to_u16_idem. reflexivity.
Qed.

(** X1.  Whatever the statics hold, four calls with the same sample leave
    the filter at rest on that sample: the state is the sample (as a
    [uint16_t]), both counters are clear, and a further call with the
    sample changes nothing and reports no change. *)
Theorem keypad_debounce_settles (k : filter) (s : Z) :
  let k4 := fst (keypad_run k [s; s; s; s]) in
  k4 = mkFilter (to_u16 s) 0 0 /\ keypad_debounce k4 s = (k4, 0).
Proof.
  cbv zeta. rewrite !keypad_run_fst_cons. cbn [keypad_run fst].
  rewrite keypad_debounce_fourth. split; [reflexivity|].
  apply keypad_debounce_at_rest.
Qed.

(** X2.  What the change mask means, bit by bit, for a 16-bit state: a
    bit is reported exactly when the returned state differs from the
    stored one there; a reported bit lies among the sixteen, carries the
    sampled value in the returned state and has its counter cleared; and a
    bit whose sample equals the stored state is not reported and has its
    counter cleared, so a bounce restarts the count. *)
Theorem keypad_debounce_changes (k : filter) (sample b : Z) :
  0 <= state k < 2 ^ 16 -> 0 <= b ->
  let k' := fst (keypad_debounce k sample) in
  let changes := snd (keypad_debounce k sample) in
  Z.testbit changes b = xorb (Z.testbit (state k) b) (Z.testbit (state k') b) /\
  (Z.testbit changes b = true ->
   b < 16 /\ Z.testbit (state k') b = Z.testbit sample b /\
   Z.testbit (cnt0 k') b = false /\ Z.testbit (cnt1 k') b = false) /\
  (Z.testbit sample b = Z.testbit (state k) b ->
   Z.testbit changes b = false /\
   Z.testbit (cnt0 k') b = false /\ Z.testbit (cnt1 k') b = false).
Proof.
  intros Hst Hb k' changes.
  destruct (Z.lt_ge_cases b 16) as [Hlt|Hge].
  - pose proof (keypad_debounce_bit k sample b ltac:(lia)) as H. cbv zeta in H.
    fold k' changes in H. clearbody k' changes.
    destruct (Z.testbit (state k) b), (Z.testbit (cnt0 k) b),
             (Z.testbit (cnt1 k) b), (Z.testbit sample b);
      cbn in H; injection H as -> -> -> ->;
      (split; [reflexivity|]); split; intros; try discriminate;
      repeat split; try reflexivity; try assumption.
  - destruct (keypad_debounce_narrow k sample) as (Hs & H0 & H1 & Hm).
    cbv zeta in Hs, H0, H1, Hm. fold k' in Hs, H0, H1. fold changes in Hm.
    rewrite <- Hs, <- H0, <- H1, <- Hm, !to_u16_high by lia.
    assert (Hk : Z.testbit (state k) b = false).
    { replace (state k) with (to_u16 (state k))
        by (unfold to_u16; apply Z.mod_small; lia).
      apply to_u16_high. lia. }
    rewrite Hk. split; [reflexivity|]. split; [discriminate|]. auto.
Qed.

(** The theorem at the filter's initial statics, bit 2 (KEYPAD_UP), for a
    sample with that button down. *)
Lemma keypad_debounce_changes_witness :
  let k' := fst (keypad_debounce zero 4) in
  let changes := snd (keypad_debounce zero 4) in
  Z.testbit changes 2 = xorb (Z.testbit (state zero) 2) (Z.testbit (state k') 2) /\
  (Z.testbit changes 2 = true ->
   2 < 16 /\ Z.testbit (state k') 2 = Z.testbit 4 2 /\
   Z.testbit (cnt0 k') 2 = false /\ Z.testbit (cnt1 k') 2 = false) /\
  (Z.testbit 4 2 = Z.testbit (state zero) 2 ->
   Z.testbit changes 2 = false /\
   Z.testbit (cnt0 k') 2 = false /\ Z.testbit (cnt1 k') 2 = false).
Proof.
  apply (keypad_debounce_changes zero 4 2).
  - cbn. lia.
  - lia.
Defined.

Lemma all_bytes_complete (d : byte) : d ∈ all_bytes.
Proof.
  unfold all_bytes. apply list_elem_of_fmap.
  exists (N.to_nat (Byte.to_N d)). split.
  - unfold Id3.byte_of.
    pose proof (Byte.to_N_bounded d) as Hb.
    rewrite Z.mod_small by lia.
    replace (Z.to_N (Z.of_nat (N.to_nat (Byte.to_N d)))) with (Byte.to_N d) by lia.
    rewrite Byte.of_to_N. reflexivity.
  - apply elem_of_seq. pose proof (Byte.to_N_bounded d). lia.
Qed.

(** A test that passes on every byte value holds of each byte. *)
Lemma byte_forallb (p : byte -> bool) :
  forallb p all_bytes = true -> forall d, p d = true.
Proof.
  intros H d. rewrite forallb_forall in H. apply H.
  apply list_elem_of_In. apply all_bytes_complete.
Qed.

Lemma in_range_b lo x hi : (lo <=? x) && (x <? hi) = true -> lo <= x < hi.
Proof. intros H. apply andb_true_iff in H as [H1 H2]. lia. Qed.

(** X3.  [keypad_sample] is active low: the eight expander buttons are
    the complement of the byte read, the three GPIO buttons are set while
    their line reads 0, and no other bit is ever set.  A failed I2C
    transfer reads as no expander button held. *)
Theorem keypad_sample_active_low (io : lines) :
  keypad_sample io
  = Z.land (Z.lnot (i2c_keypad_read (received io))) 0xFF + gpio_buttons io /\
  keypad_sample (mkLines None (level_menu io) (level_l io) (level_r io))
  = gpio_buttons io /\
  0 <= keypad_sample io < 2048.
Proof.
  destruct io as [r m l rr].
  unfold keypad_sample, gpio_buttons, or_if.
  cbn [received level_menu level_l level_r].
  destruct (m =? 0), (l =? 0), (rr =? 0);
    (split;
     [destruct r as [d|];
      [apply Z.eqb_eq; revert d; apply byte_forallb|]; vm_compute; reflexivity|]);
    (split; [vm_compute; reflexivity|]);
    (destruct r as [d|];
     [apply in_range_b; revert d; apply byte_forallb; vm_compute; reflexivity
     |vm_compute; split; congruence]).
Qed.

Lemma keypad_sample_narrow io : to_u16 (keypad_sample io) = keypad_sample io.
Proof.
  destruct (keypad_sample_active_low io) as (_ & _ & H).
  unfold to_u16. apply Z.mod_small. lia.
Qed.

Lemma pow2_two_bits (n gs i j : Z) :
  0 <= n -> 0 <= i -> 0 <= j -> i <> j ->
  Z.testbit gs i = true -> Z.testbit gs j = true -> gs <> 2 ^ n.
Proof.
  intros Hn Hi Hj Hij Bi Bj ->.
  rewrite Z.pow2_bits_eqb in Bi, Bj by lia.
  apply Z.eqb_eq in Bi, Bj. lia.
Qed.

(** X4.  A chord is ignored: when the debounced state has two or more
    buttons set, [lv_keypad_read] reports RELEASED, leaves [data->key]
    alone and calls neither [app_shutdown] nor a volume function. *)
Theorem lv_keypad_read_chord_ignored (k : filter) (io : lines) (i j : Z) :
  0 <= i -> 0 <= j -> i <> j ->
  let gamepad_state := state (fst (fst (lv_keypad_read k io))) in
  Z.testbit gamepad_state i = true -> Z.testbit gamepad_state j = true ->
  snd (lv_keypad_read k io) = released no_action.
Proof.
  intros Hi Hj Hij. unfold lv_keypad_read.
  destruct (keypad_debounce k (keypad_sample io)) as [k' changes].
  cbn [fst snd]. intros Bi Bj.
  pose proof (fun n Hn => pow2_two_bits n (state k') i j Hn Hi Hj Hij Bi Bj) as Hne.
  unfold dispatch, KEYPAD_UP, KEYPAD_DOWN, KEYPAD_LEFT, KEYPAD_RIGHT,
    KEYPAD_A, KEYPAD_B, KEYPAD_MENU, KEYPAD_L, KEYPAD_R.
  repeat match goal with
         | |- context [state k' =? ?c] =>
             destruct (Z.eqb_spec (state k') c) as [E|_];
             [exfalso; first
                [ apply (Hne 2 ltac:(lia)); exact E
                | apply (Hne 3 ltac:(lia)); exact E
                | apply (Hne 4 ltac:(lia)); exact E
                | apply (Hne 5 ltac:(lia)); exact E
                | apply (Hne 6 ltac:(lia)); exact E
                | apply (Hne 7 ltac:(lia)); exact E
                | apply (Hne 8 ltac:(lia)); exact E
                | apply (Hne 9 ltac:(lia)); exact E
                | apply (Hne 10 ltac:(lia)); exact E ]|]
         end.
  reflexivity.
Qed.

(** The theorem on a filter that holds UP and DOWN, polled with both
    still held. *)
Lemma lv_keypad_read_chord_ignored_witness :
  snd (lv_keypad_read (mkFilter 12 0 0) up_and_down) = released no_action.
Proof.
  apply (lv_keypad_read_chord_ignored (mkFilter 12 0 0) up_and_down 2 3);
    try lia; reflexivity.
Defined.

Lemma lv_polls_at_rest (io : lines) (n : nat) :
  lv_polls (mkFilter (keypad_sample io) 0 0) (replicate n io)
  = replicate n (dispatch (keypad_sample io)).
Proof.
  induction n as [|n IH]; [reflexivity|].
  cbn [replicate lv_polls]. unfold lv_keypad_read.
  pose proof (keypad_debounce_at_rest (keypad_sample io)) as H.
  rewrite keypad_sample_narrow in H. rewrite H. cbn [state].
  f_equal. exact IH.
Qed.

(** X5.  Whatever the filter holds, from the fourth poll on of lines that
    do not change, [lv_keypad_read] reports the buttons as they are
    sampled: the report is the one the comparison chain gives for
    [keypad_sample]. *)
Theorem lv_polls_steady (k : filter) (io : lines) (n : nat) :
  drop 3 (lv_polls k (replicate (4 + n) io))
  = replicate (1 + n) (dispatch (keypad_sample io)).
Proof.
  cbn [Nat.add replicate lv_polls]. unfold lv_keypad_read.
  set (s := keypad_sample io).
  pose proof (keypad_debounce_fourth k s) as H4.
  destruct (keypad_debounce k s) as [k1 m1]. cbn [fst] in H4.
  destruct (keypad_debounce k1 s) as [k2 m2]. cbn [fst] in H4.
  destruct (keypad_debounce k2 s) as [k3 m3]. cbn [fst] in H4.
  destruct (keypad_debounce k3 s) as [k4 m4]. cbn [fst] in H4.
  cbn [drop]. subst k4 s. rewrite keypad_sample_narrow. cbn [state].
  f_equal. apply lv_polls_at_rest.
Qed.

End KeypadInputFacts.

(* ===================================================================== *)
(** ** The volume *)
(* ===================================================================== *)

Module AudioFacts.
Import CInt CIntFacts Audio.

Lemma audio_volume_set_clamped v a :
  let a' := fst (audio_volume_set v a) in
  audio_volume a' = Z.max 0 (Z.min 100 v) /\ audio_volume_f a' = audio_volume a'.
Proof.
  unfold audio_volume_set. cbn [fst audio_volume audio_volume_f].
  destruct (Z.ltb_spec 100 v); [lia|]. destruct (Z.ltb_spec v 0); lia.
Qed.

Lemma volume_step_in_range c s :
  0 <= audio_volume (fst s) <= 100 ->
  exists s', volume_step c s = Some s' /\
    0 <= audio_volume (fst s') <= 100 /\
    audio_volume_f (fst s') = audio_volume (fst s').
Proof.
  intros H. destruct c as [| |value|v]; cbn [volume_step].
  - unfold ui_increase_volume, audio_volume_get.
    rewrite c_add_in_range by (unfold INT_MIN, INT_MAX; lia).
    cbn [mbind option_bind]. eexists. split; [reflexivity|]. cbn [fst].
    destruct (audio_volume_set_clamped (audio_volume (fst s) + 1) (fst s)) as [E F].
    cbv zeta in E, F. rewrite F, E. lia.
  - unfold ui_decrease_volume, audio_volume_get.
    rewrite c_add_in_range by (unfold INT_MIN, INT_MAX; lia).
    cbn [mbind option_bind]. eexists. split; [reflexivity|]. cbn [fst].
    destruct (audio_volume_set_clamped (audio_volume (fst s) + -1) (fst s)) as [E F].
    cbv zeta in E, F. rewrite F, E. lia.
  - eexists. split; [reflexivity|]. unfold slider_changed. cbn [fst].
    destruct (audio_volume_set_clamped value (fst s)) as [E F].
    cbv zeta in E, F. rewrite F, E. lia.
  - eexists. split; [reflexivity|]. cbn [fst].
    destruct (audio_volume_set_clamped v (fst s)) as [E F].
    cbv zeta in E, F. rewrite F, E. lia.
Qed.

(** X6.  From start-up on, whatever sequence of volume calls is made
    ([ui_increase_volume], [ui_decrease_volume], a slider event or
    [audio_volume_set] with any argument), no call meets undefined
    arithmetic, the stored volume stays between 0 and 100, and the scaling
    factor [audio_volume_f] is the hundredth of the stored volume. *)
Theorem volume_stays_in_range (calls : list volume_call) :
  exists s, volume_run calls at_start = Some s /\
    0 <= audio_volume (fst s) <= 100 /\
    audio_volume_f (fst s) = audio_volume (fst s).
Proof.
  assert (G : forall s0, 0 <= audio_volume (fst s0) <= 100 ->
              audio_volume_f (fst s0) = audio_volume (fst s0) ->
              exists s, volume_run calls s0 = Some s /\
                0 <= audio_volume (fst s) <= 100 /\
                audio_volume_f (fst s) = audio_volume (fst s)).
  { induction calls as [|c rest IH]; intros s0 Hr Hf.
    - exists s0. auto.
    - cbn [volume_run].
      destruct (volume_step_in_range c s0 Hr) as (s' & -> & Hr' & Hf').
      cbn [mbind option_bind]. apply IH; assumption. }
  apply G; unfold at_start, initial, AUDIO_VOLUME_DEFAULT; cbn; [lia|reflexivity].
Qed.

(** X7.  With the stored volume between 0 and 100, [ui_increase_volume]
    stores the volume plus one, capped at 100, and [ui_decrease_volume]
    the volume minus one, floored at 0; both print on the label the
    uncapped number.  So the label shows the stored volume except at the
    ends: increasing at 100 prints 101 and decreasing at 0 prints -1. *)
Theorem ui_volume_label (a : statics) :
  0 <= audio_volume a <= 100 ->
  exists a1 w1 a2 w2,
    ui_increase_volume a = Some (a1, w1) /\
    ui_decrease_volume a = Some (a2, w2) /\
    audio_volume a1 = Z.min 100 (audio_volume a + 1) /\
    vol_value w1 = audio_volume a + 1 /\
    audio_volume a2 = Z.max 0 (audio_volume a - 1) /\
    vol_value w2 = audio_volume a - 1 /\
    (vol_value w1 = audio_volume a1 <-> audio_volume a < 100) /\
    (vol_value w2 = audio_volume a2 <-> 0 < audio_volume a).
Proof.
  intros H. unfold ui_increase_volume, ui_decrease_volume, audio_volume_get.
  rewrite !c_add_in_range by (unfold INT_MIN, INT_MAX; lia).
  cbn [mbind option_bind]. eexists _, _, _, _.
  split; [reflexivity|]. split; [reflexivity|]. cbn [vol_value].
  destruct (audio_volume_set_clamped (audio_volume a + 1) a) as [E1 _].
  destruct (audio_volume_set_clamped (audio_volume a + -1) a) as [E2 _].
  cbv zeta in E1, E2. rewrite E1, E2. lia.
Qed.

(** The theorem at full volume. *)
Lemma ui_volume_label_witness :
  exists a1 w1 a2 w2,
    ui_increase_volume (mkStatics 100 100) = Some (a1, w1) /\
    ui_decrease_volume (mkStatics 100 100) = Some (a2, w2) /\
    audio_volume a1 = Z.min 100 (100 + 1) /\
    vol_value w1 = 100 + 1 /\
    audio_volume a2 = Z.max 0 (100 - 1) /\
    vol_value w2 = 100 - 1 /\
    (vol_value w1 = audio_volume a1 <-> 100 < 100) /\
    (vol_value w2 = audio_volume a2 <-> 0 < 100).
Proof.
  apply (ui_volume_label (mkStatics 100 100)). cbn. lia.
Defined.

End AudioFacts.

(* ===================================================================== *)
(** ** Loading the path table *)
(* ===================================================================== *)

Module LoadingFacts.
Import CInt CIntFacts Playlist PlaylistFacts Loading.

Lemma chars_app (a b : string) :
  Player.chars (a ++ b) = Player.chars a ++ Player.chars b.
Proof.
  unfold Player.chars. induction a as [|c a IH]; simpl; [reflexivity|].
  f_equal. exact IH.
Qed.

Lemma strlen_entry_path dir_path entry :
  Player.strlen (entry_path dir_path entry)
  = Player.strlen dir_path + 1 + Player.strlen (d_name entry).
Proof.
  unfold entry_path, Player.strlen. rewrite !chars_app, !length_app.
  cbn [Player.chars list_ascii_of_string length]. lia.
Qed.

Lemma strlen_nonneg s : 0 <= Player.strlen s.
Proof. unfold Player.strlen. lia. Qed.

(** The loop from row [index] on: it writes the paths of the entries kept,
    in order, until the table holds [max_list] paths. *)
Lemma readdir_loop_spec dir_path max_list :
  forall pending table index,
    addressable dir_path pending ->
    0 <= index <= max_list -> max_list <= Z.of_nat (length table) ->
    max_list <= INT_MAX ->
    let found := map (entry_path dir_path)
                     (take (Z.to_nat (max_list - index))
                           (List.filter (kept dir_path) pending)) in
    readdir_loop dir_path max_list pending table index
    = Some (take (Z.to_nat index) table ++ found
            ++ drop (Z.to_nat index + length found) table,
            index + Z.of_nat (length found)).
Proof.
  induction pending as [|entry rest IH]; intros table index Haddr Hi Hmax Hint found.
  - subst found. cbn [readdir_loop List.filter]. rewrite take_nil. cbn [map app length].
    rewrite Nat.add_0_r, take_drop, Z.add_0_r. reflexivity.
  - apply Forall_cons in Haddr as [Ha Haddr].
    pose proof (strlen_nonneg dir_path) as Hd.
    pose proof (strlen_nonneg (d_name entry)) as Hn.
    cbn [readdir_loop].
    destruct (Z.ltb_spec index max_list) as [Hlt|Hge].
    2:{ subst found. replace (Z.to_nat (max_list - index)) with 0%nat by lia.
        rewrite take_0. cbn [map app length].
        rewrite Nat.add_0_r, take_drop, Z.add_0_r. reflexivity. }
    assert (Hskip : kept dir_path entry = false ->
              found = map (entry_path dir_path)
                        (take (Z.to_nat (max_list - index))
                              (List.filter (kept dir_path) rest))).
    { intros Hk. subst found. cbn [List.filter]. rewrite Hk. reflexivity. }
    assert (Hsum : to_u32 (to_u32 (Player.strlen dir_path) + 1
                           + to_u32 (Player.strlen (d_name entry)) + 1)
                   = Player.strlen dir_path + 1 + Player.strlen (d_name entry) + 1).
    { rewrite (to_u32_id (Player.strlen dir_path)) by lia.
      rewrite (to_u32_id (Player.strlen (d_name entry))) by lia.
      apply to_u32_id. lia. }
    rewrite Hsum.
    destruct (d_is_dir entry) eqn:Edir.
    { rewrite Hskip by (unfold kept; rewrite Edir; reflexivity).
      apply IH; assumption. }
    destruct (has_mp3_suffix (d_name entry)) eqn:Emp3.
    2:{ rewrite Hskip by (unfold kept; rewrite Edir, Emp3; reflexivity).
        apply IH; assumption. }
    destruct (Z.leb_spec (Player.strlen dir_path + 1 + Player.strlen (d_name entry) + 1)
                         MAX_FILENAME_LENGTH) as [Hfit|Hfit]; cbn [andb].
    2:{ rewrite Hskip.
        - apply IH; assumption.
        - unfold kept. rewrite Edir, Emp3. cbn [negb andb].
          apply Z.leb_gt. exact Hfit. }
    rewrite strlen_entry_path.
    destruct (Z.leb_spec (Player.strlen dir_path + 1 + Player.strlen (d_name entry) + 1)
                         MAX_FILENAME_LENGTH); [|lia].
    destruct (Z.leb_spec 0 index); [|lia].
    destruct (Z.ltb_spec index (Z.of_nat (length table))); [|lia].
    cbn [andb].
    rewrite c_add_in_range by (unfold INT_MIN, INT_MAX in *; lia).
    cbn [mbind option_bind].
    rewrite IH; try assumption; try lia; [|rewrite length_insert; lia].
    assert (Hk : kept dir_path entry = true).
    { unfold kept. rewrite Edir, Emp3. cbn [negb andb]. apply Z.leb_le. exact Hfit. }
    subst found. cbn [List.filter]. rewrite Hk.
    replace (Z.to_nat (max_list - index))
      with (S (Z.to_nat (max_list - (index + 1)))) by lia.
    cbn [take map length app].
    set (more := map (entry_path dir_path) _).
    f_equal. f_equal; [|lia].
    replace (Z.to_nat (index + 1)) with (S (Z.to_nat index)) by lia.
    assert (Hlk : <[Z.to_nat index := entry_path dir_path entry]> table !! Z.to_nat index
                  = Some (entry_path dir_path entry))
      by (apply list_lookup_insert_eq; lia).
    rewrite (take_S_r _ _ _ Hlk), take_insert_ge by lia.
    rewrite drop_insert_lt by lia.
    rewrite <- app_assoc. cbn [app]. do 4 f_equal. lia.
Qed.

Lemma listed_length dir_path entries max_list :
  0 <= max_list -> Z.of_nat (length (listed dir_path entries max_list)) <= max_list.
Proof.
  intros H. unfold listed. rewrite length_map, length_take. lia.
Qed.

Lemma listed_fit dir_path entries max_list :
  Forall (fun p => Player.strlen p < MAX_FILENAME_LENGTH)
         (listed dir_path entries max_list).
Proof.
  unfold listed. apply Forall_map. apply Forall_take.
  apply List.Forall_forall. intros e He. apply filter_In in He as [_ Hk].
  cbn beta. rewrite strlen_entry_path.
  unfold kept in Hk. apply andb_true_iff in Hk as [_ Hk]. apply Z.leb_le in Hk. lia.
Qed.

Lemma list_files_on_sdcard_some dir_path entries table max_list :
  addressable dir_path entries ->
  0 <= max_list <= INT_MAX -> max_list <= Z.of_nat (length table) ->
  list_files_on_sdcard dir_path (Some entries) table max_list
  = Some (listed dir_path entries max_list
          ++ drop (length (listed dir_path entries max_list)) table,
          Z.of_nat (length (listed dir_path entries max_list))).
Proof.
  intros Ha Hm Hl. unfold list_files_on_sdcard.
  rewrite readdir_loop_spec by (try assumption; lia).
  cbv zeta. rewrite Z.sub_0_r. change (Z.to_nat 0) with 0%nat.
  rewrite take_0. reflexivity.
Qed.

(** X8.  [list_files_on_sdcard] on a table of at least [max_list] rows:
    the rows it fills are, in directory order, the paths
    [dir_path/d_name] of the first [max_list] entries that are not
    directories, have a name of more than four characters ending in
    ".mp3" in any letter case, and whose path fits a row with its
    terminator; the count returned is their number, at most [max_list];
    every other row is left as it was, and every path stored is shorter
    than MAX_FILENAME_LENGTH.  A directory that does not open gives 0 and
    leaves the table alone. *)
Theorem list_files_on_sdcard_lists (dir_path : string) (entries : list dirent)
    (table : list string) (max_list : Z) :
  addressable dir_path entries ->
  0 <= max_list <= INT_MAX -> max_list <= Z.of_nat (length table) ->
  let found := listed dir_path entries max_list in
  list_files_on_sdcard dir_path (Some entries) table max_list
  = Some (found ++ drop (length found) table, Z.of_nat (length found)) /\
  Z.of_nat (length found) <= max_list /\
  Forall (fun p => Player.strlen p < MAX_FILENAME_LENGTH) found /\
  list_files_on_sdcard dir_path None table max_list = Some (table, 0).
Proof.
  intros Ha Hm Hl found. subst found.
  split; [apply list_files_on_sdcard_some; assumption|].
  split; [apply listed_length; lia|].
  split; [apply listed_fit|reflexivity].
Qed.

(** The theorem on a directory of five entries and a table of three rows,
    two of which may be filled. *)
Lemma list_files_on_sdcard_lists_witness :
  let found := listed "/sdcard/audio" sample_dir 2 in
  list_files_on_sdcard "/sdcard/audio" (Some sample_dir) ["x"; "y"; "z"]%string 2
  = Some (found ++ drop (length found) ["x"; "y"; "z"]%string,
          Z.of_nat (length found)) /\
  Z.of_nat (length found) <= 2 /\
  Forall (fun p => Player.strlen p < MAX_FILENAME_LENGTH) found /\
  list_files_on_sdcard "/sdcard/audio" None ["x"; "y"; "z"]%string 2
  = Some (["x"; "y"; "z"]%string, 0).
Proof.
  apply (list_files_on_sdcard_lists "/sdcard/audio" sample_dir ["x"; "y"; "z"]%string 2).
  - unfold addressable, sample_dir. repeat constructor; vm_compute; reflexivity.
  - unfold INT_MAX. lia.
  - cbn. lia.
Defined.

(** X9.  [playlist_load_from_directory] on a manager whose table has its
    MAX_PLAYLISTS rows: it returns, the count it stores is between 0 and
    MAX_PLAYLISTS, the index is 0, and the value returned tells whether a
    path was loaded.  When it is true the index addresses a loaded row;
    when it is false [playlist_get_current] is NULL.  In both cases what
    [playlist_get_current] points to is the first path listed, if any. *)
Theorem playlist_load_from_directory_index (pl : playlist_manager_t)
    (dir_path : string) (dir : option (list dirent)) :
  length (playlists pl) = Z.to_nat MAX_PLAYLISTS ->
  (forall entries, dir = Some entries -> addressable dir_path entries) ->
  exists pl' ok,
    playlist_load_from_directory pl dir_path dir = Some (pl', ok) /\
    0 <= num_playlists pl' <= MAX_PLAYLISTS /\
    current_index pl' = 0 /\
    (ok = true <-> 0 < num_playlists pl') /\
    (ok = true -> index_ok pl') /\
    (ok = false -> playlist_get_current pl' = NULL) /\
    deref pl' (playlist_get_current pl')
    = head (match dir with
            | Some entries => listed dir_path entries MAX_PLAYLISTS
            | None => []
            end).
Proof.
  intros Hrows Haddr. unfold playlist_load_from_directory.
  destruct dir as [entries|].
  - rewrite list_files_on_sdcard_some;
      [|apply Haddr; reflexivity|unfold MAX_PLAYLISTS, INT_MAX; lia
       |rewrite Hrows; unfold MAX_PLAYLISTS; lia].
    cbn [mbind option_bind fst snd set_index playlists num_playlists current_index].
    pose proof (listed_length dir_path entries MAX_PLAYLISTS
                  ltac:(unfold MAX_PLAYLISTS; lia)) as Hlen.
    set (found := listed dir_path entries MAX_PLAYLISTS) in *.
    eexists _, _. split; [reflexivity|].
    cbn [set_index num_playlists current_index playlists].
    split; [lia|]. split; [reflexivity|].
    split; [apply Z.ltb_lt|].
    split; [intros H; apply Z.ltb_lt in H; unfold index_ok; cbn; lia|].
    unfold playlist_get_current, deref.
    cbn [set_index num_playlists current_index playlists].
    split.
    + intros H. apply Z.ltb_ge in H.
      destruct (Z.eqb_spec (Z.of_nat (length found)) 0); [reflexivity|lia].
    + destruct found as [|p found']; [reflexivity|]. cbn [length].
      destruct (Z.eqb_spec (Z.of_nat (S (length found'))) 0); [lia|].
      reflexivity.
  - cbn [list_files_on_sdcard mbind option_bind fst snd set_index
           playlists num_playlists current_index].
    eexists _, _. split; [reflexivity|].
    cbn [set_index num_playlists current_index playlists]. unfold MAX_PLAYLISTS.
    split; [lia|]. split; [reflexivity|].
    split; [split; [discriminate|lia]|].
    split; [discriminate|]. split; reflexivity.
Qed.

(** The theorem on the zeroed manager and [sample_dir]. *)
Lemma playlist_load_from_directory_index_witness :
  exists pl' ok,
    playlist_load_from_directory playlist_init "/sdcard/audio" (Some sample_dir)
    = Some (pl', ok) /\
    0 <= num_playlists pl' <= MAX_PLAYLISTS /\
    current_index pl' = 0 /\
    (ok = true <-> 0 < num_playlists pl') /\
    (ok = true -> index_ok pl') /\
    (ok = false -> playlist_get_current pl' = NULL) /\
    deref pl' (playlist_get_current pl')
    = head (listed "/sdcard/audio" sample_dir MAX_PLAYLISTS).
Proof.
  apply (playlist_load_from_directory_index playlist_init "/sdcard/audio"
           (Some sample_dir)).
  - reflexivity.
  - intros entries [= <-]. unfold addressable, sample_dir.
    repeat constructor; vm_compute; reflexivity.
Defined.

(** X10.  On a manager that holds between 1 and MAX_PLAYLISTS paths with
    its index on one of them, [playlist_prev] undoes [playlist_next] and
    [playlist_next] undoes [playlist_prev]: each pair of calls is defined
    and leaves the manager exactly as it was. *)
Theorem playlist_next_prev_round_trip (pl : playlist_manager_t) :
  0 < num_playlists pl <= MAX_PLAYLISTS -> index_ok pl ->
  (playlist_next pl ≫= playlist_prev) = Some pl /\
  (playlist_prev pl ≫= playlist_next) = Some pl.
Proof.
  intros Hn Hi. unfold index_ok in Hi.
  rewrite playlist_next_nonempty, playlist_prev_nonempty by assumption.
  cbn [mbind option_bind].
  set (L := num_playlists pl) in *. set (i := current_index pl) in *.
  assert (Hnx : 0 <= (i + 1) mod L < L) by (apply Z.mod_pos_bound; lia).
  assert (Hpv : 0 <= (i - 1 + L) mod L < L) by (apply Z.mod_pos_bound; lia).
  rewrite playlist_prev_nonempty, playlist_next_nonempty
    by (unfold index_ok; cbn [set_index num_playlists current_index]; assumption).
  cbn [set_index num_playlists current_index playlists]. fold L.
  assert (E1 : ((i + 1) mod L - 1 + L) mod L = i).
  { replace ((i + 1) mod L - 1 + L) with ((i + 1) mod L + (L - 1)) by lia.
    rewrite Zplus_mod_idemp_l. replace (i + 1 + (L - 1)) with (i + 1 * L) by lia.
    rewrite Z_mod_plus_full. apply Z.mod_small. lia. }
  assert (E2 : ((i - 1 + L) mod L + 1) mod L = i).
  { rewrite Zplus_mod_idemp_l. replace (i - 1 + L + 1) with (i + 1 * L) by lia.
    rewrite Z_mod_plus_full. apply Z.mod_small. lia. }
  rewrite E1, E2. subst L i. destruct pl; split; reflexivity.
Qed.

(** The round trip on a manager of three paths, positioned on the last. *)
Lemma playlist_next_prev_round_trip_witness :
  (playlist_next three_paths ≫= playlist_prev) = Some three_paths /\
  (playlist_prev three_paths ≫= playlist_next) = Some three_paths.
Proof.
  apply (playlist_next_prev_round_trip three_paths).
  - unfold MAX_PLAYLISTS. cbn. lia.
  - unfold index_ok. cbn. lia.
Defined.

Lemma tolower_code_eq (a b : ascii) :
  Z.of_nat (nat_of_ascii (Player.tolower a))
  - Z.of_nat (nat_of_ascii (Player.tolower b)) = 0 ->
  Player.tolower a = Player.tolower b.
Proof.
  intros H. assert (E : nat_of_ascii (Player.tolower a) = nat_of_ascii (Player.tolower b))
    by lia.
  apply (f_equal ascii_of_nat) in E. rewrite !ascii_nat_embedding in E. exact E.
Qed.

(** X26.  The two listings agree on what [list_files_on_sdcard] keeps:
    a name it accepts as an MP3 file (more than four characters, ending in
    ".mp3" in any letter case) is classified MP3 by the player's
    [fops_determine_filetype] and [choose_codec] as well. *)
Theorem listed_names_are_mp3 (d_name : string) (size mode mtime : Z) :
  has_mp3_suffix d_name = true ->
  Player.entry_codec (Player.mkEntry d_name size mode mtime) = Player.AudioCodecMP3.
Proof.
  unfold has_mp3_suffix, Player.strlen. intros H.
  apply andb_true_iff in H as [Hlen Hcmp].
  apply Z.ltb_lt in Hlen. apply Z.eqb_eq in Hcmp.
  set (cs := Player.chars d_name) in *.
  replace (Z.to_nat (Z.of_nat (length cs) - 4)) with (length cs - 4)%nat in Hcmp by lia.
  assert (Hl : length (drop (length cs - 4) cs) = 4%nat) by (rewrite length_drop; lia).
  destruct (drop (length cs - 4) cs) as [|a [|b [|c [|d [|e l]]]]] eqn:Hd;
    try discriminate Hl.
  cbn [strcasecmp Player.chars list_ascii_of_string] in Hcmp.
  repeat match type of Hcmp with
         | (if ?x =? 0 then _ else _) = 0 =>
             let E := fresh "E" in
             destruct (Z.eqb_spec x 0) as [E|E]; [|contradiction]
         end.
  apply tolower_code_eq in E0, E1, E2.
  unfold Player.entry_codec. rewrite PlayerFacts.fops_determine_filetype_unfold.
  cbv zeta. cbn [Player.name]. unfold Player.strlen. fold cs.
  destruct (Z.ltb_spec (Z.of_nat (length cs)) 4); [lia|].
  assert (Hmp3 : Player.ends_ci "mp3" d_name = true).
  { apply PlayerFacts.ends_ci_iff; [split; [vm_compute; reflexivity|reflexivity]|].
    exists (take (length cs - 4) cs ++ [a]), [b; c; d]. split.
    - fold cs. rewrite <- app_assoc. cbn [app]. rewrite <- Hd. symmetry.
      apply take_drop.
    - cbn [map]. rewrite E0, E1, E2. reflexivity. }
  rewrite Hmp3. reflexivity.
Qed.

(** The theorem on the name "a.MP3". *)
Lemma listed_names_are_mp3_witness :
  Player.entry_codec (Player.mkEntry "a.MP3" 0 0 0) = Player.AudioCodecMP3.
Proof. apply (listed_names_are_mp3 "a.MP3" 0 0 0). reflexivity. Defined.

End LoadingFacts.

(* ===================================================================== *)
(** ** The ID3v2 parser on sizes, text frames and whole tags *)
(* ===================================================================== *)

Module Id3TagFacts.
Import CInt CIntFacts Mon Id3 Id3Facts Id3Tag.
Local Open Scope mon_scope.

(** Bits shifted clear of a low part add up with it. *)
Lemma lor_shiftl_low (hi lo k : Z) :
  0 <= k -> 0 <= lo < 2 ^ k ->
  Z.lor (Z.shiftl hi k) lo = hi * 2 ^ k + lo.
Proof.
  intros Hk Hlo.
  assert (Hand : Z.land (Z.shiftl hi k) lo = 0).
  { apply Z.bits_inj'. intros n Hn. rewrite Z.land_spec, Z.bits_0.
    destruct (Z.lt_ge_cases n k) as [Hlt|Hge].
    - rewrite Z.shiftl_spec_low by lia. reflexivity.
    - replace lo with (lo mod 2 ^ k) by (apply Z.mod_small; lia).
      rewrite Z.mod_pow2_bits_high by lia. apply andb_false_r. }
  pose proof (Z.add_lor_land (Z.shiftl hi k) lo) as H.
  rewrite Hand, Z.add_0_r in H. rewrite H. rewrite Z.shiftl_mul_pow2 by lia.
  reflexivity.
Qed.

Lemma land_7F z : Z.land z 0x7F = z mod 128.
Proof. change 0x7F with (Z.ones 7). rewrite Z.land_ones by lia. reflexivity. Qed.

(** Four seven-bit groups, most significant first. *)
Lemma lor_groups_7 (a b c d : Z) :
  0 <= a < 128 -> 0 <= b < 128 -> 0 <= c < 128 -> 0 <= d < 128 ->
  Z.lor (Z.lor (Z.lor (Z.shiftl a 21) (Z.shiftl b 14)) (Z.shiftl c 7)) d
  = a * 2 ^ 21 + b * 2 ^ 14 + c * 2 ^ 7 + d.
Proof.
  intros Ha Hb Hc Hd.
  rewrite (Z.shiftl_mul_pow2 b 14), (Z.shiftl_mul_pow2 c 7) by lia.
  rewrite (lor_shiftl_low a (b * 2 ^ 14) 21) by lia.
  replace (a * 2 ^ 21 + b * 2 ^ 14) with ((a * 2 ^ 7 + b) * 2 ^ 14) by lia.
  rewrite <- (Z.shiftl_mul_pow2 (a * 2 ^ 7 + b) 14) by lia.
  rewrite (lor_shiftl_low (a * 2 ^ 7 + b) (c * 2 ^ 7) 14) by lia.
  replace ((a * 2 ^ 7 + b) * 2 ^ 14 + c * 2 ^ 7)
    with (((a * 2 ^ 7 + b) * 2 ^ 7 + c) * 2 ^ 7) by lia.
  rewrite <- (Z.shiftl_mul_pow2 ((a * 2 ^ 7 + b) * 2 ^ 7 + c) 7) by lia.
  rewrite lor_shiftl_low by lia. rewrite ?Z.shiftl_mul_pow2 by lia. lia.
Qed.

(** X11.  [syncsafe32] reads the low seven bits of each of the four size
    bytes, most significant first, and nothing else: its value is the sum
    of the four groups and lies below 2^28. *)
Theorem syncsafe32_value (b0 b1 b2 b3 : byte) :
  syncsafe32 [b0; b1; b2; b3]
  = (byte_val b0 mod 128) * 2 ^ 21 + (byte_val b1 mod 128) * 2 ^ 14
    + (byte_val b2 mod 128) * 2 ^ 7 + byte_val b3 mod 128 /\
  0 <= syncsafe32 [b0; b1; b2; b3] < 2 ^ 28.
Proof.
  unfold syncsafe32, byte_at. cbn [lookup list_lookup].
  rewrite !land_7F.
  pose proof (Z.mod_pos_bound (byte_val b0) 128 ltac:(lia)).
  pose proof (Z.mod_pos_bound (byte_val b1) 128 ltac:(lia)).
  pose proof (Z.mod_pos_bound (byte_val b2) 128 ltac:(lia)).
  pose proof (Z.mod_pos_bound (byte_val b3) 128 ltac:(lia)).
  rewrite lor_groups_7 by assumption.
  rewrite to_u32_id by lia. lia.
Qed.

Lemma byte_at_bytes_of (l : list Z) (i : nat) (z : Z) :
  l !! i = Some z -> byte_at (bytes_of l) i = z mod 256.
Proof.
  intros H. unfold byte_at, bytes_of. rewrite list_lookup_fmap, H. cbn.
  apply byte_val_of.
Qed.

Lemma syncsafe_bytes_at (n : Z) :
  byte_at (syncsafe_bytes n) 0 = n / 2 ^ 21 mod 128 /\
  byte_at (syncsafe_bytes n) 1 = n / 2 ^ 14 mod 128 /\
  byte_at (syncsafe_bytes n) 2 = n / 2 ^ 7 mod 128 /\
  byte_at (syncsafe_bytes n) 3 = n mod 128.
Proof.
  unfold syncsafe_bytes.
  pose proof (Z.mod_pos_bound (n / 2 ^ 21) 128 ltac:(lia)).
  pose proof (Z.mod_pos_bound (n / 2 ^ 14) 128 ltac:(lia)).
  pose proof (Z.mod_pos_bound (n / 2 ^ 7) 128 ltac:(lia)).
  pose proof (Z.mod_pos_bound n 128 ltac:(lia)).
  repeat split;
    (erewrite byte_at_bytes_of by reflexivity; apply Z.mod_small; lia).
Qed.

Lemma groups_of (n : Z) :
  0 <= n < 2 ^ 28 ->
  Z.lor (Z.lor (Z.lor (Z.shiftl (n / 2 ^ 21 mod 128) 21)
                      (Z.shiftl (n / 2 ^ 14 mod 128) 14))
               (Z.shiftl (n / 2 ^ 7 mod 128) 7))
        (n mod 128) = n.
Proof.
  intros H.
  pose proof (Z.mod_pos_bound (n / 2 ^ 21) 128 ltac:(lia)).
  pose proof (Z.mod_pos_bound (n / 2 ^ 14) 128 ltac:(lia)).
  pose proof (Z.mod_pos_bound (n / 2 ^ 7) 128 ltac:(lia)).
  pose proof (Z.mod_pos_bound n 128 ltac:(lia)).
  rewrite lor_groups_7 by assumption.
  Z.div_mod_to_equations. lia.
Qed.

(** The tag size a header announces in syncsafe form. *)
Lemma syncsafe_of_bytes (n : Z) :
  0 <= n < 2 ^ 28 -> syncsafe (syncsafe_bytes n) = n.
Proof.
  intros Hn. unfold syncsafe.
  destruct (syncsafe_bytes_at n) as (E0 & E1 & E2 & E3).
  rewrite E0, E1, E2, E3, groups_of by assumption.
  apply to_u32_id. lia.
Qed.

(** X12.  Decoding undoes the syncsafe encoding: for every size below
    2^28, [syncsafe], which reads the tag size, and [syncsafe32], which
    reads the frame sizes of ID3v2.4, both give the size back from its
    four syncsafe bytes. *)
Theorem syncsafe_round_trip (n : Z) :
  0 <= n < 2 ^ 28 ->
  syncsafe (syncsafe_bytes n) = n /\ syncsafe32 (syncsafe_bytes n) = n.
Proof.
  intros Hn. unfold syncsafe, syncsafe32.
  destruct (syncsafe_bytes_at n) as (E0 & E1 & E2 & E3).
  rewrite E0, E1, E2, E3, !land_7F, !Z.mod_mod by lia.
  rewrite groups_of by assumption.
  split; apply to_u32_id; lia.
Qed.

(** The round trip at 300, whose encoding is 00 00 02 2C. *)
Lemma syncsafe_round_trip_witness :
  syncsafe (syncsafe_bytes 300) = 300 /\ syncsafe32 (syncsafe_bytes 300) = 300.
Proof. apply (syncsafe_round_trip 300). lia. Defined.

Section TextFrames.

Variable junk : Z -> nat -> byte.

Lemma remaining_advance (f : FILE) (n : nat) :
  0 <= pos f ->
  remaining (mkFILE (contents f) (pos f + Z.of_nat n)) = drop n (remaining f).
Proof.
  intros Hp. unfold remaining. cbn [pos contents].
  rewrite drop_drop. f_equal. lia.
Qed.

(** [fread] of [n] bytes in terms of what the stream still holds. *)
Lemma fread_remaining (n : Z) (f : FILE) :
  fread n f
  = Ret (take (Z.to_nat n) (remaining f))
        (mkFILE (contents f)
                (pos f + Z.of_nat (length (take (Z.to_nat n) (remaining f))))).
Proof. reflexivity. Qed.

Lemma selector_remaining (f : FILE) (e : Z) :
  selector f = Some e ->
  exists b rest, remaining f = b :: rest /\ byte_val b = e.
Proof.
  unfold selector. fold (remaining f).
  destruct (remaining f) as [|b rest]; [discriminate|].
  cbn. intros [= <-]. eauto.
Qed.

(** The run of [read_text] on a frame whose selector is 0 or 3. *)
Lemma read_text_single_byte_run (f : FILE) (size : Z) (out : list byte) (max e : Z) :
  2 <= max <= Z.of_nat (length out) -> max < 2 ^ 32 ->
  1 <= size < 2 ^ 32 -> 0 <= pos f ->
  selector f = Some e -> e = 0 \/ e = 3 ->
  let got := take (Z.to_nat (Z.min (size - 1) (max - 1))) (drop 1 (remaining f)) in
  read_text junk size out max f
  = Ret (got ++ x00 :: drop (length got + 1) out)
        (mkFILE (contents f) (pos f + 1 + Z.of_nat (length got))).
Proof.
  intros Hmax Hm32 Hsize Hpos Hsel He got.
  destruct (selector_remaining f e Hsel) as (b & rest & Hrem & Hb).
  unfold read_text.
  destruct (Z.ltb_spec max 2); [lia|].
  unfold bind at 1. rewrite fread_remaining, Hrem.
  change (Z.to_nat 1) with 1%nat. cbn [take]. rewrite take_0. cbn [length].
  rewrite Hb.
  set (f1 := mkFILE (contents f) (pos f + Z.of_nat 1)).
  assert (Hrem1 : remaining f1 = rest).
  { unfold f1. rewrite remaining_advance, Hrem by assumption. reflexivity. }
  assert (Hgot : got = take (Z.to_nat (Z.min (size - 1) (max - 1))) rest).
  { subst got. rewrite Hrem. reflexivity. }
  rewrite (to_u32_id (size - 1)) by lia.
  destruct (Z.eqb_spec (size - 1) 0) as [Hs0|Hs0].
  { (* only the selector *)
    assert (Hnil : got = []).
    { rewrite Hgot. replace (Z.to_nat (Z.min (size - 1) (max - 1))) with 0%nat by lia.
      apply take_0. }
    rewrite Hnil. cbn [app length Nat.add]. rewrite store_first by lia.
    cbn [app Nat.add]. unfold f1. do 2 f_equal. lia. }
  assert (E03 : (e =? 0) || (e =? 3) = true)
    by (destruct He as [-> | ->]; reflexivity).
  rewrite E03.
  rewrite (to_u32_id max), (to_u32_id (max - 1)) by lia.
  assert (Hn : (if max <=? size - 1 then max - 1 else size - 1)
               = Z.min (size - 1) (max - 1))
    by (destruct (Z.leb_spec max (size - 1)); lia).
  rewrite Hn.
  unfold bind at 1. unfold fread_into. unfold bind at 1.
  rewrite fread_remaining, Hrem1, <- Hgot.
  assert (Hlen : (length got <= Z.to_nat (max - 1))%nat).
  { rewrite Hgot, length_take. lia. }
  destruct (Nat.leb_spec (length got) (length out)) as [Hfit|Hfit]; [|lia].
  unfold ret at 1. unfold filled.
  rewrite store_after_prefix by lia.
  rewrite <- app_assoc. cbn [app]. unfold f1. cbn [pos contents].
  reflexivity.
Qed.

(** X13.  A text frame in ISO-8859-1 or UTF-8 (selector 0 or 3) is copied
    byte for byte: [read_text] stores the first [min(size - 1, max - 1)]
    bytes that follow the selector (fewer when the file ends before) and
    a NUL after them, leaves the rest of the destination alone, and
    leaves the stream just after the bytes it copied, wherever the frame
    ends.  When none of the bytes copied is NUL, they are the C string
    written. *)
Theorem read_text_single_byte (f : FILE) (size : Z) (out : list byte) (max e : Z) :
  2 <= max <= Z.of_nat (length out) -> max < 2 ^ 32 ->
  1 <= size < 2 ^ 32 -> 0 <= pos f ->
  selector f = Some e -> e = 0 \/ e = 3 ->
  let got := take (Z.to_nat (Z.min (size - 1) (max - 1))) (drop 1 (remaining f)) in
  let out' := got ++ x00 :: drop (length got + 1) out in
  read_text junk size out max f
  = Ret out' (mkFILE (contents f) (pos f + 1 + Z.of_nat (length got))) /\
  length out' = length out /\
  (Forall (fun b => b <> x00) got -> c_string out' = got).
Proof.
  intros Hmax Hm32 Hsize Hpos Hsel He got out'.
  split; [apply (read_text_single_byte_run f size out max e); assumption|].
  assert (Hlen : (length got < length out)%nat).
  { subst got. rewrite length_take. lia. }
  split.
  - subst out'. rewrite length_app. cbn [length]. rewrite length_drop. lia.
  - intros Hnz. subst out'. apply c_string_app_nul. exact Hnz.
Qed.

Lemma frame_header_length fd text : length (frame_header fd text) = 10%nat.
Proof. destruct fd; reflexivity. Qed.

Lemma frame_header_first fd text : (byte_at (frame_header fd text) 0 =? 0) = false.
Proof. destruct fd; reflexivity. Qed.

(** The size a frame header announces, read as ID3v2.4 or as ID3v2.3. *)
Lemma frame_header_size fd text ver :
  (length text <= 63)%nat ->
  (if ver =? 4 then syncsafe32 (drop 4 (frame_header fd text))
   else be32 (drop 4 (frame_header fd text)))
  = Z.of_nat (length text) + 1.
Proof.
  intros Hl.
  assert (Hd : drop 4 (frame_header fd text)
               = bytes_of [0; 0; 0; Z.of_nat (length text) + 1] ++ [x00; x00])
    by (destruct fd; reflexivity).
  rewrite Hd. set (L := Z.of_nat (length text) + 1).
  assert (H3 : byte_at (bytes_of [0; 0; 0; L] ++ [x00; x00]) 3 = L).
  { unfold byte_at. cbn [bytes_of map app lookup list_lookup].
    rewrite byte_val_of. apply Z.mod_small. lia. }
  assert (H0 : forall i, (i < 3)%nat ->
            byte_at (bytes_of [0; 0; 0; L] ++ [x00; x00]) i = 0).
  { intros i Hi. destruct i as [|[|[|i]]]; try lia; reflexivity. }
  unfold syncsafe32, be32. rewrite H3, !H0 by lia.
  rewrite !land_7F. change (0 mod 128) with 0.
  change (Z.shiftl 0 21) with 0. change (Z.shiftl 0 14) with 0.
  change (Z.shiftl 0 7) with 0. change (Z.shiftl 0 24) with 0.
  change (Z.shiftl 0 16) with 0. change (Z.shiftl 0 8) with 0.
  cbn [Z.lor]. rewrite (Z.mod_small L 128) by lia.
  destruct (ver =? 4); apply to_u32_id; lia.
Qed.

Lemma frame_header_id fd text :
  id_is (frame_header fd text) TIT2
  = match fd with Title => true | _ => false end /\
  id_is (frame_header fd text) TPE1
  = match fd with Artist => true | _ => false end /\
  id_is (frame_header fd text) TALB
  = match fd with Album => true | _ => false end.
Proof. destruct fd; repeat split; reflexivity. Qed.

Lemma stored_length (text old : list byte) :
  (length text < length old)%nat ->
  length (text ++ x00 :: drop (length text + 1) old) = length old.
Proof.
  intros H. rewrite length_app. cbn [length]. rewrite length_drop. lia.
Qed.

(** One round of the frame loop on a text frame: the text is stored in
    its field and the stream is left at the end of the frame. *)
Lemma frames_loop_text_frame fuel ver tag_size meta read f fd text rest :
  text_ok text -> fields_sized meta ->
  0 <= pos f -> remaining f = text_frame fd text ++ rest ->
  0 <= read < tag_size -> read + 11 + Z.of_nat (length text) < 2 ^ 32 ->
  frames_loop junk (S fuel) ver tag_size meta read f
  = frames_loop junk fuel ver tag_size
      (set_field fd (text ++ x00 :: drop (length text + 1) (get_field fd meta)) meta)
      (read + 11 + Z.of_nat (length text))
      (mkFILE (contents f) (pos f + 11 + Z.of_nat (length text))).
Proof.
  intros [Hlen Hnz] Hsized Hpos Hrem Hread Hwrap.
  cbn [frames_loop].
  destruct (Z.ltb_spec read tag_size); [|lia].
  unfold bind at 1. rewrite fread_remaining, Hrem.
  unfold text_frame. rewrite <- app_assoc.
  change (Z.to_nat 10) with 10%nat.
  rewrite take_app_length' by (symmetry; apply frame_header_length).
  rewrite frame_header_length. change (10 =? 10)%nat with true. cbn [negb].
  rewrite frame_header_first, frame_header_size by exact Hlen.
  set (L := Z.of_nat (length text)).
  rewrite (to_u32_id (10 + (L + 1))) by lia.
  rewrite (to_u32_id (read + (10 + (L + 1)))) by lia.
  destruct (Z.eqb_spec (L + 1) 0); [lia|].
  set (f1 := mkFILE (contents f) (pos f + Z.of_nat 10)).
  assert (Hrem1 : remaining f1 = x00 :: text ++ rest).
  { unfold f1. rewrite remaining_advance, Hrem by assumption.
    unfold text_frame. rewrite <- app_assoc.
    rewrite drop_app_length' by (symmetry; apply frame_header_length). reflexivity. }
  assert (Hsel : selector f1 = Some 0).
  { unfold selector. fold (remaining f1). rewrite Hrem1. reflexivity. }
  assert (Hrun : forall out, length out = 64%nat ->
            read_text junk (L + 1) out 64 f1
            = Ret (text ++ x00 :: drop (length text + 1) out)
                  (mkFILE (contents f) (pos f + 11 + L))).
  { intros out Hout.
    rewrite (read_text_single_byte_run f1 (L + 1) out 64 0);
      try lia; try assumption; try (left; reflexivity);
      try (unfold f1; cbn [pos]; lia).
    rewrite Hrem1. cbn [drop].
    replace (Z.to_nat (Z.min (L + 1 - 1) (64 - 1))) with (length text) by lia.
    rewrite !drop_0, !take_app_length. unfold f1. cbn [pos contents].
    do 2 f_equal. lia. }
  destruct (frame_header_id fd text) as (I1 & I2 & I3).
  rewrite I1, I2, I3.
  replace (read + (10 + (L + 1))) with (read + 11 + L) by lia.
  unfold METADATA_TITLE_MAX, METADATA_ARTIST_MAX, METADATA_ALBUM_MAX.
  destruct fd; unfold bind at 1;
    [rewrite (Hrun (title meta)) by apply (Hsized Title)
    |rewrite (Hrun (artist meta)) by apply (Hsized Artist)
    |rewrite (Hrun (album meta)) by apply (Hsized Album)];
    reflexivity.
Qed.

Lemma put_texts_in fd text meta :
  text_ok text -> fields_sized meta ->
  let meta' :=
    set_field fd (text ++ x00 :: drop (length text + 1) (get_field fd meta)) meta in
  texts_in meta' = put fd text (texts_in meta) /\ fields_sized meta'.
Proof.
  intros [Hlen Hnz] Hsized meta'. subst meta'. split.
  - destruct fd; unfold texts_in, put, set_field;
      cbn [title artist album title_text artist_text album_text get_field];
      rewrite c_string_app_nul by exact Hnz; reflexivity.
  - intros fd'. pose proof (Hsized fd') as H'. pose proof (Hsized fd) as H.
    destruct fd, fd'; cbn [get_field set_field title artist album] in *;
      try assumption; rewrite stored_length; lia.
Qed.

(** The frame loop on a sequence of text frames followed by padding. *)
Lemma frames_loop_frames ver tag_size padding :
  forall frames fuel meta read f,
    Forall (fun fr => text_ok (snd fr)) frames -> fields_sized meta ->
    0 <= pos f ->
    remaining f = frames_bytes frames ++ replicate padding x00 ->
    0 <= read ->
    read + Z.of_nat (length (frames_bytes frames)) + Z.of_nat padding = tag_size ->
    tag_size < 2 ^ 32 ->
    (length frames < fuel)%nat ->
    exists meta' f',
      frames_loop junk fuel ver tag_size meta read f = Ret meta' f' /\
      texts_in meta'
      = fold_left (fun ts fr => put (fst fr) (snd fr) ts) frames (texts_in meta).
Proof.
  induction frames as [|[fd text] frames IH];
    intros fuel meta read f Hok Hsized Hpos Hrem Hread Hsize H32 Hfuel.
  - cbn [frames_bytes map concat app length fold_left] in *.
    destruct fuel as [|fuel]; [lia|]. cbn [frames_loop].
    destruct (Z.ltb_spec read tag_size) as [Hlt|Hge]; [|eexists _, _; split; reflexivity].
    unfold bind at 1. rewrite fread_remaining, Hrem.
    change (Z.to_nat 10) with 10%nat.
    destruct (Nat.eqb_spec (length (take 10 (replicate padding x00))) 10) as [E|E];
      cbn [negb]; [|eexists _, _; split; reflexivity].
    assert (Hz : byte_at (take 10 (replicate padding x00)) 0 = 0).
    { rewrite length_take, length_replicate in E.
      destruct padding as [|padding]; [cbn in E; lia|]. reflexivity. }
    rewrite Hz. cbn [Z.eqb]. eexists _, _. split; reflexivity.
  - apply Forall_cons in Hok as [Hok1 Hok]. cbn [snd] in Hok1.
    destruct fuel as [|fuel]; [cbn [length] in Hfuel; lia|].
    assert (Hfb : frames_bytes ((fd, text) :: frames)
                  = text_frame fd text ++ frames_bytes frames) by reflexivity.
    assert (Hfl : length (text_frame fd text) = (11 + length text)%nat).
    { unfold text_frame. rewrite !length_app, frame_header_length. reflexivity. }
    rewrite Hfb, length_app, Hfl in Hsize. rewrite Hfb, <- app_assoc in Hrem.
    rewrite (frames_loop_text_frame fuel ver tag_size meta read f fd text
               (frames_bytes frames ++ replicate padding x00));
      try assumption; try lia.
    destruct (put_texts_in fd text meta Hok1 Hsized) as [Htx Hsz].
    cbv zeta in Htx, Hsz.
    set (meta1 := set_field fd _ meta) in *.
    destruct (IH fuel meta1 (read + 11 + Z.of_nat (length text))
                 (mkFILE (contents f) (pos f + 11 + Z.of_nat (length text))))
      as (meta' & f' & Hrun & Htexts);
      try assumption; try (cbn [pos length] in *; lia).
    + replace (pos f + 11 + Z.of_nat (length text))
        with (pos f + Z.of_nat (11 + length text)) by lia.
      rewrite remaining_advance, Hrem by assumption.
      rewrite <- Hfl. apply drop_app_length.
    + exists meta', f'. split; [exact Hrun|].
      cbn [fold_left fst snd]. rewrite <- Htx. exact Htexts.
Qed.

Lemma texts_in_zero : texts_in meta_zero = mkTexts [] [] [].
Proof. reflexivity. Qed.

Lemma fields_sized_zero : fields_sized meta_zero.
Proof. intros fd. destruct fd; reflexivity. Qed.

(** X14.  On a well-formed tag the parser reads the text fields back:
    for a file that opens and holds an ID3v2 tag (any version byte) made
    of ISO-8859-1 title, artist and album frames in any number and order,
    each text of at most 63 bytes without NUL, followed by any amount of
    padding, [mp3_read_metadata] returns true (given a round of fuel per
    frame and one more) and each field holds, as a C string, the text of
    the last frame for it, or the empty string when there is none. *)
Theorem mp3_read_metadata_text_frames (fuel : nat) (fs : gmap string (list byte))
    (path : string) (ver : Z) (frames : list (field * list byte)) (padding : nat) :
  0 <= ver < 256 ->
  Forall (fun fr => text_ok (snd fr)) frames ->
  Z.of_nat (length (frames_bytes frames)) + Z.of_nat padding < 2 ^ 28 ->
  (length frames < fuel)%nat ->
  fs !! path = Some (tag ver frames padding) ->
  exists meta f,
    mp3_read_metadata junk fuel fs path = Ret (true, meta) f /\
    texts_in meta = texts_of frames.
Proof.
  intros Hver Hok Hsize Hfuel Hfile.
  unfold mp3_read_metadata. rewrite Hfile.
  set (n := Z.of_nat (length (frames_bytes frames)) + Z.of_nat padding) in *.
  set (hdr := ID3 ++ bytes_of [ver; 0; 0] ++ syncsafe_bytes n).
  assert (Htag : tag ver frames padding
                 = hdr ++ frames_bytes frames ++ replicate padding x00).
  { unfold tag, hdr. fold n. rewrite <- !app_assoc. reflexivity. }
  assert (Hhl : length hdr = 10%nat) by reflexivity.
  unfold bind at 1. unfold parse_id3. unfold bind at 1.
  rewrite fread_remaining, Htag.
  assert (Hrem0 : remaining (mkFILE (hdr ++ frames_bytes frames
                                     ++ replicate padding x00) 0)
                  = hdr ++ frames_bytes frames ++ replicate padding x00)
    by reflexivity.
  rewrite !Hrem0. cbn [pos contents].
  change (Z.to_nat 10) with 10%nat.
  rewrite !take_app_length' by (symmetry; exact Hhl). rewrite ?Hhl.
  assert (Hfilled : filled hdr (uninit junk (-1) 10) = hdr).
  { unfold filled. rewrite Hhl. unfold uninit. rewrite drop_ge.
    - apply app_nil_r.
    - rewrite length_map, length_seq. lia. }
  rewrite Hfilled.
  assert (Hsig : take 3 hdr = ID3) by reflexivity.
  rewrite bool_decide_eq_true_2 by exact Hsig. cbn [negb].
  assert (Hv : byte_at hdr 3 = ver).
  { unfold hdr, byte_at. cbn [ID3 bytes_of map app lookup list_lookup].
    rewrite byte_val_of. apply Z.mod_small. lia. }
  assert (Hts : syncsafe (drop 6 hdr) = n).
  { change (drop 6 hdr) with (syncsafe_bytes n).
    apply syncsafe_of_bytes. pose proof (Zle_0_nat (length (frames_bytes frames))).
    unfold n in *. lia. }
  rewrite Hv, Hts.
  destruct (frames_loop_frames ver n padding frames fuel meta_zero 0
              (mkFILE (hdr ++ frames_bytes frames ++ replicate padding x00)
                      (0 + Z.of_nat 10)))
    as (meta & f & Hrun & Htexts);
    try assumption; try (cbn [pos]; lia); try apply fields_sized_zero.
  - unfold remaining. cbn [pos contents].
    change (Z.to_nat (0 + Z.of_nat 10)) with 10%nat.
    apply drop_app_length'. symmetry. exact Hhl.
  - rewrite Hrun. exists meta, f. split; [reflexivity|].
    rewrite Htexts, texts_in_zero. reflexivity.
Qed.

Lemma store_in_range (out : list byte) (i : Z) (v : byte) (f : FILE) :
  0 <= i < Z.of_nat (length out) ->
  store out i v f = Ret (<[Z.to_nat i := v]> out) f.
Proof.
  intros H. unfold store.
  destruct (Z.leb_spec 0 i); [|lia].
  destruct (Z.ltb_spec i (Z.of_nat (length out))); [|lia]. reflexivity.
Qed.

Lemma insert_nul (out : list byte) (i : nat) :
  (i < length out)%nat ->
  length (<[i := x00]> out) = length out /\ x00 ∈ <[i := x00]> out.
Proof.
  intros H. split; [apply length_insert|].
  apply (list_elem_of_lookup_2 _ i). apply list_lookup_insert_eq. exact H.
Qed.

(** [read_text] always returns: it keeps the size of the destination and
    leaves a NUL in it. *)
Lemma read_text_total (f : FILE) (size : Z) (out : list byte) (max : Z) :
  1 <= max -> max <= Z.of_nat (length out) ->
  exists out' f',
    read_text junk size out max f = Ret out' f' /\
    length out' = length out /\ x00 ∈ out'.
Proof.
  intros Hmax Hlen.
  assert (Hempty : forall f', exists out' f'',
            store out 0 x00 f' = Ret out' f'' /\
            length out' = length out /\ x00 ∈ out').
  { intros f'. rewrite store_in_range by lia. eexists _, _.
    split; [reflexivity|]. apply insert_nul. lia. }
  unfold read_text.
  destruct (max <? 2) eqn:Hm2; [apply Hempty|]. apply Z.ltb_ge in Hm2.
  unfold bind at 1. rewrite fread_remaining.
  destruct (take (Z.to_nat 1) (remaining f)) as [|e encrest]; [apply Hempty|].
  set (f1 := mkFILE _ _).
  destruct (to_u32 (size - 1) =? 0) eqn:Hs0; [apply Hempty|].
  pose proof (to_u32_range (size - 1)) as Hsr.
  destruct ((byte_val e =? 0) || (byte_val e =? 3)).
  { set (n := if to_u32 max <=? to_u32 (size - 1) then to_u32 (max - 1)
              else to_u32 (size - 1)).
    assert (Hn : 0 <= n <= max - 1).
    { subst n. pose proof (to_u32_range (max - 1)). pose proof (to_u32_range max).
      destruct (Z.leb_spec (to_u32 max) (to_u32 (size - 1))) as [Hle|Hgt].
      - split; [lia|]. unfold to_u32. apply Z.mod_le; lia.
      - split; [lia|].
        assert (to_u32 max <= max) by (unfold to_u32; apply Z.mod_le; lia). lia. }
    unfold bind at 1. unfold fread_into. unfold bind at 1.
    destruct (fread n f1) as [got f2| | |] eqn:Hgot;
      try (unfold fread in Hgot; discriminate Hgot).
    pose proof (fread_length _ _ _ _ Hgot) as Hgl.
    destruct (Nat.leb_spec (length got) (length out)) as [Hfit|Hfit]; [|lia].
    unfold ret at 1.
    assert (Hfl : length (filled got out) = length out).
    { unfold filled. rewrite length_app, length_drop. lia. }
    rewrite store_in_range by lia. eexists _, _. split; [reflexivity|].
    rewrite <- Hfl. apply insert_nul. lia. }
  destruct ((byte_val e =? 1) || (byte_val e =? 2)); [|apply Hempty].
  unfold bind at 1.
  destruct (fread 2 f1) as [got f2| | |] eqn:Hbom;
    try (unfold fread in Hbom; discriminate Hbom).
  set (le := negb _). set (sz := to_u32 (to_u32 (size - 1) - 2)).
  destruct (utf16_loop_spec junk (Z.to_nat max) le max sz out 0 f2) as [f3 Hloop];
    try lia.
  { subst sz. apply to_u32_range. }
  cbv zeta in Hloop. rewrite Z.sub_0_r in Hloop.
  set (txt := map lossy (take_while nonzero
                (units junk (Z.to_nat ((sz / 2) `min` (max - 1))) le 0 f2))) in *.
  assert (Htl : Z.of_nat (length txt) <= max - 1).
  { subst txt. rewrite length_map.
    pose proof (units_length junk (Z.to_nat ((sz / 2) `min` (max - 1))) le 0 f2).
    pose proof (take_while_length nonzero
                  (units junk (Z.to_nat ((sz / 2) `min` (max - 1))) le 0 f2)).
    lia. }
  unfold bind at 1. rewrite Hloop.
  change (Z.to_nat 0) with 0%nat. rewrite take_0, Z.add_0_l. cbn [app Nat.add].
  assert (Hfl : length (txt ++ drop (length txt) out) = length out).
  { rewrite length_app, length_drop. lia. }
  rewrite store_in_range by lia. eexists _, _. split; [reflexivity|].
  rewrite <- Hfl. apply insert_nul. lia.
Qed.

(** What a run of the frame loop, or of the whole call, may end in: a
    return with every field intact and terminated, or the exhaustion of
    the fuel; never undefined behaviour. *)
Lemma frames_loop_safe ver tag_size :
  forall fuel meta read f,
    fields_sized meta -> fields_terminated meta ->
    match frames_loop junk fuel ver tag_size meta read f with
    | Ret meta' _ => fields_sized meta' /\ fields_terminated meta'
    | Timeout => True
    | _ => False
    end.
Proof.
  induction fuel as [|fuel IH]; intros meta read f Hsz Htm; cbn [frames_loop].
  - destruct (read <? tag_size); [exact I|]. split; assumption.
  - destruct (read <? tag_size); [|split; assumption].
    unfold bind at 1. rewrite fread_remaining.
    set (fh := take (Z.to_nat 10) (remaining f)). set (f1 := mkFILE _ _).
    destruct (negb (length fh =? 10)%nat); [split; assumption|].
    destruct (byte_at fh 0 =? 0); [split; assumption|].
    set (sz := if ver =? 4 then _ else _).
    destruct (sz =? 0); [split; assumption|].
    assert (Hstep : forall fd,
              match
                (let* t := read_text junk sz (get_field fd meta) 64 in
                 frames_loop junk fuel ver tag_size (set_field fd t meta)
                             (to_u32 (read + to_u32 (10 + sz)))) f1
              with
              | Ret meta' _ => fields_sized meta' /\ fields_terminated meta'
              | Timeout => True
              | _ => False
              end).
    { intros fd.
      destruct (read_text_total f1 sz (get_field fd meta) 64)
        as (out' & f2 & Hrun & Hl & Hnul);
        [lia|rewrite (Hsz fd); lia|].
      unfold bind at 1. rewrite Hrun. apply IH.
      - intros fd'. pose proof (Hsz fd'). pose proof (Hsz fd).
        destruct fd, fd'; cbn [get_field set_field title artist album] in *; congruence.
      - intros fd'. pose proof (Htm fd').
        destruct fd, fd'; cbn [get_field set_field title artist album] in *; assumption. }
    destruct (id_is fh TIT2); [exact (Hstep Title)|].
    destruct (id_is fh TPE1); [exact (Hstep Artist)|].
    destruct (id_is fh TALB); [exact (Hstep Album)|].
    unfold bind at 1. unfold fseek_cur.
    destruct (pos f1 + to_int sz <? 0); apply IH; assumption.
Qed.

Lemma fields_terminated_zero : fields_terminated meta_zero.
Proof.
  intros fd. destruct fd; cbn [get_field meta_zero title artist album];
    apply (list_elem_of_lookup_2 _ 0); reflexivity.
Qed.

(** How a call of [mp3_read_metadata] can end: it returns, or its frame
    loop is still running when the fuel is spent. *)
Lemma mp3_read_metadata_ends (fuel : nat) (fs : gmap string (list byte))
    (path : string) :
  (exists ok meta f, mp3_read_metadata junk fuel fs path = Ret (ok, meta) f) \/
  mp3_read_metadata junk fuel fs path = Timeout.
Proof.
  assert (H : match mp3_read_metadata junk fuel fs path with
              | Ret _ _ | Timeout => True
              | _ => False
              end).
  { unfold mp3_read_metadata.
    destruct (fs !! path) as [data|]; [|exact I].
    unfold bind at 1. unfold parse_id3. unfold bind at 1. rewrite fread_remaining.
    set (hdr := filled _ _). set (f1 := mkFILE _ _).
    destruct (negb (bool_decide (take 3 hdr = ID3))); [exact I|].
    pose proof (frames_loop_safe (byte_at hdr 3) (syncsafe (drop 6 hdr)) fuel
                  meta_zero 0 f1 fields_sized_zero fields_terminated_zero) as H.
    destruct (frames_loop junk fuel (byte_at hdr 3) (syncsafe (drop 6 hdr))
                meta_zero 0 f1); try contradiction; exact I. }
  destruct (mp3_read_metadata junk fuel fs path) as [[ok meta] f|f| |];
    try contradiction.
  - left. eexists _, _, _. reflexivity.
  - right. reflexivity.
Qed.

(** X15.  [mp3_read_metadata] is memory safe on every file: whatever the
    bytes of the file, the bytes of the uninitialised buffers and the
    fuel, a run never meets undefined behaviour (no store outside a field
    of the metadata); it either returns, with each of the three fields
    still 64 bytes long and holding a NUL, or is still running when the
    fuel is spent. *)
Theorem mp3_read_metadata_safe (fuel : nat) (fs : gmap string (list byte))
    (path : string) :
  match mp3_read_metadata junk fuel fs path with
  | Ret (_, meta) _ => fields_sized meta /\ fields_terminated meta
  | Timeout => True
  | _ => False
  end.
Proof.
  unfold mp3_read_metadata.
  destruct (fs !! path) as [data|];
    [|split; [apply fields_sized_zero|apply fields_terminated_zero]].
  unfold bind at 1. unfold parse_id3. unfold bind at 1. rewrite fread_remaining.
  set (hdr := filled _ _). set (f1 := mkFILE _ _).
  destruct (negb (bool_decide (take 3 hdr = ID3))).
  - cbn. split; [apply fields_sized_zero|apply fields_terminated_zero].
  - pose proof (frames_loop_safe (byte_at hdr 3) (syncsafe (drop 6 hdr)) fuel
                  meta_zero 0 f1 fields_sized_zero fields_terminated_zero) as H.
    destruct (frames_loop junk fuel (byte_at hdr 3) (syncsafe (drop 6 hdr))
                meta_zero 0 f1); exact H.
Qed.

End TextFrames.

(** The theorem on a title frame of five bytes read into a field of
    four: "Hel" is stored and the stream is left before the second "l". *)
Lemma read_text_single_byte_witness :
  let f := mkFILE (bytes_of [0; 0x48; 0x65; 0x6C; 0x6C; 0x6F]) 0 in
  let out := bytes_of [1; 2; 3; 4] in
  let got := take (Z.to_nat (Z.min (6 - 1) (4 - 1))) (drop 1 (remaining f)) in
  let out' := got ++ x00 :: drop (length got + 1) out in
  read_text zero_junk 6 out 4 f
  = Ret out' (mkFILE (contents f) (pos f + 1 + Z.of_nat (length got))) /\
  length out' = length out /\
  (Forall (fun b => b <> x00) got -> c_string out' = got).
Proof.
  apply (read_text_single_byte zero_junk
           (mkFILE (bytes_of [0; 0x48; 0x65; 0x6C; 0x6C; 0x6F]) 0) 6
           (bytes_of [1; 2; 3; 4]) 4 0).
  - cbn. lia.
  - lia.
  - lia.
  - cbn. lia.
  - reflexivity.
  - left. reflexivity.
Defined.

(** The theorem on [sample_fs]: the title is "Hi", the artist "Me" and
    the album empty. *)
Lemma mp3_read_metadata_text_frames_witness :
  exists meta f,
    mp3_read_metadata zero_junk 3 sample_fs "/sdcard/audio/hi.mp3" = Ret (true, meta) f /\
    texts_in meta = texts_of sample_frames.
Proof.
  apply (mp3_read_metadata_text_frames zero_junk 3 sample_fs "/sdcard/audio/hi.mp3"
           3 sample_frames 12).
  - lia.
  - unfold sample_frames, text_ok.
    repeat constructor; cbn; try lia; discriminate.
  - cbn. lia.
  - cbn. lia.
  - unfold sample_fs. apply lookup_singleton_eq.
Defined.

End Id3TagFacts.

(* ===================================================================== *)
(** ** The playlist and the heap *)
(* ===================================================================== *)

Module OwnershipFacts.
Import CInt CIntFacts Mon Player Ownership.
Local Open Scope mon_scope.

(** Splits a monadic run found in hypothesis [H] at its first bind. *)
Ltac split_run H :=
  let a := fresh "a" in let s := fresh "h" in let E := fresh "E" in
  unfold bind at 1 in H;
  match type of H with
  | match ?m ?h with _ => _ end = _ =>
      destruct (m h) as [a s|s| |] eqn:E; try discriminate H
  end.

Lemma filter_keep_all {A} (P : A -> Prop) `{!forall x, Decision (P x)} (l : list A) :
  Forall P l -> filter P l = l.
Proof.
  induction 1 as [|x l Hx _ IH]; [reflexivity|].
  rewrite filter_cons_True by exact Hx. f_equal. exact IH.
Qed.

(** Removing a block from a heap list that holds it once. *)
Lemma filter_remove (a b : list nat) (p : nat) :
  NoDup (a ++ p :: b) -> filter (fun q => q <> p) (a ++ p :: b) = a ++ b.
Proof.
  intros Hnd. apply NoDup_app in Hnd as (Ha & Hdis & Hb).
  apply NoDup_cons in Hb as [Hpb Hb].
  rewrite filter_app, filter_cons_False by (intros H; apply H; reflexivity).
  rewrite !filter_keep_all; [reflexivity| |].
  - apply Forall_forall. intros q Hq ->. contradiction.
  - apply Forall_forall. intros q Hq ->. apply (Hdis p Hq). left.
Qed.

Section Heap.

Variable grant : nat -> Z -> bool.
Variable sizeof_Song : Z.
Variable PATH_MAX : Z.

Lemma malloc_outcome sz h :
  heap_ok h ->
  exists p h',
    malloc grant sz h = Ret p h' /\ heap_ok h' /\
    requests h' = S (requests h) /\ released h' = released h /\
    ((p = 0%nat /\ live h' = live h) \/
     (p = S (requests h) /\ live h' = p :: live h)).
Proof.
  intros [Hnd Hall]. unfold malloc.
  assert (Hweak : Forall (fun p => (0 < p <= S (requests h))%nat) (live h)).
  { eapply Forall_impl; [exact Hall|]. cbn. intros; lia. }
  destruct (grant (requests h) sz); eexists _, _; (split; [reflexivity|]);
    cbn [live requests released].
  - split; [|split; [reflexivity|split; [reflexivity|right; auto]]].
    split; cbn [live requests].
    + apply NoDup_cons. split; [|exact Hnd].
      intros Hin. rewrite Forall_forall in Hall. specialize (Hall _ Hin). lia.
    + constructor; [lia|exact Hweak].
  - split; [|split; [reflexivity|split; [reflexivity|left; auto]]].
    split; cbn [live requests]; assumption.
Qed.

(** Freeing a live block takes it, and nothing else, off the heap. *)
Lemma free_outcome (a b : list nat) (p : nat) h :
  heap_ok h -> live h = a ++ p :: b ->
  free p h = Ret tt (mkHeap (requests h) (a ++ b) (p :: released h)) /\
  heap_ok (mkHeap (requests h) (a ++ b) (p :: released h)).
Proof.
  intros [Hnd Hall] Hlive. unfold free.
  assert (Hin : p ∈ live h) by (rewrite Hlive; apply elem_of_app; right; left).
  assert (Hpos : (0 < p)%nat).
  { rewrite Forall_forall in Hall. specialize (Hall _ Hin). lia. }
  destruct (Nat.eqb_spec p 0); [lia|].
  rewrite bool_decide_eq_true_2 by exact Hin.
  rewrite Hlive in Hnd |- *. rewrite (filter_remove a b p Hnd).
  split; [reflexivity|]. split; cbn [live requests].
  - apply NoDup_app in Hnd as (Ha & Hdis & Hb).
    apply NoDup_cons in Hb as [Hpb Hb]. apply NoDup_app. repeat split; try assumption.
    intros q Hq Hqb. apply (Hdis q Hq). right. exact Hqb.
  - rewrite Hlive in Hall. apply Forall_app in Hall as [Ha Hb].
    apply Forall_cons in Hb as [_ Hb]. apply Forall_app. split; assumption.
Qed.

(** The outcome of [create_song_from_entry], kept as a lemma for the
    builders of the playlist. *)
Lemma create_song_from_entry_run (entry : Entry) (cwd : string) (h : heap) :
  heap_ok h ->
  exists r h',
    create_song_from_entry grant sizeof_Song PATH_MAX entry cwd h = Ret r h' /\
    heap_ok h' /\
    match r with
    | None => live h' = live h
    | Some (p, song) =>
        live h' = blk (filepath song) :: blk (filename song) :: p :: live h /\
        song_of PATH_MAX cwd entry song
    end.
Proof.
  intros Hok. unfold create_song_from_entry.
  destruct (malloc_outcome sizeof_Song h Hok)
    as (p1 & h1 & E1 & Hok1 & _ & _ & [[-> L1]|[Hp1 L1]]);
    unfold bind at 1; rewrite E1.
  { exists None, h1. cbn. auto. }
  destruct (Nat.eqb_spec p1 0) as [Hz|_]; [lia|].
  destruct (malloc_outcome (to_u32 (strlen (name entry) + 1)) h1 Hok1)
    as (p2 & h2 & E2 & Hok2 & _ & _ & [[-> L2]|[Hp2 L2]]);
    unfold bind at 1; rewrite E2.
  { cbn [Nat.eqb]. rewrite L1 in L2.
    destruct (free_outcome [] (live h) p1 h2 Hok2 L2) as [F Hok3].
    unfold bind at 1. rewrite F. eexists None, _.
    split; [reflexivity|]. split; [exact Hok3|reflexivity]. }
  destruct (Nat.eqb_spec p2 0) as [Hz|_]; [lia|].
  set (sz3 := to_u32 _).
  destruct (malloc_outcome sz3 h2 Hok2)
    as (p3 & h3 & E3 & Hok3 & R3 & _ & [[-> L3]|[Hp3 L3]]);
    unfold bind at 1; rewrite E3.
  { cbn [Nat.eqb]. rewrite L2, L1 in L3.
    destruct (free_outcome [] (p1 :: live h) p2 h3 Hok3 L3) as [F Hok4].
    unfold bind at 1. rewrite F. cbn [app].
    destruct (free_outcome [] (live h) p1 _ Hok4 eq_refl) as [F' Hok5].
    unfold bind at 1. cbn [app live requests released] in F'. rewrite F'.
    eexists None, _.
    split; [reflexivity|]. split; [exact Hok5|reflexivity]. }
  destruct (Nat.eqb_spec p3 0) as [Hz|_]; [lia|].
  eexists (Some (_, _)), _. split; [reflexivity|]. split; [exact Hok3|].
  cbn [blk filepath filename]. rewrite L3, L2, L1.
  split; [reflexivity|]. repeat split.
Qed.

(** X16.  [create_song_from_entry] on a consistent heap, whatever
    [malloc] answers: it returns without undefined behaviour and leaves
    the heap consistent.  When it returns NULL, every block it had
    obtained has been freed again: the live blocks are those of before.
    When it returns a song, exactly three blocks were added, the [Song]
    and its two strings, all distinct and new; the file name is the
    entry's name, the path is "cwd/name" cut to [PATH_MAX - 1] characters
    and the codec is the one the name resolves to. *)
Theorem create_song_from_entry_outcome (entry : Entry) (cwd : string) (h : heap) :
  heap_ok h ->
  exists r h',
    create_song_from_entry grant sizeof_Song PATH_MAX entry cwd h = Ret r h' /\
    heap_ok h' /\
    match r with
    | None => live h' = live h
    | Some (p, song) =>
        live h' = blk (filepath song) :: blk (filename song) :: p :: live h /\
        NoDup [blk (filepath song); blk (filename song); p] /\
        Forall (fun q => q ∉ live h) [blk (filepath song); blk (filename song); p] /\
        song_of PATH_MAX cwd entry song
    end.
Proof.
  intros Hok.
  destruct (create_song_from_entry_run entry cwd h Hok) as (r & h' & E & Hok' & Hr).
  exists r, h'. split; [exact E|]. split; [exact Hok'|].
  destruct r as [[p song]|]; [|exact Hr].
  destruct Hr as [Hl Hsong]. split; [exact Hl|].
  destruct Hok' as [Hnd _]. rewrite Hl in Hnd.
  change (blk (filepath song) :: blk (filename song) :: p :: live h)
    with ([blk (filepath song); blk (filename song); p] ++ live h) in Hnd.
  apply NoDup_app in Hnd as (H3 & Hdis & _).
  split; [exact H3|]. split; [|exact Hsong].
  apply Forall_forall. intros q Hq. exact (Hdis q Hq).
Qed.

(** The second loop of the play-all branch: every song it creates stays
    on the heap with its two strings, the temporary [Song] is freed. *)
Lemma fill_playlist_run params indices :
  forall st h st' h',
    heap_ok h ->
    fill_playlist grant sizeof_Song PATH_MAX params indices st h = Ret (true, st') h' ->
    heap_ok h' /\
    playlist st' = playlist st /\ playlist_length st' = playlist_length st /\
    playlist_index st' = playlist_index st /\
    exists new,
      songs st' = songs st ++ new /\
      live h' = flat_map owned (rev new) ++ live h /\
      Forall2 (fun i s => exists e, entries params !! Z.to_nat i = Some e /\
                                    song_of PATH_MAX (cwd params) e s)
              indices new.
Proof.
  induction indices as [|i rest IH]; intros st h st' h' Hok H.
  - cbn in H. injection H as <- <-.
    split; [exact Hok|]. do 3 (split; [reflexivity|]).
    exists []. rewrite app_nil_r. split; [reflexivity|]. split; [reflexivity|].
    constructor.
  - cbn [fill_playlist] in H.
    split_run H. unfold defined in E.
    destruct (entries params !! Z.to_nat i) as [entry|] eqn:He; [|discriminate E].
    injection E as <- <-.
    destruct (create_song_from_entry_run entry (cwd params) h Hok)
      as (r & h1 & E1 & Hok1 & Hr).
    unfold bind at 1 in H. rewrite E1 in H.
    destruct r as [[p song]|]; [|discriminate H].
    destruct Hr as [Hl Hsong].
    destruct (free_outcome [blk (filepath song); blk (filename song)] (live h)
                p h1 Hok1 Hl) as [F Hok2].
    unfold bind at 1 in H. rewrite F in H.
    apply IH in H; [|exact Hok2].
    destruct H as (Hok' & Hp & HL & HI & new & Hs & Hlv & Hall).
    cbn [set_playlist playlist playlist_length playlist_index songs] in *.
    split; [exact Hok'|]. do 3 (split; [assumption|]).
    exists (song :: new). split; [rewrite Hs, <- app_assoc; reflexivity|].
    split.
    + rewrite Hlv. cbn [live rev]. rewrite flat_map_app, <- app_assoc. reflexivity.
    + constructor; [|exact Hall]. exists entry. auto.
Qed.

(** [free_songs] on a heap whose latest blocks are the songs' strings. *)
Lemma free_songs_run :
  forall ss h rest,
    heap_ok h -> live h = flat_map owned (rev ss) ++ rest ->
    exists h', free_songs ss h = Ret tt h' /\ heap_ok h' /\ live h' = rest.
Proof.
  induction ss as [|s ss IH]; intros h rest Hok Hl.
  - exists h. cbn in Hl. auto.
  - cbn [rev] in Hl. rewrite flat_map_app, <- app_assoc in Hl.
    cbn [flat_map owned app] in Hl.
    destruct (free_outcome _ _ _ h Hok Hl) as [F1 Hok1].
    cbn [free_songs]. unfold bind at 1. rewrite F1.
    destruct (free_outcome (flat_map owned (rev ss)) rest (blk (filename s)) _
                Hok1 eq_refl) as [F2 Hok2].
    unfold bind at 1. cbn [live requests released] in F2. rewrite F2.
    apply IH; [exact Hok2|reflexivity].
Qed.

Lemma playable_is (e : Entry) :
  negb (is_unknown (entry_codec e)) = playable e.
Proof. reflexivity. Qed.

(** The first loop of the play-all branch: it collects the positions of
    the playable entries, counts them, and takes as starting song the one
    made from the selected entry, if that entry is playable. *)
Lemma scan_entries_spec params k :
  forall i j start n idxs start' n' idxs',
    scan_entries k params i j start n idxs = Some (start', n', idxs') ->
    0 <= i -> j = Z.of_nat (length idxs) -> n = j -> n <= MAX_SONGS -> 0 <= start ->
    let t := to_u32 (index params) in
    idxs' = idxs ++ playable_indices i (take k (drop (Z.to_nat i) (entries params))) /\
    n' = Z.of_nat (length idxs') /\ n' <= MAX_SONGS /\ 0 <= start' /\
    (forall e, i <= t < i + Z.of_nat k ->
               entries params !! Z.to_nat t = Some e -> playable e = true ->
               idxs' !! Z.to_nat start' = Some t) /\
    ((~ (i <= t < i + Z.of_nat k) \/
      exists e, entries params !! Z.to_nat t = Some e /\ playable e = false) ->
     start' = start).
Proof.
  induction k as [|k IH]; intros i j start n idxs start' n' idxs' H Hi Hj Hn Hmax Hs t.
  - cbn in H. injection H as <- <- <-. rewrite take_0. cbn [playable_indices].
    rewrite app_nil_r. subst. repeat split; try lia; try assumption.
  - cbn [scan_entries] in H.
    destruct (entries params !! Z.to_nat i) as [entry|] eqn:He; [|discriminate H].
    rewrite (drop_S _ _ _ He). cbn [take playable_indices].
    replace (S (Z.to_nat i)) with (Z.to_nat (i + 1)) by lia.
    rewrite playable_is in H.
    destruct (playable entry) eqn:Hp; cbn [negb] in H.
    + destruct (Z.ltb_spec j MAX_SONGS) as [Hlt|]; [|discriminate H].
      fold t in H.
      apply IH in H; try lia;
        [|rewrite length_app; cbn [length]; lia|destruct (t =? i); lia].
      cbv zeta in H. fold t in H.
      destruct H as (Hid & Hn' & Hle & Hs' & Ha & Hb).
      split; [rewrite Hid, <- app_assoc; reflexivity|].
      split; [exact Hn'|]. split; [exact Hle|]. split; [exact Hs'|]. split.
      * intros e Hr Het Hpe.
        destruct (Z.eq_dec t i) as [Eti|Eti].
        -- rewrite Hb by (left; lia).
           destruct (Z.eqb_spec t i); [|lia].
           rewrite Hid, <- app_assoc. subst j. rewrite Nat2Z.id.
           rewrite Eti. apply list_lookup_middle. reflexivity.
        -- apply (Ha e); [lia|exact Het|exact Hpe].
      * intros Hout. rewrite Hb.
        -- destruct (Z.eqb_spec t i) as [Eti|]; [|reflexivity].
           exfalso. destruct Hout as [Hout|(e & Het & Hpe)]; [lia|].
           rewrite Eti, He in Het. injection Het as <-. congruence.
        -- destruct Hout as [Hout|Hout]; [left; lia|right; exact Hout].
    + apply IH in H; try lia; try assumption.
      cbv zeta in H. fold t in H.
      destruct H as (Hid & Hn' & Hle & Hs' & Ha & Hb).
      split; [exact Hid|]. split; [exact Hn'|]. split; [exact Hle|].
      split; [exact Hs'|]. split.
      * intros e Hr Het Hpe.
        destruct (Z.eq_dec t i) as [Eti|Eti].
        -- rewrite Eti, He in Het. injection Het as <-. congruence.
        -- apply (Ha e); [lia|exact Het|exact Hpe].
      * intros Hout. apply Hb.
        destruct Hout as [Hout|Hout]; [left; lia|right; exact Hout].
Qed.

(** What a successful [make_playlist] leaves on the heap: the array, and
    the two strings of every song, latest first. *)
Lemma make_playlist_run st params h st' h' :
  heap_ok h ->
  make_playlist grant sizeof_Song PATH_MAX st params h = Ret (0, st') h' ->
  heap_ok h' /\
  live h' = flat_map owned (rev (songs st')) ++ playlist st' :: live h /\
  Z.of_nat (length (songs st')) = playlist_length st'.
Proof.
  intros Hok H. unfold make_playlist in H.
  destruct (play_all params).
  - split_run H. destruct a as [[start_song n_songs] song_indices].
    unfold defined in E.
    destruct (scan_entries _ params 0 0 0 0 []) as [[[s n] idxs]|] eqn:Escan;
      [|discriminate E].
    injection E as -> -> -> <-.
    apply scan_entries_spec in Escan;
      [|lia|reflexivity|reflexivity|unfold MAX_SONGS; lia|lia].
    destruct Escan as (_ & Hn & _).
    destruct (malloc_outcome (to_u32 (n_songs * sizeof_Song)) h Hok)
      as (p & h1 & E1 & Hok1 & _ & _ & [[-> L1]|[Hp1 L1]]);
      unfold bind at 1 in H; rewrite E1 in H; [discriminate H|].
    destruct (Nat.eqb_spec p 0) as [Hz|_]; [lia|].
    split_run H. destruct a as [ok st1].
    destruct ok; [|discriminate H]. injection H as <- <-.
    apply fill_playlist_run in E; [|exact Hok1].
    destruct E as (Hok' & Hp & HL & HI & new & Hs & Hlv & Hall).
    cbn [set_playlist set_length set_index playlist playlist_length songs app] in *.
    split; [exact Hok'|]. rewrite Hs, Hlv, L1, Hp. split; [reflexivity|].
    rewrite HL, Hn. apply Forall2_length in Hall. lia.
  - split_run H.
    assert (h0 = h).
    { unfold defined in E.
      destruct (if index params <? 0 then None else _); [|discriminate E].
      injection E as _ <-. reflexivity. }
    subst h0. clear E.
    destruct (is_unknown (entry_codec a)); [discriminate H|].
    destruct (malloc_outcome (to_u32 (1 * sizeof_Song)) h Hok)
      as (p & h1 & E1 & Hok1 & _ & _ & [[-> L1]|[Hp1 L1]]);
      unfold bind at 1 in H; rewrite E1 in H; [discriminate H|].
    destruct (Nat.eqb_spec p 0) as [Hz|_]; [lia|].
    destruct (create_song_from_entry_run a (cwd params) h1 Hok1)
      as (r & h2 & E2 & Hok2 & Hr).
    unfold bind at 1 in H. rewrite E2 in H.
    destruct r as [[sp song]|].
    + destruct Hr as [Hl _].
      destruct (free_outcome [blk (filepath song); blk (filename song)] (live h1)
                  sp h2 Hok2 Hl) as [F Hok3].
      unfold bind at 1 in H. rewrite F in H. injection H as <- <-.
      cbn [set_playlist set_length playlist playlist_length songs live rev
           flat_map owned app length].
      split; [exact Hok3|]. rewrite L1. split; reflexivity.
    + split_run H; discriminate H.
Qed.

(** X17.  A playlist that [make_playlist] built on a consistent heap is
    given back in full by [free_playlist]: when the playlist holds at
    least one song, the call frees the two strings of every song and then
    the array, each exactly once and none that is not live, and the live
    blocks are again those of before [make_playlist].  An empty playlist
    (which [make_playlist] reports as built when [malloc] answers a
    request of zero bytes with a block) is not given back: [free_playlist]
    returns at once and the array stays allocated. *)
Theorem free_playlist_after_make_playlist st params h st' h' :
  heap_ok h ->
  make_playlist grant sizeof_Song PATH_MAX st params h = Ret (0, st') h' ->
  (0 < playlist_length st' ->
   exists h'', free_playlist st' h' = Ret tt h'' /\
               live h'' = live h /\ heap_ok h'') /\
  (playlist_length st' = 0 ->
   free_playlist st' h' = Ret tt h' /\ live h' = playlist st' :: live h).
Proof.
  intros Hok H.
  destruct (make_playlist_run st params h st' h' Hok H) as (Hok' & Hl & Hlen).
  unfold free_playlist. split.
  - intros Hpos.
    destruct (Z.ltb_spec (playlist_length st') 1); [lia|].
    destruct (Z.ltb_spec (Z.of_nat (length (songs st'))) (playlist_length st')); [lia|].
    unfold bind at 1. unfold ret at 1.
    destruct (free_songs_run (songs st') h' (playlist st' :: live h) Hok' Hl)
      as (h1 & F1 & Hok1 & L1).
    unfold bind at 1. rewrite F1.
    destruct (free_outcome [] (live h) (playlist st') h1 Hok1 L1) as [F2 Hok2].
    rewrite F2. eexists. split; [reflexivity|]. split; [reflexivity|exact Hok2].
  - intros Hz. rewrite Hz. split; [reflexivity|].
    rewrite Hl. destruct (songs st'); [reflexivity|cbn [length] in Hlen; lia].
Qed.

Lemma to_u32_negative z : INT_MIN <= z < 0 -> to_u32 z = z + 2 ^ 32.
Proof.
  unfold INT_MIN, to_u32. intros H. symmetry.
  apply (Z.mod_unique z (2 ^ 32) (-1)); lia.
Qed.

Lemma playable_indices_lookup (all : list Entry) :
  forall es i,
    0 <= i -> drop (Z.to_nat i) all = es ->
    Forall2 (fun idx e => all !! Z.to_nat idx = Some e)
            (playable_indices i es) (List.filter playable es).
Proof.
  induction es as [|e es IH]; intros i Hi Hd; cbn [playable_indices List.filter].
  - constructor.
  - assert (He : all !! Z.to_nat i = Some e).
    { rewrite <- (Nat.add_0_r (Z.to_nat i)), <- lookup_drop, Hd. reflexivity. }
    assert (Hd' : drop (Z.to_nat (i + 1)) all = es).
    { replace (Z.to_nat (i + 1)) with (S (Z.to_nat i)) by lia.
      rewrite (drop_S _ _ _ He) in Hd. injection Hd as <-. reflexivity. }
    destruct (playable e).
    + constructor; [exact He|]. apply IH; [lia|exact Hd'].
    + apply IH; [lia|exact Hd'].
Qed.

Lemma songs_of_entries (all : list Entry) (cwd : string) idxs es new :
  Forall2 (fun idx e => all !! Z.to_nat idx = Some e) idxs es ->
  Forall2 (fun i s => exists e, all !! Z.to_nat i = Some e /\
                                song_of PATH_MAX cwd e s) idxs new ->
  Forall2 (song_of PATH_MAX cwd) es new.
Proof.
  intros H. revert new. induction H as [|idx e idxs es He _ IH]; intros new Hn.
  - inversion Hn. constructor.
  - inversion Hn as [|? s ? new' (e' & He' & Hs) Hrest]; subst.
    rewrite He in He'. injection He' as <-.
    constructor; [exact Hs|]. apply IH. exact Hrest.
Qed.

(** X18.  The playlist the play-all branch of [make_playlist] builds,
    when it reports success: its songs are, in directory order, the songs
    of exactly the entries whose name resolves to a codec (file name, path
    "cwd/name" and codec of each), and the length stored is their number.
    Playback starts at the song made from the selected entry when that
    entry is playable, and at the first song when the index selects an
    unplayable entry or lies outside the listing. *)
Theorem make_playlist_play_all_songs st params h st' h' :
  heap_ok h -> play_all params = true ->
  n_entries params = Z.of_nat (length (entries params)) ->
  n_entries params <= INT_MAX -> INT_MIN <= index params <= INT_MAX ->
  make_playlist grant sizeof_Song PATH_MAX st params h = Ret (0, st') h' ->
  Forall2 (song_of PATH_MAX (cwd params))
          (List.filter playable (entries params)) (songs st') /\
  playlist_length st' = Z.of_nat (length (songs st')) /\
  (forall e, 0 <= index params ->
             entries params !! Z.to_nat (index params) = Some e ->
             playable e = true ->
             exists s, 0 <= playlist_index st' /\
                       songs st' !! Z.to_nat (playlist_index st') = Some s /\
                       song_of PATH_MAX (cwd params) e s) /\
  ((index params < 0 \/ n_entries params <= index params \/
    exists e, entries params !! Z.to_nat (index params) = Some e /\
              playable e = false) ->
   playlist_index st' = 0).
Proof.
  intros Hok Hall Hn Hmax Hidx H. unfold make_playlist in H. rewrite Hall in H.
  assert (Hn32 : to_u32 (n_entries params) = n_entries params)
    by (apply to_u32_id; unfold INT_MAX in *; lia).
  rewrite Hn32, Hn, Nat2Z.id in H.
  split_run H. destruct a as [[start_song n_songs] song_indices].
  unfold defined in E.
  destruct (scan_entries _ params 0 0 0 0 []) as [[[s n] idxs]|] eqn:Escan;
    [|discriminate E].
  injection E as -> -> -> <-.
  apply scan_entries_spec in Escan;
    [|lia|reflexivity|reflexivity|unfold MAX_SONGS; lia|lia].
  cbv zeta in Escan. change (Z.to_nat 0) with 0%nat in Escan.
  rewrite drop_0, firstn_all in Escan. cbn [app] in Escan.
  destruct Escan as (Hid & Hcnt & Hle & Hs0 & Ha & Hb).
  destruct (malloc_outcome (to_u32 (n_songs * sizeof_Song)) h Hok)
    as (p & h1 & E1 & Hok1 & _ & _ & [[-> L1]|[Hp1 L1]]);
    unfold bind at 1 in H; rewrite E1 in H; [discriminate H|].
  destruct (Nat.eqb_spec p 0) as [Hz|_]; [lia|].
  split_run H. destruct a as [ok st1].
  destruct ok; [|discriminate H]. injection H as <- <-.
  apply fill_playlist_run in E; [|exact Hok1].
  destruct E as (_ & _ & HL & _ & new & Hs & _ & Hnew).
  cbn [set_playlist set_length set_index playlist playlist_length playlist_index
       songs app] in *.
  rewrite Hs. pose proof (Forall2_length _ _ _ Hnew) as Hlen.
  split.
  { apply (songs_of_entries (entries params) (cwd params) song_indices).
    - rewrite Hid. apply playable_indices_lookup; [lia|reflexivity].
    - exact Hnew. }
  split; [rewrite HL, Hcnt; lia|].
  split.
  - intros e Hi0 He Hp.
    assert (Hin : index params < Z.of_nat (length (entries params))).
    { apply lookup_lt_Some in He. lia. }
    assert (Ht : to_u32 (index params) = index params)
      by (apply to_u32_id; unfold INT_MAX in *; lia).
    rewrite Ht in Ha. specialize (Ha e ltac:(lia) He Hp).
    pose proof (lookup_lt_Some _ _ _ Ha) as Hlt.
    rewrite to_int_id by (unfold INT_MIN, INT_MAX, MAX_SONGS in *; lia).
    destruct (Forall2_lookup_l _ _ _ _ _ Hnew Ha) as (s & Hsng & e' & He' & Hsong).
    rewrite He in He'. injection He' as <-.
    exists s. split; [exact Hs0|]. split; assumption.
  - intros Hout. rewrite Hb; [reflexivity|].
    destruct Hout as [Hneg|[Hbig|Hunp]].
    + left. rewrite to_u32_negative by lia. unfold INT_MIN, INT_MAX in *. lia.
    + left. rewrite to_u32_id by (unfold INT_MAX in *; lia). lia.
    + destruct (Z.lt_ge_cases (index params) 0) as [Hneg|Hpos].
      * left. rewrite to_u32_negative by lia. unfold INT_MIN, INT_MAX in *. lia.
      * right. rewrite to_u32_id by (unfold INT_MAX in *; lia). exact Hunp.
Qed.

End Heap.

(** The theorem on the empty heap, with an allocator that grants every
    request. *)
Lemma create_song_from_entry_outcome_witness :
  exists r h',
    create_song_from_entry grant_all sizeof_Song_esp32 PATH_MAX_esp32
      (mkEntry "1.mp3" 0 0 0) AUDIO_FILE_PATH empty_heap = Ret r h' /\
    heap_ok h' /\
    match r with
    | None => live h' = live empty_heap
    | Some (p, song) =>
        live h' = blk (filepath song) :: blk (filename song) :: p :: live empty_heap /\
        NoDup [blk (filepath song); blk (filename song); p] /\
        Forall (fun q => q ∉ live empty_heap)
               [blk (filepath song); blk (filename song); p] /\
        song_of PATH_MAX_esp32 AUDIO_FILE_PATH (mkEntry "1.mp3" 0 0 0) song
    end.
Proof.
  apply (create_song_from_entry_outcome grant_all sizeof_Song_esp32 PATH_MAX_esp32
           (mkEntry "1.mp3" 0 0 0) AUDIO_FILE_PATH empty_heap).
  split; [apply NoDup_nil_2|apply Forall_nil_2].
Defined.

(** The theorem on the playlist built from [three_entries] on the empty
    heap: after [free_playlist] no block is live. *)
Lemma free_playlist_after_make_playlist_witness :
  exists st' h',
    make_playlist grant_all sizeof_Song_esp32 PATH_MAX_esp32 zero_state
                  (task_params three_entries) empty_heap = Ret (0, st') h' /\
    (0 < playlist_length st' ->
     exists h'', free_playlist st' h' = Ret tt h'' /\
                 live h'' = live empty_heap /\ heap_ok h'') /\
    (playlist_length st' = 0 ->
     free_playlist st' h' = Ret tt h' /\ live h' = playlist st' :: live empty_heap).
Proof.
  eexists _, _. split; [vm_compute; reflexivity|].
  apply (free_playlist_after_make_playlist grant_all sizeof_Song_esp32 PATH_MAX_esp32
           zero_state (task_params three_entries) empty_heap).
  - split; [apply NoDup_nil_2|apply Forall_nil_2].
  - vm_compute. reflexivity.
Defined.


(** The theorem on [three_entries] with the third entry selected: the
    songs are those of "1.mp3" and "2.ogg", and playback starts at the
    second. *)
Lemma make_playlist_play_all_songs_witness :
  exists st' h',
    make_playlist grant_all sizeof_Song_esp32 PATH_MAX_esp32 zero_state
                  (mkParam three_entries 3 2 AUDIO_FILE_PATH true) empty_heap
    = Ret (0, st') h' /\
    Forall2 (song_of PATH_MAX_esp32 AUDIO_FILE_PATH)
            (List.filter playable three_entries) (songs st') /\
    playlist_length st' = Z.of_nat (length (songs st')) /\
    (forall e, 0 <= 2 -> three_entries !! Z.to_nat 2 = Some e -> playable e = true ->
               exists s, 0 <= playlist_index st' /\
                         songs st' !! Z.to_nat (playlist_index st') = Some s /\
                         song_of PATH_MAX_esp32 AUDIO_FILE_PATH e s) /\
    ((2 < 0 \/ 3 <= 2 \/
      exists e, three_entries !! Z.to_nat 2 = Some e /\ playable e = false) ->
     playlist_index st' = 0).
Proof.
  eexists _, _. split; [vm_compute; reflexivity|].
  eapply (make_playlist_play_all_songs grant_all sizeof_Song_esp32 PATH_MAX_esp32
            zero_state (mkParam three_entries 3 2 AUDIO_FILE_PATH true) empty_heap).
  - split; [apply NoDup_nil_2|apply Forall_nil_2].
  - reflexivity.
  - reflexivity.
  - cbn. unfold INT_MAX. lia.
  - cbn. unfold INT_MIN, INT_MAX. lia.
  - vm_compute. reflexivity.
Defined.

End OwnershipFacts.

(* ===================================================================== *)
(** ** Commands, the decode loop and the task *)
(* ===================================================================== *)

Module TaskFacts.
Import CInt CIntFacts Mon Player PlayerFacts Task.
Local Open Scope mon_scope.

(** [set_metadata] changes nothing but the trace, to which it adds its
    call of [ui_player_set_metadata]; or it does not return, when the
    metadata parser does not. *)
Lemma set_metadata_run (fs : gmap string (list byte)) (junk : Z -> nat -> byte)
    (fuel : nat) (song : Song) (w : world) :
  (exists title artist,
      set_metadata fs junk fuel song w
      = Ret tt (mkWorld (the_heap w) (player_state w) (player_task_running w)
                        (polls w) (frames w)
                        (EvSetMetadata title artist :: trace w))) \/
  set_metadata fs junk fuel song w = Timeout.
Proof.
  unfold set_metadata.
  destruct (codec song); try (left; eexists _, _; reflexivity).
  destruct (Id3TagFacts.mp3_read_metadata_ends junk fuel fs (text (filepath song)))
    as [(ok & meta & f & E)|E]; rewrite E.
  - left. eexists _, _. reflexivity.
  - right. reflexivity.
Qed.

(** What [handle_cmd] does to the world: nothing but the [playing] flag,
    the loop mode and the trace can change, and a command is acknowledged
    exactly once. *)
Lemma handle_cmd_run (info : AudioInfo) (cmd : PlayerCmd) (w : world) :
  exists w1,
    handle_cmd info cmd w = Ret (result_of cmd) w1 /\
    the_heap w1 = the_heap w /\ polls w1 = polls w /\ frames w1 = frames w /\
    player_task_running w1 = player_task_running w /\
    songs (player_state w1) = songs (player_state w) /\
    playlist (player_state w1) = playlist (player_state w) /\
    playlist_length (player_state w1) = playlist_length (player_state w) /\
    playlist_index (player_state w1) = playlist_index (player_state w) /\
    acks (trace w1) = (acks (trace w) + if is_command cmd then 1 else 0)%nat /\
    (is_reinit cmd = false ->
     audio_after (trace w) = Some (playing (player_state w)) ->
     audio_after (trace w1) = Some (playing (player_state w1))) /\
    (ends_song cmd = true -> trace w1 = EvCmdAck :: trace w /\
                             player_state w1 = player_state w).
Proof.
  destruct w as [h st run ps fs tr].
  destruct cmd; cbn [handle_cmd];
    unfold bind, ret, get_state, put_state, player_cmd_ack, emit, modify;
    cbn [player_state the_heap polls frames trace player_task_running];
    try (destruct (playing st) eqn:Hpl; cbn [negb]);
    eexists; (split; [reflexivity|]);
    cbn [player_state the_heap polls frames trace player_task_running
         set_playing set_mode songs playlist playlist_length playlist_index playing
         acks List.filter is_ack length is_command is_reinit ends_song audio_after];
    repeat (split; [reflexivity|]);
    unfold acks; (split; [lia|]);
    (split;
     [intros Hr Ha; try discriminate Hr; rewrite Ha; cbn [mbind option_bind];
      rewrite ?Hpl; reflexivity
     |intros He; try discriminate He; split; reflexivity]).
Qed.

Lemma commands_app a b : commands (a ++ b) = (commands a + commands b)%nat.
Proof. unfold commands. rewrite List.filter_app, length_app. reflexivity. Qed.

(** Events that are neither [audio_init] nor [audio_terminate] leave the
    audio output as it is. *)
Lemma audio_after_other e tr on :
  audio_after tr = Some on ->
  match e with EvAudioInit _ | EvAudioTerminate => False | _ => True end ->
  audio_after (e :: tr) = Some on.
Proof.
  intros H He. cbn [audio_after]. rewrite H. cbn [mbind option_bind].
  destruct e; try contradiction; reflexivity.
Qed.

(** The decode loop, from its first poll to its return. *)
Lemma decode_loop_run info :
  forall fuel n w r w',
    decode_loop fuel info n w = Ret r w' ->
    exists taken,
      polls w = taken ++ polls w' /\
      acks (trace w') = (acks (trace w) + commands taken)%nat /\
      the_heap w' = the_heap w /\
      player_task_running w' = player_task_running w /\
      songs (player_state w') = songs (player_state w) /\
      playlist (player_state w') = playlist (player_state w) /\
      playlist_length (player_state w') = playlist_length (player_state w) /\
      playlist_index (player_state w') = playlist_index (player_state w) /\
      (Forall (fun c => is_reinit c = false) taken ->
       audio_after (trace w) = Some (playing (player_state w)) ->
       audio_after (trace w') = Some (playing (player_state w'))).
Proof.
  induction fuel as [|fuel IH]; intros n w r w' H; [discriminate H|].
  cbn [decode_loop] in H.
  (* the poll *)
  set (w0 := mkWorld (the_heap w) (player_state w) (player_task_running w)
                     (polls w) (frames w) (EvWdtReset :: trace w)) in *.
  unfold bind at 1 in H.
  change (emit EvWdtReset w) with (Ret tt w0) in H. cbv iota beta in H.
  unfold bind at 1 in H.
  assert (Hpoll : exists cmd w1 step,
            player_poll_cmd w0 = Ret cmd w1 /\ polls w = step ++ polls w1 /\
            commands step = (if is_command cmd then 1 else 0)%nat /\
            (Forall (fun c => is_reinit c = false) step -> is_reinit cmd = false) /\
            the_heap w1 = the_heap w /\ player_state w1 = player_state w /\
            player_task_running w1 = player_task_running w /\
            frames w1 = frames w /\ trace w1 = EvWdtReset :: trace w).
  { unfold player_poll_cmd, w0. cbn [polls].
    destruct (polls w) as [|c rest].
    - exists PlayerCmdNone, w0, []. repeat split; reflexivity.
    - eexists c, _, [c]. split; [reflexivity|]. cbn [polls app].
      split; [reflexivity|]. split; [unfold commands; cbn; destruct c; reflexivity|].
      split; [intros Hf; apply Forall_cons in Hf as [Hf _]; exact Hf|].
      repeat split; reflexivity. }
  destruct Hpoll as (cmd & w1 & step & Ep & Hstep & Hcount & Hre & H1h & H1s & H1r & H1f & H1t).
  rewrite Ep in H.
  destruct (handle_cmd_run info cmd w1)
    as (w2 & Eh & H2h & H2p & H2f & H2r & H2s & H2pl & H2l & H2i & H2a & H2audio & _).
  unfold bind at 1 in H. rewrite Eh in H.
  assert (Hstep_ok :
            polls w = step ++ polls w2 /\
            acks (trace w2) = (acks (trace w) + commands step)%nat /\
            (Forall (fun c => is_reinit c = false) step ->
             audio_after (trace w) = Some (playing (player_state w)) ->
             audio_after (trace w2) = Some (playing (player_state w2)))).
  { split; [rewrite H2p; exact Hstep|].
    split; [rewrite H2a, H1t, Hcount; reflexivity|].
    intros Hf Ha. apply H2audio; [apply Hre; exact Hf|].
    rewrite H1t, H1s. apply audio_after_other; [exact Ha|exact I]. }
  destruct Hstep_ok as (Sp & Sa & Saudio).
  destruct (is_done (result_of cmd)); cbn [negb] in H.
  2:{ injection H as <- <-. exists step.
      rewrite H2h, H2r, H2s, H2pl, H2l, H2i, H1h, H1s, H1r.
      repeat split; assumption. }
  unfold bind at 1 in H. unfold get_state at 1 in H.
  (* one round of decoding or sleeping *)
  unfold bind at 1 in H.
  destruct ((if playing (player_state w2)
             then let* n0 := decode in emit (EvAudioSubmit n0);; ret n0
             else emit EvSleep;; ret n) w2) as [n' w3| | |] eqn:Er;
    try discriminate H.
  assert (H3 : the_heap w3 = the_heap w2 /\ player_state w3 = player_state w2 /\
               player_task_running w3 = player_task_running w2 /\
               polls w3 = polls w2 /\
               acks (trace w3) = acks (trace w2) /\
               (forall on, audio_after (trace w2) = Some on ->
                           audio_after (trace w3) = Some on)).
  { destruct (playing (player_state w2)).
    - unfold bind, decode, emit, modify, ret in Er.
      destruct (frames w2); injection Er as <- <-;
        cbn [the_heap player_state player_task_running polls trace];
        repeat (split; [reflexivity|]);
        intros on Ha; repeat (apply audio_after_other; [|exact I]); exact Ha.
    - unfold bind, emit, modify, ret in Er. injection Er as <- <-.
      cbn [the_heap player_state player_task_running polls trace].
      repeat (split; [reflexivity|]).
      intros on Ha. apply audio_after_other; [exact Ha|exact I]. }
  destruct H3 as (H3h & H3s & H3r & H3p & H3a & H3audio).
  destruct (0 <? n').
  - apply IH in H.
    destruct H as (taken & Tp & Ta & Th & Tr & Ts & Tpl & Tl & Ti & Taudio).
    exists (step ++ taken).
    rewrite Th, Tr, Ts, Tpl, Tl, Ti, H3h, H3s, H3r, H2h, H2r, H2s, H2pl, H2l, H2i,
      H1h, H1s, H1r.
    split; [rewrite <- app_assoc, <- Tp, H3p; exact Sp|].
    split; [rewrite Ta, H3a, Sa, commands_app; lia|].
    repeat (split; [reflexivity|]).
    intros Hf Ha. apply Forall_app in Hf as [Hf1 Hf2].
    apply Taudio; [exact Hf2|]. rewrite H3s. apply H3audio.
    apply Saudio; assumption.
  - injection H as <- <-. exists step.
    rewrite H3h, H3s, H3r, H3p, H3a, H2h, H2r, H2s, H2pl, H2l, H2i, H1h, H1s, H1r.
    split; [exact Sp|]. split; [exact Sa|].
    repeat (split; [reflexivity|]).
    intros Hf Ha. apply H3audio. apply Saudio; assumption.
Qed.



Lemma idle_rounds_snoc k tr :
  idle_rounds (S k) tr = idle_rounds k (EvSleep :: EvWdtReset :: tr).
Proof. reflexivity. Qed.

(** A paused loop that has decoded before idles until a command ends the
    song: with [playing] clear and a positive [n_frames], each poll that
    finds no command is followed by a sleep, and a Terminate, Next or Prev
    command ends the loop at the poll that takes it. *)
Lemma decode_loop_idle (info : AudioInfo) (k : nat) (c : PlayerCmd)
    (rest : list PlayerCmd) :
  forall (fuel : nat) (n_frames : Z) (w : world),
    playing (player_state w) = false -> 0 < n_frames ->
    polls w = replicate k PlayerCmdNone ++ c :: rest -> ends_song c = true ->
    (k < fuel)%nat ->
    decode_loop fuel info n_frames w
    = Ret (result_of c)
          (mkWorld (the_heap w) (player_state w) (player_task_running w) rest
                   (frames w) (EvCmdAck :: EvWdtReset :: idle_rounds k (trace w))).
Proof.
  induction k as [|k IH]; intros fuel n_frames w Hp Hn Hpolls Hc Hfuel;
    (destruct fuel as [|fuel]; [lia|]);
    destruct w as [h st run ps fs tr];
    cbn [the_heap player_state player_task_running polls frames trace] in *;
    subst ps.
  - cbn [replicate app idle_rounds].
    destruct c; try discriminate Hc; reflexivity.
  - cbn [replicate app]. rewrite idle_rounds_snoc.
    cbn [decode_loop]. unfold bind at 1. unfold emit at 1, modify at 1.
    unfold bind at 1. unfold player_poll_cmd at 1. cbn [polls].
    unfold bind at 1. cbn [handle_cmd]. unfold ret at 1. cbn [is_done negb].
    unfold bind at 1. unfold get_state at 1. cbn [player_state].
    rewrite Hp. unfold bind at 1. unfold bind at 1.
    unfold emit at 1, modify at 1. unfold ret at 1.
    destruct (Z.ltb_spec 0 n_frames); [|lia].
    cbn [the_heap player_state player_task_running polls frames trace].
    rewrite (IH fuel n_frames
               (mkWorld h st run (replicate k PlayerCmdNone ++ c :: rest) fs
                        (EvSleep :: EvWdtReset :: tr))
               Hp Hn eq_refl Hc ltac:(lia)).
    reflexivity.
Qed.

(** X20.  What a Pause command does to the decode loop of [play_song].
    The round that takes it clears [playing], terminates the audio output,
    acknowledges the command and sleeps instead of decoding; whether the
    loop then goes on rests on [n_frames], the frame count of the last
    chunk decoded.  When a chunk was decoded before ([n_frames] positive)
    the loop idles: it resets the watchdog, polls and sleeps, round after
    round, without calling the decoder, until a Terminate, Next or Prev
    command ends it at the poll that takes it, acknowledged and with the
    result of that command.  When Pause comes at the first poll of the
    song ([n_frames] still 0) the loop ends in that same round with result
    Done: the song is over instead of paused, and the commands behind the
    Pause, Terminate included, stay in the queue unread. *)
Theorem decode_loop_paused (info : AudioInfo) (k : nat) (c : PlayerCmd)
    (rest : list PlayerCmd) :
  forall (fuel : nat) (n_frames : Z) (w : world),
    playing (player_state w) = true ->
    polls w = PlayerCmdPause :: replicate k PlayerCmdNone ++ c :: rest ->
    ends_song c = true -> (S k < fuel)%nat ->
    (0 < n_frames ->
     decode_loop fuel info n_frames w
     = Ret (result_of c)
           (mkWorld (the_heap w) (set_playing (player_state w) false)
                    (player_task_running w) rest (frames w)
                    (EvCmdAck :: EvWdtReset
                       :: idle_rounds k (EvSleep :: EvCmdAck :: EvAudioTerminate
                                           :: EvWdtReset :: trace w)))) /\
    (n_frames <= 0 ->
     decode_loop fuel info n_frames w
     = Ret PlayerResultDone
           (mkWorld (the_heap w) (set_playing (player_state w) false)
                    (player_task_running w)
                    (replicate k PlayerCmdNone ++ c :: rest) (frames w)
                    (EvSleep :: EvCmdAck :: EvAudioTerminate :: EvWdtReset
                       :: trace w))).
Proof.
  intros fuel n_frames w Hp Hpolls Hc Hfuel.
  destruct fuel as [|fuel]; [lia|].
  destruct w as [h st run ps fs tr].
  cbn [the_heap player_state player_task_running polls frames trace] in *.
  subst ps.
  (* the round that takes Pause *)
  assert (Hround :
            decode_loop (S fuel) info n_frames
              (mkWorld h st run
                       (PlayerCmdPause :: replicate k PlayerCmdNone ++ c :: rest) fs tr)
            = (if 0 <? n_frames then decode_loop fuel info n_frames
               else ret PlayerResultDone)
                (mkWorld h (set_playing st false) run
                         (replicate k PlayerCmdNone ++ c :: rest) fs
                         (EvSleep :: EvCmdAck :: EvAudioTerminate :: EvWdtReset :: tr))).
  { cbn [decode_loop]. unfold bind at 1. unfold emit at 1, modify at 1.
    unfold bind at 1. unfold player_poll_cmd at 1. cbn [polls].
    unfold bind at 1. cbn [handle_cmd].
    unfold bind at 1. unfold bind at 1. unfold get_state at 1.
    cbn [the_heap player_state player_task_running polls frames trace].
    unfold bind at 1. unfold put_state at 1, modify at 1.
    cbn [the_heap player_state player_task_running polls frames trace].
    unfold bind at 1. rewrite Hp. cbn [negb].
    unfold emit at 1, modify at 1.
    cbn [the_heap player_state player_task_running polls frames trace].
    unfold ret at 1. unfold bind at 1. unfold player_cmd_ack, emit at 1, modify at 1.
    cbn [the_heap player_state player_task_running polls frames trace].
    unfold ret at 1. cbn [is_done negb].
    unfold bind at 1. unfold get_state at 1.
    cbn [the_heap player_state player_task_running polls frames trace
         set_playing playing].
    unfold bind at 1. unfold bind at 1. unfold emit at 1, modify at 1.
    cbn [the_heap player_state player_task_running polls frames trace].
    unfold ret at 1.
    destruct (0 <? n_frames); reflexivity. }
  rewrite Hround. split; intros Hn.
  - destruct (Z.ltb_spec 0 n_frames); [|lia].
    rewrite (decode_loop_idle info k c rest fuel n_frames
               (mkWorld h (set_playing st false) run
                        (replicate k PlayerCmdNone ++ c :: rest) fs
                        (EvSleep :: EvCmdAck :: EvAudioTerminate :: EvWdtReset :: tr))
               eq_refl H eq_refl Hc ltac:(lia)).
    reflexivity.
  - destruct (Z.ltb_spec 0 n_frames); [lia|]. reflexivity.
Qed.

(** The theorem on a song that is paused at its first poll, with
    Terminate sent two polls later: the loop ends with Done in the round
    that takes Pause, and Terminate is not read. *)
Lemma decode_loop_paused_witness :
  decode_loop 3 (mkInfo 44100 2 1024) 0
    (playing_world [PlayerCmdPause; PlayerCmdNone; PlayerCmdTerminate] [512])
  = Ret PlayerResultDone
        (mkWorld empty_heap (mkState false 1 [] 1 0 PlayingModeNormal) true
                 [PlayerCmdNone; PlayerCmdTerminate] [512]
                 [EvSleep; EvCmdAck; EvAudioTerminate; EvWdtReset]).
Proof.
  apply (proj2 (decode_loop_paused (mkInfo 44100 2 1024) 1 PlayerCmdTerminate [] 3 0
                  (playing_world [PlayerCmdPause; PlayerCmdNone; PlayerCmdTerminate] [512])
                  eq_refl eq_refl eq_refl ltac:(lia))).
  lia.
Defined.

(** X21.  [play_song] pairs [audio_init] with [audio_terminate]: started
    with the audio output not initialised, and as long as no ReinitAudio
    command is waiting, every run that returns (whatever the commands,
    the decoder and the result) has never initialised an output that was
    initialised nor terminated one that was not, and leaves the output
    not initialised. *)
Theorem play_song_audio_paired (has_decoder : AudioCodec -> bool)
    (decoder_open : string -> bool) (decoder_info : string -> option AudioInfo)
    (fs : gmap string (list byte)) (junk : Z -> nat -> byte)
    (fuel : nat) (song : Song) (w : world) (r : PlayerResult) (w' : world) :
  audio_after (trace w) = Some false ->
  Forall (fun c => is_reinit c = false) (polls w) ->
  play_song has_decoder decoder_open decoder_info fs junk fuel song w = Ret r w' ->
  audio_after (trace w') = Some false.
Proof.
  intros Ha Hf H. unfold play_song in H.
  unfold bind at 1 in H.
  destruct (set_metadata_run fs junk fuel song w) as [(title & artist & Em)|Em];
    rewrite Em in H; [|discriminate H].
  set (w0 := mkWorld _ _ _ _ _ (EvSetMetadata _ _ :: trace w)) in H.
  assert (Ha0 : audio_after (trace w0) = Some false)
    by (apply audio_after_other; [exact Ha|exact I]).
  destruct (has_decoder (codec song)); cbn [negb] in H;
    [|injection H as _ <-; exact Ha0].
  unfold bind at 1 in H. unfold emit at 1, modify at 1 in H.
  set (w1 := mkWorld _ _ _ _ _ (EvDecoderOpen _ :: trace w0)) in H.
  assert (Ha1 : audio_after (trace w1) = Some false)
    by (apply audio_after_other; [exact Ha0|exact I]).
  destruct (decoder_open (text (filepath song))); cbn [negb] in H;
    [|injection H as _ <-; exact Ha1].
  destruct (decoder_info (text (filepath song))) as [info|].
  2:{ unfold bind, emit, modify, ret in H. injection H as _ <-.
      apply audio_after_other; [exact Ha1|exact I]. }
  unfold bind at 1 in H. unfold emit at 1, modify at 1 in H.
  unfold bind at 1 in H. unfold get_state at 1 in H.
  unfold bind at 1 in H. unfold put_state at 1, modify at 1 in H.
  cbn [the_heap player_state player_task_running polls frames trace] in H.
  unfold bind at 1 in H.
  match type of H with
  | match decode_loop fuel info 0 ?x with _ => _ end = _ => set (w2 := x) in H
  end.
  destruct (decode_loop fuel info 0 w2) as [res w3| | |] eqn:Eloop;
    try discriminate H.
  destruct (decode_loop_run info fuel 0 w2 res w3 Eloop)
    as (taken & Tp & _ & _ & _ & _ & _ & _ & _ & Taudio).
  assert (Ha3 : audio_after (trace w3) = Some (playing (player_state w3))).
  { apply Taudio.
    - assert (Hsub : Forall (fun c => is_reinit c = false) (taken ++ polls w3)).
      { rewrite <- Tp. exact Hf. }
      apply Forall_app in Hsub as [Hsub _]. exact Hsub.
    - unfold w2. cbn [trace player_state set_playing playing audio_after].
      fold (audio_after (trace w1)). rewrite Ha1. reflexivity. }
  unfold bind, emit, modify, get_state, ret in H.
  cbn [the_heap player_state player_task_running polls frames trace] in H.
  destruct (playing (player_state w3)); injection H as _ <-;
    cbn [trace audio_after]; rewrite Ha3; reflexivity.
Qed.

(** The theorem on a song that is paused, resumed and then skipped. *)
Lemma play_song_audio_paired_witness :
  exists r w',
    play_song decoder_any open_any info_cd card Id3.zero_junk 8
              (mkSong (mkCstr 2 "1.mp3") (mkCstr 3 "/sdcard/audio/1.mp3") AudioCodecMP3)
              (initial_world [PlayerCmdNone; PlayerCmdPause; PlayerCmdPause; PlayerCmdNext]
                             [512; 512; 512]) = Ret r w' /\
    audio_after (trace w') = Some false.
Proof.
  eexists _, _. split; [vm_compute; reflexivity|].
  eapply (play_song_audio_paired decoder_any open_any info_cd card Id3.zero_junk 8
            (mkSong (mkCstr 2 "1.mp3") (mkCstr 3 "/sdcard/audio/1.mp3") AudioCodecMP3)
            (initial_world [PlayerCmdNone; PlayerCmdPause; PlayerCmdPause; PlayerCmdNext]
                           [512; 512; 512])).
  - reflexivity.
  - repeat constructor.
  - vm_compute. reflexivity.
Defined.

(** X22.  On a playlist of [L] songs, [0 < L], Prev undoes Next and Next
    undoes Prev: from every index on a song, resolving a NextSong result
    and then a PrevSong result, or the other way round, gives the index
    back, in every loop mode and also across the ends of the playlist. *)
Theorem get_next_song_index_round_trip (state : PlayerState) (i : Z) :
  0 < playlist_length state <= INT_MAX -> 0 <= i < playlist_length state ->
  (get_next_song_index state PlayerResultNextSong i
     ≫= get_next_song_index state PlayerResultPrevSong) = Some i /\
  (get_next_song_index state PlayerResultPrevSong i
     ≫= get_next_song_index state PlayerResultNextSong) = Some i.
Proof.
  intros HL Hi. unfold get_next_song_index. cbv zeta.
  set (L := playlist_length state) in *.
  rewrite (advance_index L i), (retreat_index L i) by assumption.
  cbn [mbind option_bind].
  assert (Hnx : 0 <= (i + 1) mod L < L) by (apply Z.mod_pos_bound; lia).
  assert (Hpv : 0 <= (i - 1 + L) mod L < L) by (apply Z.mod_pos_bound; lia).
  rewrite (retreat_index L ((i + 1) mod L)), (advance_index L ((i - 1 + L) mod L))
    by assumption.
  split; f_equal.
  - replace ((i + 1) mod L - 1 + L) with ((i + 1) mod L + (L - 1)) by lia.
    rewrite Zplus_mod_idemp_l. replace (i + 1 + (L - 1)) with (i + 1 * L) by lia.
    rewrite Z_mod_plus_full. apply Z.mod_small. lia.
  - rewrite Zplus_mod_idemp_l. replace (i - 1 + L + 1) with (i + 1 * L) by lia.
    rewrite Z_mod_plus_full. apply Z.mod_small. lia.
Qed.

(** The round trip on the last of three songs. *)
Lemma get_next_song_index_round_trip_witness :
  (get_next_song_index (three_songs PlayingModeNormal) PlayerResultNextSong 2
     ≫= get_next_song_index (three_songs PlayingModeNormal) PlayerResultPrevSong)
  = Some 2 /\
  (get_next_song_index (three_songs PlayingModeNormal) PlayerResultPrevSong 2
     ≫= get_next_song_index (three_songs PlayingModeNormal) PlayerResultNextSong)
  = Some 2.
Proof.
  apply (get_next_song_index_round_trip (three_songs PlayingModeNormal) 2).
  - cbn. unfold INT_MAX. lia.
  - cbn. lia.
Defined.

(** X23.  [player_task] returns to its caller only on its three early
    exits (the audio directory does not open, [make_playlist] fails, the
    audio buffer is not allocated); once it has entered the song loop it
    ends in [player_teardown_task], which does not return.  On these
    exits [player_task_running], set on entry, is still set, and nothing
    was played, acknowledged or torn down: the trace and the command
    queue are as they were. *)
Theorem player_task_early_return (grant : nat -> Z -> bool) (sizeof_Song PATH_MAX : Z)
    (has_decoder : AudioCodec -> bool) (decoder_open : string -> bool)
    (decoder_info : string -> option AudioInfo)
    (fs : gmap string (list byte)) (junk : Z -> nat -> byte)
    (listing : option (list Entry)) (fuel : nat) (w w' : world) :
  player_task grant sizeof_Song PATH_MAX has_decoder decoder_open decoder_info
              fs junk listing fuel w = Ret tt w' ->
  player_task_running w' = true /\ trace w' = trace w /\ polls w' = polls w.
Proof.
  unfold player_task. intros H.
  unfold bind at 1 in H. unfold set_running at 1, modify at 1 in H.
  unfold bind at 1 in H. unfold put_state at 1, modify at 1 in H.
  cbn [the_heap player_state player_task_running polls frames trace] in H.
  destruct listing as [new_entries|].
  2:{ injection H as <-. repeat split. }
  unfold bind at 1 in H. unfold get_state at 1 in H.
  cbn [the_heap player_state player_task_running polls frames trace] in H.
  unfold bind at 1 in H. unfold on_heap at 1, zoom at 1 in H.
  cbn [the_heap player_state player_task_running polls frames trace] in H.
  destruct (make_playlist grant sizeof_Song PATH_MAX zero_state _ (the_heap w))
    as [[rc st] h1|h1| |]; try discriminate H.
  unfold bind at 1 in H. unfold put_state at 1, modify at 1 in H.
  cbn [the_heap player_state player_task_running polls frames trace] in H.
  destruct (rc =? 0); cbn [negb] in H.
  2:{ injection H as <-. repeat split. }
  unfold bind at 1 in H. unfold on_heap at 1, zoom at 1 in H.
  cbn [the_heap player_state player_task_running polls frames trace] in H.
  destruct (malloc grant (16384 * 2) h1) as [audio_buf h2|h2| |]; try discriminate H.
  cbn [the_heap player_state player_task_running polls frames trace] in H.
  destruct (audio_buf =? 0)%nat.
  { injection H as <-. repeat split. }
  exfalso.
  unfold bind at 1 in H.
  destruct (song_loop has_decoder decoder_open decoder_info fs junk fuel _)
    as [u w1|w1| |];
    try discriminate H.
  unfold bind at 1 in H.
  destruct (on_heap (free audio_buf) w1) as [u' w2|w2| |]; discriminate H.
Qed.

(** The theorem on a directory that does not open. *)
Lemma player_task_early_return_witness :
  exists w',
    player_task grant_all sizeof_Song_esp32 PATH_MAX_esp32 decoder_any open_any
                info_cd card Id3.zero_junk None 8
                (initial_world [PlayerCmdTerminate] []) = Ret tt w' /\
    player_task_running w' = true /\ trace w' = [] /\
    polls w' = [PlayerCmdTerminate].
Proof.
  eexists. split; [vm_compute; reflexivity|].
  eapply (player_task_early_return grant_all sizeof_Song_esp32 PATH_MAX_esp32
            decoder_any open_any info_cd card Id3.zero_junk None 8
            (initial_world [PlayerCmdTerminate] [])).
  vm_compute. reflexivity.
Defined.

Section Unplayable.

Variable has_decoder : AudioCodec -> bool.
Variable decoder_open : string -> bool.
Variable decoder_info : string -> option AudioInfo.
Variable fs : gmap string (list byte).
Variable junk : Z -> nat -> byte.

(** [play_song] on a song it cannot decode: an error, with the player
    state and the command queue as they were, unless the metadata parser
    does not return. *)
Lemma play_song_unplayable fuel song w :
  unplayable has_decoder decoder_open decoder_info song ->
  (exists w1,
      play_song has_decoder decoder_open decoder_info fs junk fuel song w
      = Ret PlayerResultError w1 /\
      player_state w1 = player_state w /\ polls w1 = polls w) \/
  play_song has_decoder decoder_open decoder_info fs junk fuel song w = Timeout.
Proof.
  intros Hun.
  destruct (set_metadata_run fs junk fuel song w) as [(title & artist & Em)|Em];
    [left|right]; unfold play_song; unfold bind at 1; rewrite Em; [|reflexivity].
  destruct (has_decoder (codec song)) eqn:Hd; cbn [negb];
    [|eexists; split; [reflexivity|split; reflexivity]].
  unfold bind at 1. unfold emit at 1, modify at 1.
  destruct (decoder_open (text (filepath song))) eqn:Ho; cbn [negb];
    [|eexists; split; [reflexivity|split; reflexivity]].
  destruct (decoder_info (text (filepath song))) eqn:Hi.
  - destruct Hun as [H|[H|H]]; congruence.
  - unfold bind, emit, modify, ret. eexists. split; [reflexivity|split; reflexivity].
Qed.

(** X25.  With a playlist none of whose songs can be decoded (no decoder
    for the codec, a file that does not open, or no stream information),
    the song loop of [player_task] never ends: every song fails before
    the decode loop, which holds the only poll of the command queue, so
    the loop moves from song to song for ever (or stays in the metadata
    parser of one of them) and no command, Terminate included, is ever
    read.  Whatever the files hold and whatever the fuel, the run is still
    going when the fuel is spent. *)
Theorem song_loop_unplayable_never_ends (fuel : nat) :
  forall w : world,
    0 < playlist_length (player_state w) <= INT_MAX ->
    0 <= playlist_index (player_state w) < playlist_length (player_state w) ->
    Z.of_nat (length (songs (player_state w))) = playlist_length (player_state w) ->
    Forall (unplayable has_decoder decoder_open decoder_info)
           (songs (player_state w)) ->
    song_loop has_decoder decoder_open decoder_info fs junk fuel w = Timeout.
Proof.
  induction fuel as [|fuel IH]; intros w HL Hi Hlen Hall; [reflexivity|].
  cbn [song_loop]. unfold bind at 1. unfold get_state at 1.
  destruct (Z.leb_spec 0 (playlist_index (player_state w))); [|lia].
  destruct (Z.ltb_spec (playlist_index (player_state w))
                       (playlist_length (player_state w))); [|lia].
  cbn [andb].
  destruct (lookup_lt_is_Some_2 (songs (player_state w))
              (Z.to_nat (playlist_index (player_state w))) ltac:(lia)) as [song Hs].
  rewrite Hs. unfold bind at 1. unfold defined, ret at 1.
  rewrite Forall_forall in Hall.
  destruct (play_song_unplayable (S fuel) song w
              (Hall song (list_elem_of_lookup_2 _ _ _ Hs))) as [(w1 & E & Hst & Hp)|E];
    unfold bind at 1; rewrite E; [|reflexivity].
  cbn [is_stop].
  unfold bind at 1. unfold get_state at 1. rewrite Hst.
  destruct (get_next_song_index_in_range (player_state w) PlayerResultError
              (playlist_index (player_state w)) HL Hi) as (i' & Ei & Hi').
  rewrite Ei. unfold bind at 1. unfold defined, ret at 1.
  unfold bind at 1. unfold put_state at 1, modify at 1.
  unfold bind at 1. unfold emit at 1, modify at 1.
  apply IH; cbn [player_state set_index playlist_length playlist_index songs];
    try assumption.
  apply Forall_forall. exact Hall.
Qed.

End Unplayable.

(** The theorem on a playlist of one song and a decoder table that knows
    no codec, with a Terminate command waiting. *)
Lemma song_loop_unplayable_never_ends_witness :
  song_loop no_decoder open_any info_cd card Id3.zero_junk 5
            (one_song_world [PlayerCmdTerminate])
  = Timeout.
Proof.
  apply (song_loop_unplayable_never_ends no_decoder open_any info_cd
           card Id3.zero_junk 5
           (one_song_world [PlayerCmdTerminate])).
  - cbn. unfold INT_MAX. lia.
  - cbn. lia.
  - reflexivity.
  - repeat constructor.
Defined.

End TaskFacts.

(* ===================================================================== *)
(** ** What the display shows *)
(* ===================================================================== *)

Module UiFacts.
Import Mon Id3 Id3Facts Player Ui.

(** The two views of [set_metadata] agree: the call of
    [ui_player_set_metadata] that [Player.set_metadata] records puts on
    the labels the texts [Ui.set_metadata] gives, and the one does not
    return exactly when the other does not. *)
Lemma set_metadata_labels (fs : gmap string (list byte)) (junk : Z -> nat -> byte)
    (fuel : nat) (song : Song) (w : world) :
  match Player.set_metadata fs junk fuel song w, Ui.set_metadata junk fuel fs song with
  | Ret _ w', Ret shown _ =>
      exists title artist,
        trace w' = EvSetMetadata title artist :: trace w /\
        ui_player_set_metadata (Some title) (Some artist) = shown
  | Halt _, Halt _ | Fault, Fault | Timeout, Timeout => True
  | _, _ => False
  end.
Proof.
  unfold Player.set_metadata, Ui.set_metadata.
  destruct (codec song); try (eexists _, _; split; reflexivity).
  destruct (mp3_read_metadata junk fuel fs (text (filepath song)))
    as [[ok meta] f|f| |]; try exact I.
  eexists _, _. split; reflexivity.
Qed.



End UiFacts.
